(** * Multiplayer state synchronisation: server simulation and client interpolation

    A shallow embedding of [server.py] (the authoritative fixed-tick
    simulation, the session controller and the broadcast layer) and of
    [client.py] (the snapshot buffer and the interpolator), followed by the
    properties of the specification.

    Conventions of the embedding.
    - In the transition system of the server and in the client, Python
      [float]s (positions, inputs, timestamps, durations) are read as real
      numbers: [**0.5] is [sqrt], [/] is a partial division that raises on a
      zero divisor, comparisons are the order of [R].
    - The movement step is given a second time in module [Binary64], on
      IEEE 754 binary64 numbers, which is what a Python [float] is; the
      properties of movement that depend on rounding, overflow, underflow,
      infinities or NaN are stated there.
    - A Python [dict] is an association list in insertion order with unique
      keys: assigning to an existing key keeps its place, a new key goes to the
      end, as in CPython.
    - [random] and [time.time()] are inputs of the operations that call them.
    - An exception is [None] in the [option] monad. *)

From Stdlib Require Import Reals Lra Lia ZArith List String Bool Arith.
From Stdlib Require Import DecimalString DecimalNat.
From Stdlib Require Floats.
Import ListNotations.

Set Implicit Arguments.

(** ** Python dictionaries and sets *)

Class Hashable (K : Type) := {
  key_eqb : K -> K -> bool;
  key_eqb_spec : forall a b : K, reflect (a = b) (key_eqb a b)
}.

#[export] Instance string_hashable : Hashable string :=
  {| key_eqb := String.eqb; key_eqb_spec := String.eqb_spec |}.

#[export] Instance nat_hashable : Hashable nat :=
  {| key_eqb := Nat.eqb; key_eqb_spec := Nat.eqb_spec |}.

Section Dict.
Context {K V : Type} `{Hashable K}.

Definition dict := list (K * V).

Definition keys (d : dict) : list K := map fst d.
Definition values (d : dict) : list V := map snd d.

(** [d.get(k)] *)
Fixpoint dict_get (k : K) (d : dict) : option V :=
  match d with
  | [] => None
  | (k', v) :: r => if key_eqb k k' then Some v else dict_get k r
  end.

(** [k in d] *)
Definition dict_mem (k : K) (d : dict) : bool :=
  match dict_get k d with Some _ => true | None => false end.

(** [d[k] = v] *)
Fixpoint dict_set (k : K) (v : V) (d : dict) : dict :=
  match d with
  | [] => [(k, v)]
  | (k', v') :: r =>
      if key_eqb k k' then (k, v) :: r else (k', v') :: dict_set k v r
  end.

(** [del d[k]].  Every [del] of the program is on a key that is present;
    on an absent key, where Python raises, the dictionary is returned as it
    is. *)
Fixpoint dict_del (k : K) (d : dict) : dict :=
  match d with
  | [] => []
  | (k', v') :: r =>
      if key_eqb k k' then r else (k', v') :: dict_del k r
  end.

(** [{key(v): v for v in l}] *)
Definition dict_of (key : V -> K) (l : list V) : dict :=
  fold_left (fun d v => dict_set (key v) v d) l [].
End Dict.

Arguments dict : clear implicits.

Section PySet.
Context {K : Type} `{Hashable K}.

Definition set_mem (k : K) (s : list K) : bool := existsb (key_eqb k) s.

(** [s.add(k)] *)
Definition set_add (k : K) (s : list K) : list K :=
  if set_mem k s then s else s ++ [k].

(** [s.discard(k)] *)
Definition set_discard (k : K) (s : list K) : list K :=
  filter (fun k' => negb (key_eqb k k')) s.
End PySet.

(** ** Numbers *)

Open Scope R_scope.

(** [a / b]: raises [ZeroDivisionError] when [b] is zero. *)
Definition py_div (a b : R) : option R :=
  if Req_dec_T b 0 then None else Some (a / b).

(** [max(a, b)] keeps [a] unless [b > a]; [min(a, b)] keeps [a] unless
    [b < a]. *)
Definition py_max (a b : R) : R := if Rlt_dec a b then b else a.
Definition py_min (a b : R) : R := if Rlt_dec b a then b else a.

Definition Rltb (a b : R) : bool := if Rlt_dec a b then true else false.
Definition Rleb (a b : R) : bool := if Rle_dec a b then true else false.
Definition Reqb (a b : R) : bool := if Req_dec_T a b then true else false.

(** [str(n)] for a non-negative integer *)
Definition str (n : nat) : string := NilEmpty.string_of_uint (Nat.to_uint n).

(** ** Configuration ([server.py], lines 10-17) *)

Definition GAME_WIDTH : R := 500.
Definition GAME_HEIGHT : R := 375.
Definition PLAYER_RADIUS : R := 25.
Definition COIN_RADIUS : R := 15.
Definition COIN_SPAWN_INTERVAL : R := 5.
Definition SIMULATION_LATENCY : R := 2 / 10.
Definition PLAYER_SPEED : R := 300.
Definition TICK_RATE : R := 120.
Definition TICK_DELTA : R := 1 / TICK_RATE.

(** ** Data classes *)

Definition RGB := (Z * Z * Z)%type.

Module Player.
Record t := mk {
  id : string;
  x : R;
  y : R;
  color : RGB;
  score : Z;
  input_x : R;
  input_y : R
}.

(** [Player(id=, x=, y=, color=)]: score and input take their defaults. *)
Definition new (id : string) (x y : R) (color : RGB) : t :=
  mk id x y color 0%Z 0 0.

Definition set_pos (p : t) (x y : R) : t :=
  mk (id p) x y (color p) (score p) (input_x p) (input_y p).
Definition set_input (p : t) (ix iy : R) : t :=
  mk (id p) (x p) (y p) (color p) (score p) ix iy.
Definition incr_score (p : t) : t :=
  mk (id p) (x p) (y p) (color p) (score p + 1)%Z (input_x p) (input_y p).
End Player.

Module Coin.
Record t := mk { id : string; x : R; y : R }.
End Coin.

(** The public views that [to_dict] puts on the wire. *)
Module PlayerView.
Record t := mk { id : string; x : R; y : R; score : Z; color : RGB }.
End PlayerView.

Module CoinView.
Record t := mk { id : string; x : R; y : R }.
End CoinView.

Definition Player_to_dict (p : Player.t) : PlayerView.t :=
  PlayerView.mk (Player.id p) (Player.x p) (Player.y p)
                (Player.score p) (Player.color p).

Definition Coin_to_dict (c : Coin.t) : CoinView.t :=
  CoinView.mk (Coin.id c) (Coin.x c) (Coin.y c).

(** Wire messages, server to client. *)
Inductive Message :=
| MInit (player_id : string)
        (game_width game_height player_radius coin_radius : R)
| MGameStart
| MStateUpdate (timestamp : R) (players : list PlayerView.t)
               (coins : list CoinView.t).

(** A connection is identified by a number. *)
Definition WebSocket := nat.

(** ** The server ([server.py]) *)

Module Server.

Record GameServer := mkServer {
  players : dict string Player.t;
  coins : dict string Coin.t;
  connected_clients : list WebSocket;
  player_id_map : dict WebSocket string;
  last_coin_spawn : R;
  coin_counter : nat;
  game_started : bool;
  start_time : option R;
  stop_event : bool
}.

(** [GameServer.__init__], created at time [now]. *)
Definition GameServer_init (now : R) : GameServer :=
  mkServer [] [] [] [] now 0 false None false.

Definition with_players (s : GameServer) (ps : dict string Player.t) :=
  mkServer ps (coins s) (connected_clients s) (player_id_map s)
           (last_coin_spawn s) (coin_counter s) (game_started s)
           (start_time s) (stop_event s).

Definition with_coins (s : GameServer) (cs : dict string Coin.t) :=
  mkServer (players s) cs (connected_clients s) (player_id_map s)
           (last_coin_spawn s) (coin_counter s) (game_started s)
           (start_time s) (stop_event s).

(** [spawn_coin]; [(x, y)] are the two [random.randint] draws. *)
Definition spawn_coin (xy : R * R) (s : GameServer) : GameServer * string :=
  let coin_id := ("coin_" ++ str (coin_counter s))%string in
  (mkServer (players s)
            (dict_set coin_id (Coin.mk coin_id (fst xy) (snd xy)) (coins s))
            (connected_clients s) (player_id_map s)
            (last_coin_spawn s) (S (coin_counter s)) (game_started s)
            (start_time s) (stop_event s),
   coin_id).

(** *** Movement integration ([update_game_state], lines 89-101)

    Here on real numbers, where nothing overflows and nothing is rounded;
    module [Binary64] below gives the same lines on floats. *)

(** Lines 90-95: the velocity applied to a player with input [(ix, iy)]. *)
Definition velocity (ix iy : R) : option (R * R) :=
  let mag := sqrt (ix ^ 2 + iy ^ 2) in
  if Rlt_dec 0 mag then
    match py_div ix mag, py_div iy mag with
    | Some ux, Some uy => Some (ux * PLAYER_SPEED, uy * PLAYER_SPEED)
    | _, _ => None
    end
  else Some (0, 0).

(** Lines 90-101: one player's step. *)
Definition move_player (p : Player.t) : option Player.t :=
  match velocity (Player.input_x p) (Player.input_y p) with
  | Some (vx, vy) =>
      let new_x := Player.x p + vx * TICK_DELTA in
      let new_y := Player.y p + vy * TICK_DELTA in
      Some (Player.set_pos p
              (py_max PLAYER_RADIUS (py_min (GAME_WIDTH - PLAYER_RADIUS) new_x))
              (py_max PLAYER_RADIUS (py_min (GAME_HEIGHT - PLAYER_RADIUS) new_y)))
  | None => None
  end.

(** The loop of line 89 over [self.players.values()]: the players are
    updated in place, in order; an exception stops the loop. *)
Fixpoint move_players (ps : dict string Player.t)
  : option (dict string Player.t) :=
  match ps with
  | [] => Some []
  | (k, p) :: r =>
      match move_player p with
      | Some p' =>
          match move_players r with
          | Some r' => Some ((k, p') :: r')
          | None => None
          end
      | None => None
      end
  end.

(** *** Collision and scoring ([update_game_state], lines 103-113) *)

(** Line 106. *)
Definition dist (c : Coin.t) (p : Player.t) : R :=
  sqrt ((Coin.x c - Player.x p) ^ 2 + (Coin.y c - Player.y p) ^ 2).

(** Line 107. *)
Definition touches (c : Coin.t) (p : Player.t) : bool :=
  Rltb (dist c p) (PLAYER_RADIUS + COIN_RADIUS).

(** The inner loop of lines 105-110 for one coin: the first player that
    touches the coin has its score incremented and the loop breaks; [None]
    when the loop ends without a [break]. *)
Fixpoint award (c : Coin.t) (ps : dict string Player.t)
  : option (dict string Player.t) :=
  match ps with
  | [] => None
  | (k, p) :: r =>
      if touches c p then Some ((k, Player.incr_score p) :: r)
      else match award c r with
           | Some r' => Some ((k, p) :: r')
           | None => None
           end
  end.

(** The outer loop of lines 104-110 over [self.coins.items()], threading
    the players and [coins_to_remove]. *)
Fixpoint scan (cs : dict string Coin.t) (ps : dict string Player.t)
         (coins_to_remove : list string)
  : dict string Player.t * list string :=
  match cs with
  | [] => (ps, coins_to_remove)
  | (coin_id, coin) :: r =>
      match award coin ps with
      | Some ps' => scan r ps' (coins_to_remove ++ [coin_id])
      | None => scan r ps coins_to_remove
      end
  end.

(** Lines 112-113. *)
Definition remove_coins (coins_to_remove : list string)
           (cs : dict string Coin.t) : dict string Coin.t :=
  fold_left (fun d coin_id => dict_del coin_id d) coins_to_remove cs.

(** Lines 103-113 on the two stores. *)
Definition collect (ps : dict string Player.t) (cs : dict string Coin.t)
  : dict string Player.t * dict string Coin.t :=
  let '(ps', coins_to_remove) := scan cs ps [] in
  (ps', remove_coins coins_to_remove cs).

(** Lines 85-87: the spawn timer. *)
Definition spawn_due (now : R) (xy : R * R) (s : GameServer) : GameServer :=
  if Rlt_dec COIN_SPAWN_INTERVAL (now - last_coin_spawn s) then
    let s' := fst (spawn_coin xy s) in
    mkServer (players s') (coins s') (connected_clients s')
             (player_id_map s') now (coin_counter s') (game_started s')
             (start_time s') (stop_event s')
  else s.

(** [update_game_state]: [now] is [time.time()], [xy] the draws of the
    coin that may be spawned. *)
Definition update_game_state (now : R) (xy : R * R) (s : GameServer)
  : option GameServer :=
  let s1 := spawn_due now xy s in
  match move_players (players s1) with
  | Some moved =>
      let '(ps', cs') := collect moved (coins s1) in
      Some (with_coins (with_players s1 ps') cs')
  | None => None
  end.

(** *** Coroutines and virtual time

    What the properties of the tick loop need from [asyncio]: the shape of a
    coroutine's awaits and the time that passes for the coroutine that awaits
    them.  [await asyncio.sleep(d)] resumes [d] later; [await client.send(m)]
    is taken to cost nothing (the least it can); [await asyncio.gather(...)]
    resumes when the slowest of its coroutines is done;
    [asyncio.create_task(c)] schedules [c] and returns at once. *)

#[warnings="-register-all"] Inductive Coroutine :=
| Return
| Sleep (d : R)
| Send (client : WebSocket) (m : Message)
| Gather (cs : list Coroutine)
| Then (c1 c2 : Coroutine)
| CreateTask (c : Coroutine).

(** Time for which the awaiting coroutine is suspended. *)
Fixpoint elapsed (c : Coroutine) : R :=
  match c with
  | Return => 0
  | Sleep d => d
  | Send _ _ => 0
  | Gather cs => fold_right (fun c m => Rmax (elapsed c) m) 0 cs
  | Then c1 c2 => elapsed c1 + elapsed c2
  | CreateTask _ => 0
  end.

(** The messages a coroutine sends, tasks it creates included. *)
Fixpoint sends (c : Coroutine) : list (WebSocket * Message) :=
  match c with
  | Return | Sleep _ => []
  | Send client m => [(client, m)]
  | Gather cs => flat_map sends cs
  | Then c1 c2 => sends c1 ++ sends c2
  | CreateTask c => sends c
  end.

(** *** Broadcast layer ([broadcast_state], lines 115-139) *)

(** Lines 129-134. *)
Definition delayed_send (message : Message) (client : WebSocket) : Coroutine :=
  Then (Sleep SIMULATION_LATENCY) (Send client message).

Definition broadcast_state (now : R) (s : GameServer) : Coroutine :=
  if negb (game_started s) then Return
  else
    let message :=
      MStateUpdate now (map Player_to_dict (values (players s)))
                       (map Coin_to_dict (values (coins s))) in
    match connected_clients s with
    | [] => Return
    | _ :: _ => Gather (map (delayed_send message) (connected_clients s))
    end.

(** *** Session controller ([handle_client], [process_delayed_message]) *)

Definition init_msg (player_id : string) : Message :=
  MInit player_id GAME_WIDTH GAME_HEIGHT PLAYER_RADIUS COIN_RADIUS.

(** Lines 142-179 of [handle_client], up to the message loop, when none of
    its sends raises.  [x], [y] and [color] are the random draws for the
    player, [now] is [time.time()] and [draws i] the position drawn for the
    [i]-th coin of the initial batch.  The result carries the handler's
    local [player_id] and the messages sent, in order. *)
Definition handle_client_connect
           (websocket : WebSocket) (x y : R) (color : RGB)
           (now : R) (draws : nat -> R * R) (s : GameServer)
  : GameServer * string * list (WebSocket * Message) :=
  let player_id := ("player_" ++ str (List.length (players s)))%string in
  let player := Player.new player_id x y color in
  let s1 :=
    mkServer (dict_set player_id player (players s)) (coins s)
             (set_add websocket (connected_clients s))
             (dict_set websocket player_id (player_id_map s))
             (last_coin_spawn s) (coin_counter s) (game_started s)
             (start_time s) (stop_event s) in
  let sent := [(websocket, init_msg player_id)] in
  if (List.length (players s1) =? 2)%nat && negb (game_started s1) then
    let s2 :=
      mkServer (players s1) (coins s1) (connected_clients s1)
               (player_id_map s1) (last_coin_spawn s1) (coin_counter s1)
               true (Some now) (stop_event s1) in
    let s3 := fold_left (fun st i => fst (spawn_coin (draws i) st))
                        (seq 0 5) s2 in
    (s3, player_id,
     sent ++ map (fun c => (c, MGameStart)) (connected_clients s3))
  else if game_started s1 then
    (s1, player_id, sent ++ [(websocket, MGameStart)])
  else (s1, player_id, sent).

(** Lines 142-162 of [handle_client] when the [await websocket.send] of
    line 162 raises, as it does with [ConnectionClosed] once the peer has
    gone: lines 150-152 have stored the player, the socket and the map
    entry; the exception leaves the handler before the test of line 165; and
    the [finally] block of lines 187-196 belongs to the [try] of line 181,
    which was not entered, so that nothing is removed. *)
Definition handle_client_init_raises
           (websocket : WebSocket) (x y : R) (color : RGB) (s : GameServer)
  : GameServer :=
  let player_id := ("player_" ++ str (List.length (players s)))%string in
  let player := Player.new player_id x y color in
  mkServer (dict_set player_id player (players s)) (coins s)
           (set_add websocket (connected_clients s))
           (dict_set websocket player_id (player_id_map s))
           (last_coin_spawn s) (coin_counter s) (game_started s)
           (start_time s) (stop_event s).

(** Lines 182-183: every inbound message becomes a task of its own. *)
Definition handle_client_message (process : Coroutine) : Coroutine :=
  CreateTask (Then (Sleep SIMULATION_LATENCY) process).

(** Lines 187-196, the [finally] block; [player_id] is the handler's local. *)
Definition handle_client_finally
           (websocket : WebSocket) (player_id : string) (s : GameServer)
  : GameServer :=
  let clients := set_discard websocket (connected_clients s) in
  let ps := if dict_mem player_id (players s)
            then dict_del player_id (players s) else players s in
  let map' := dict_del websocket (player_id_map s) in
  let stop := if game_started s && (List.length ps =? 0)%nat
              then true else stop_event s in
  mkServer ps (coins s) clients map' (last_coin_spawn s) (coin_counter s)
           (game_started s) (start_time s) stop.

(** Lines 203-207 of [process_delayed_message], once the delay is over, for
    a message of type [input]. *)
Definition process_delayed_message
           (websocket : WebSocket) (input_x input_y : R) (s : GameServer)
  : GameServer :=
  match dict_get websocket (player_id_map s) with
  | Some pid =>
      match dict_get pid (players s) with
      | Some p =>
          with_players s
            (dict_set pid (Player.set_input p input_x input_y) (players s))
      | None => s
      end
  | None => s
  end.

(** *** The tick loop ([game_loop], lines 211-216) *)

(** The awaits of one iteration of the [while] loop, in a state [s] taken
    after [update_game_state], which suspends nowhere. *)
Definition game_loop_iteration (now : R) (s : GameServer) : Coroutine :=
  Then (if game_started s then Then Return (broadcast_state now s)
        else Return)
       (Sleep TICK_DELTA).

(** *** The server as a transition system *)

Inductive Event :=
| Connect (websocket : WebSocket) (x y : R) (color : RGB)
          (now : R) (draws : nat -> R * R)
| Disconnect (websocket : WebSocket)
| Input (websocket : WebSocket) (input_x input_y : R)
| Tick (now : R) (xy : R * R).

(** One event, with the messages it sends.  A connect is a handshake
    whose sends succeed; [handle_client_init_raises] is the other case.  The
    handler of a live connection holds in its local [player_id] the entry
    that [player_id_map] has for its socket; a closed or unknown socket has
    no handler.  A tick is an iteration of [game_loop]. *)
Definition step (e : Event) (s : GameServer)
  : option (GameServer * list (WebSocket * Message)) :=
  match e with
  | Connect websocket x y color now draws =>
      let '(s', _, sent) := handle_client_connect websocket x y color now draws s in
      Some (s', sent)
  | Disconnect websocket =>
      match dict_get websocket (player_id_map s) with
      | Some player_id => Some (handle_client_finally websocket player_id s, [])
      | None => Some (s, [])
      end
  | Input websocket input_x input_y =>
      Some (process_delayed_message websocket input_x input_y s, [])
  | Tick now xy =>
      if stop_event s then Some (s, [])
      else if game_started s then
        match update_game_state now xy s with
        | Some s' => Some (s', sends (game_loop_iteration now s'))
        | None => None
        end
      else Some (s, [])
  end.

Fixpoint run (es : list Event) (s : GameServer) : option GameServer :=
  match es with
  | [] => Some s
  | e :: r =>
      match step e s with
      | Some (s', _) => run r s'
      | None => None
      end
  end.

Inductive reachable : GameServer -> Prop :=
| reachable_init : forall now, reachable (GameServer_init now)
| reachable_step : forall s e s' sent,
    reachable s -> step e s = Some (s', sent) -> reachable s'.

End Server.

(** ** The movement step in binary64 ([update_game_state], lines 89-101)

    The same lines as [Server.velocity], [Server.move_player] and
    [Server.move_players], on binary64 numbers with rounding to nearest,
    ties to even.  The integer constants of the configuration, and an input
    that arrives as an integer, stand for the floats of the same value.
    [x ** 2] is the rounded product and raises [OverflowError] when the
    square of a finite number is infinite; [s ** 0.5] is the rounded square
    root; [/] raises [ZeroDivisionError] on a zero divisor; the two-argument
    [min] and [max] keep their first argument unless the second compares
    below, respectively above, it, so that a NaN is never chosen over a
    number that precedes it. *)

Module Binary64.
Import Stdlib.Floats.Floats.
Local Open Scope float_scope.

Definition GAME_WIDTH : float := 500.
Definition GAME_HEIGHT : float := 375.
Definition PLAYER_RADIUS : float := 25.
Definition PLAYER_SPEED : float := 300.
Definition TICK_RATE : float := 120.
Definition TICK_DELTA : float := 1 / TICK_RATE.

Module Player.
Record t := mk {
  id : string;
  x : float;
  y : float;
  color : RGB;
  score : Z;
  input_x : float;
  input_y : float
}.

Definition set_pos (p : t) (x y : float) : t :=
  mk (id p) x y (color p) (score p) (input_x p) (input_y p).
End Player.

Definition is_finite (x : float) : bool := negb (is_nan x || is_infinity x).

(** [x ** 2]. *)
Definition py_pow2 (x : float) : option float :=
  let r := x * x in
  if is_finite x && is_infinity r then None else Some r.

(** [a / b]. *)
Definition py_div (a b : float) : option float :=
  if b =? 0 then None else Some (a / b).

(** [min(a, b)] and [max(a, b)]. *)
Definition py_min (a b : float) : float := if b <? a then b else a.
Definition py_max (a b : float) : float := if a <? b then b else a.

(** Lines 90-95. *)
Definition velocity (input_x input_y : float) : option (float * float) :=
  match py_pow2 input_x, py_pow2 input_y with
  | Some sx, Some sy =>
      let mag := sqrt (sx + sy) in
      if 0 <? mag then
        match py_div input_x mag, py_div input_y mag with
        | Some ux, Some uy => Some (ux * PLAYER_SPEED, uy * PLAYER_SPEED)
        | _, _ => None
        end
      else Some (0, 0)
  | _, _ => None
  end.

(** Lines 90-101. *)
Definition move_player (p : Player.t) : option Player.t :=
  match velocity (Player.input_x p) (Player.input_y p) with
  | Some (vx, vy) =>
      let new_x := Player.x p + vx * TICK_DELTA in
      let new_y := Player.y p + vy * TICK_DELTA in
      Some (Player.set_pos p
              (py_max PLAYER_RADIUS (py_min (GAME_WIDTH - PLAYER_RADIUS) new_x))
              (py_max PLAYER_RADIUS (py_min (GAME_HEIGHT - PLAYER_RADIUS) new_y)))
  | None => None
  end.

(** The loop of line 89. *)
Fixpoint move_players (ps : dict string Player.t)
  : option (dict string Player.t) :=
  match ps with
  | [] => Some []
  | (k, p) :: r =>
      match move_player p with
      | Some p' =>
          match move_players r with
          | Some r' => Some ((k, p') :: r')
          | None => None
          end
      | None => None
      end
  end.

(** The float of a Python [int] below 2^63 in absolute value. *)
Definition of_int (z : Z) : float :=
  match z with
  | Z0 => 0
  | Zpos q => of_uint63 (Uint63.of_Z (Zpos q))
  | Zneg q => - of_uint63 (Uint63.of_Z (Zpos q))
  end.

(** The real number that a finite float is. *)
Definition to_R (x : float) : option R :=
  match Prim2SF x with
  | S754_zero _ => Some 0%R
  | S754_finite s m e =>
      let v := (IZR (Zpos m)
                * (if (e <? 0)%Z then / IZR (2 ^ (- e)) else IZR (2 ^ e)))%R in
      Some (if s then (- v)%R else v)
  | _ => None
  end.

End Binary64.

(** ** The client ([client.py]) *)

Module Client.

Definition INTERPOLATION_OFFSET : R := 35 / 100.

(** A buffered [state_update] message. *)
Module Snapshot.
Record t := mk {
  timestamp : R;
  players : list PlayerView.t;
  coins : list CoinView.t
}.
End Snapshot.

(** The value handed to the renderer. *)
Module RenderState.
Record t := mk {
  players : dict string PlayerView.t;
  coins : list CoinView.t
}.
End RenderState.

Record GameClient := mkClient {
  player_id : option string;
  game_width : R;
  game_height : R;
  player_radius : R;
  coin_radius : R;
  game_started : bool;
  state_buffer : list Snapshot.t;
  current_display_state : RenderState.t
}.

(** [GameClient.__init__] *)
Definition GameClient_init : GameClient :=
  mkClient None 500 375 25 20 false [] (RenderState.mk [] []).

(** The body of the loop of [receive_messages] (lines 47-69) for one
    message. *)
Definition receive_message (data : Message) (c : GameClient) : GameClient :=
  match data with
  | MInit pid w h pr cr =>
      mkClient (Some pid) w h pr cr (game_started c) (state_buffer c)
               (current_display_state c)
  | MGameStart =>
      mkClient (player_id c) (game_width c) (game_height c) (player_radius c)
               (coin_radius c) true (state_buffer c) (current_display_state c)
  | MStateUpdate t ps cs =>
      let appended := state_buffer c ++ [Snapshot.mk t ps cs] in
      let buffer := if (40 <? List.length appended)%nat
                    then tl appended else appended in
      mkClient (player_id c) (game_width c) (game_height c) (player_radius c)
               (coin_radius c) (game_started c) buffer
               (current_display_state c)
  end.

Definition receive_messages (ms : list Message) (c : GameClient)
  : GameClient :=
  fold_left (fun c m => receive_message m c) ms c.

(** [{"players": {p['id']: p for p in state['players']},
      "coins": state['coins']}] *)
Definition as_render_state (state : Snapshot.t) : RenderState.t :=
  RenderState.mk (dict_of PlayerView.id (Snapshot.players state))
                 (Snapshot.coins state).

(** The loop of lines 91-96, about to visit index [n - 1]: the newest
    snapshot not after [render_time], with its successor if it has one. *)
Fixpoint find_bracket (render_time : R) (buffer : list Snapshot.t) (n : nat)
  : option (Snapshot.t * option Snapshot.t) :=
  match n with
  | O => None
  | S i =>
      match nth_error buffer i with
      | Some st =>
          if Rleb (Snapshot.timestamp st) render_time then
            Some (st, if (i + 1 <? List.length buffer)%nat
                      then nth_error buffer (i + 1) else None)
          else find_bracket render_time buffer i
      | None => None
      end
  end.

(** Lines 119-127. *)
Definition lerp_player (alpha : R) (pid : string)
           (prev_p_data next_p_data : PlayerView.t) : PlayerView.t :=
  let x := PlayerView.x prev_p_data
           + (PlayerView.x next_p_data - PlayerView.x prev_p_data) * alpha in
  let y := PlayerView.y prev_p_data
           + (PlayerView.y next_p_data - PlayerView.y prev_p_data) * alpha in
  PlayerView.mk pid x y (PlayerView.score next_p_data)
                (PlayerView.color next_p_data).

(** Lines 111-129. *)
Definition interpolate_players (alpha : R)
           (prev_players next_players : dict string PlayerView.t)
  : dict string PlayerView.t :=
  fold_left
    (fun interpolated_players '(pid, next_p_data) =>
       match dict_get pid prev_players with
       | Some prev_p_data =>
           dict_set pid (lerp_player alpha pid prev_p_data next_p_data)
                    interpolated_players
       | None => dict_set pid next_p_data interpolated_players
       end)
    next_players [].

(** Lines 108-109. *)
Definition interpolation_alpha (render_time : R) (prev_state next_state : Snapshot.t)
  : option R :=
  let time_diff := Snapshot.timestamp next_state - Snapshot.timestamp prev_state in
  if Reqb time_diff 0 then Some 0
  else py_div (render_time - Snapshot.timestamp prev_state) time_diff.

(** [get_interpolated_state], from line 81 on; [render_time] is
    [time.time() - INTERPOLATION_OFFSET]. *)
Definition get_interpolated_state_at (render_time : R) (c : GameClient)
  : option RenderState.t :=
  let buffer := state_buffer c in
  if (List.length buffer <? 2)%nat then
    match rev buffer with
    | latest :: _ => Some (as_render_state latest)
    | [] => Some (current_display_state c)
    end
  else
    match find_bracket render_time buffer (List.length buffer) with
    | None => option_map as_render_state (nth_error buffer 0)
    | Some (prev_state, None) => Some (as_render_state prev_state)
    | Some (prev_state, Some next_state) =>
        match interpolation_alpha render_time prev_state next_state with
        | Some alpha =>
            let prev_players := dict_of PlayerView.id (Snapshot.players prev_state) in
            let next_players := dict_of PlayerView.id (Snapshot.players next_state) in
            Some (RenderState.mk
                    (interpolate_players alpha prev_players next_players)
                    (Snapshot.coins next_state))
        | None => None
        end
    end.

Definition get_interpolated_state (now : R) (c : GameClient)
  : option RenderState.t :=
  get_interpolated_state_at (now - INTERPOLATION_OFFSET) c.

End Client.

(** ** Further parts of the program *)

#[export] Instance Z_hashable : Hashable Z :=
  {| key_eqb := Z.eqb; key_eqb_spec := Z.eqb_spec |}.

(** The input side of the client: [send_input] and [handle_events]
    ([client.py], lines 133-171).  [keys_pressed] is a set of key codes;
    the codes [pygame.K_LEFT], ... belong to pygame and are parameters
    here. *)
Module Input.

Section KeyCodes.
Variables K_LEFT K_RIGHT K_UP K_DOWN K_a K_d K_w K_s : Z.

(** Lines 136-145: the vector read off the keys held. *)
Definition input_vector (keys_pressed : list Z) : Z * Z :=
  let input_x := 0%Z in
  let input_y := 0%Z in
  let input_x :=
    if set_mem K_LEFT keys_pressed || set_mem K_a keys_pressed
    then (input_x - 1)%Z else input_x in
  let input_x :=
    if set_mem K_RIGHT keys_pressed || set_mem K_d keys_pressed
    then (input_x + 1)%Z else input_x in
  let input_y :=
    if set_mem K_UP keys_pressed || set_mem K_w keys_pressed
    then (input_y - 1)%Z else input_y in
  let input_y :=
    if set_mem K_DOWN keys_pressed || set_mem K_s keys_pressed
    then (input_y + 1)%Z else input_y in
  (input_x, input_y).

(** One iteration of the loop of [send_input]: the [input] message sent,
    if any.  [websocket] tells whether [self.websocket] is set. *)
Definition send_input (websocket game_started : bool) (keys_pressed : list Z)
  : option (Z * Z) :=
  if websocket && game_started then Some (input_vector keys_pressed) else None.

End KeyCodes.

Inductive PygameEvent :=
| QUIT
| KEYDOWN (key : Z)
| KEYUP (key : Z)
| OtherEvent.

(** The body of the loop of [handle_events] on [(keys_pressed, running)]. *)
Definition handle_event (event : PygameEvent) (st : list Z * bool)
  : list Z * bool :=
  match event with
  | QUIT => (fst st, false)
  | KEYDOWN key => (set_add key (fst st), snd st)
  | KEYUP key => (set_discard key (fst st), snd st)
  | OtherEvent => st
  end.

Definition handle_events (events : list PygameEvent) (st : list Z * bool)
  : list Z * bool :=
  fold_left (fun st event => handle_event event st) events st.

End Input.

(** ** Vocabulary of the statements *)

Section Vocabulary.
Import Server.

(** A player stands inside the playfield, a radius away from each wall. *)
Definition in_bounds (p : Player.t) : Prop :=
  PLAYER_RADIUS <= Player.x p <= GAME_WIDTH - PLAYER_RADIUS /\
  PLAYER_RADIUS <= Player.y p <= GAME_HEIGHT - PLAYER_RADIUS.

(** Position, in iteration order, of the first player that touches a coin. *)
Fixpoint winner (c : Coin.t) (ps : dict string Player.t) : option nat :=
  match ps with
  | [] => None
  | (_, p) :: r => if touches c p then Some O else option_map S (winner c r)
  end.

(** The coin of an entry goes to the player at position [i]. *)
Definition won_by (i : nat) (ps : dict string Player.t)
           (kc : string * Coin.t) : bool :=
  match winner (snd kc) ps with
  | Some j => (i =? j)%nat
  | None => false
  end.

(** The coin of an entry goes to some player. *)
Definition claimed (ps : dict string Player.t) (kc : string * Coin.t) : bool :=
  match winner (snd kc) ps with Some _ => true | None => false end.

Definition coins_won (i : nat) (ps : dict string Player.t)
           (cs : dict string Coin.t) : nat :=
  List.length (filter (won_by i ps) cs).

Definition add_score (p : Player.t) (n : nat) : Player.t :=
  Player.mk (Player.id p) (Player.x p) (Player.y p) (Player.color p)
            (Player.score p + Z.of_nat n)%Z
            (Player.input_x p) (Player.input_y p).

Definition total_score (ps : dict string Player.t) : Z :=
  fold_right Z.add 0%Z (map (fun kp => Player.score (snd kp)) ps).

(** The public record of a player, as far as scoring goes. *)
Definition score_entry (kp : string * Player.t) : string * Z :=
  (fst kp, Player.score (snd kp)).

(** Fixed draws for the traces below. *)
Definition draws0 (i : nat) : R * R := (INR (50 + 10 * i), 100).

Definition red : RGB := (255, 50, 50)%Z.
Definition green : RGB := (50, 255, 50)%Z.
Definition blue : RGB := (50, 50, 255)%Z.

(** Two clients connect. *)
Definition two_connects : list Event :=
  [Connect 0%nat 100 100 red 10 draws0; Connect 1%nat 200 200 green 11 draws0].

(** Two clients connect and the first one leaves. *)
Definition first_leaves : list Event :=
  two_connects ++ [Disconnect 0%nat].

(** The coins of the initial batch, as [spawn_coin] names and places them. *)
Definition initial_batch (draws : nat -> R * R) : dict string Coin.t :=
  map (fun i => let coin_id := ("coin_" ++ str i)%string in
                (coin_id, Coin.mk coin_id (fst (draws i)) (snd (draws i))))
      (seq 0 5).

(** The server once a first client has connected. *)
Definition one_connected : GameServer :=
  fst (fst (handle_client_connect 0%nat 100 100 red 10 draws0
                                  (GameServer_init 0))).

(** All scores of a store are natural numbers. *)
Definition scores_nonneg (ps : dict string Player.t) : Prop :=
  Forall (fun kp => (0 <= Player.score (snd kp))%Z) ps.

(** The server once two clients have connected. *)
Definition two_connected : GameServer :=
  match run two_connects (GameServer_init 0) with
  | Some s => s
  | None => GameServer_init 0
  end.

(** The length of a vector. *)
Definition magnitude (vx vy : R) : R := sqrt (vx ^ 2 + vy ^ 2).

(** The input vectors that [send_input] can send. *)
Definition client_inputs : list (Z * Z) :=
  [(-1, -1); (-1, 0); (-1, 1); (0, -1); (0, 0); (0, 1);
   (1, -1); (1, 0); (1, 1)]%Z.

Definition is_connect (e : Event) : Prop :=
  match e with
  | Connect _ _ _ _ _ _ => True
  | _ => False
  end.

(** The session waits although the store holds two players or more, named
    in the order in which they came. *)
Definition stuck_waiting (s : GameServer) : Prop :=
  game_started s = false /\ coins s = [] /\
  exists n, (2 <= n)%nat /\
    keys (players s)
    = map (fun i => ("player_" ++ str i)%string) (seq 0 n).

(** A first client has connected; a second one is gone by the time its
    [init] message is sent. *)
Definition second_handshake_fails : GameServer :=
  handle_client_init_raises 1%nat 200 200 green one_connected.

(** Two clients connect, all coins of the initial batch are drawn where the
    second player stands, and a tick follows. *)
Definition draws_near (i : nat) : R * R := (200, 200).

Definition scoring_trace : list Event :=
  [Connect 0%nat 100 100 red 1 draws_near;
   Connect 1%nat 200 200 green 2 draws_near;
   Tick 3 (400, 300)].

(** Then the first client leaves and a third one arrives. *)
Definition third_arrives : list Event :=
  [Disconnect 0%nat; Connect 2%nat 300 300 blue 4 draws_near].

End Vocabulary.

Section MovementVocabulary.
Import Stdlib.Floats.Floats.

(** A player of the binary64 store stands inside the playfield, by the
    comparisons of floats. *)
Definition float_in_bounds (p : Binary64.Player.t) : bool :=
  (25 <=? Binary64.Player.x p)%float && (Binary64.Player.x p <=? 475)%float &&
  (25 <=? Binary64.Player.y p)%float && (Binary64.Player.y p <=? 350)%float.

(** The floats that the JSON numbers [1e-200] and [1e200] denote. *)
Definition tiny_input : float := 0x1.87e92154ef7acp-665%float.
Definition huge_input : float := 0x1.4e718d7d7625ap+664%float.

(** A player of the binary64 store, in the middle of the field. *)
Definition float_player (input_x input_y : float) : Binary64.Player.t :=
  Binary64.Player.mk "player_0" 100%float 100%float red 0%Z input_x input_y.

End MovementVocabulary.

Section ClientVocabulary.
Import Client.

(** A snapshot is newer than the render time. *)
Definition late (render_time : R) (st : Snapshot.t) : Prop :=
  render_time < Snapshot.timestamp st.

(** The interpolation factor between two snapshots. *)
Definition alpha_of (render_time : R) (prev_state next_state : Snapshot.t) : R :=
  if Req_dec_T (Snapshot.timestamp next_state - Snapshot.timestamp prev_state) 0
  then 0
  else (render_time - Snapshot.timestamp prev_state)
       / (Snapshot.timestamp next_state - Snapshot.timestamp prev_state).

Definition empty_snapshot (t : R) : Snapshot.t := Snapshot.mk t [] [].

(** A client whose buffer is full. *)
Definition full_client : GameClient :=
  mkClient None 500 375 25 20 true (repeat (empty_snapshot 0) 40)
           (RenderState.mk [] []).

Definition white : RGB := (255, 255, 255)%Z.

(** The two snapshots of the linearity example: a player at (0, 0) at time
    0 and at (10, 0) at time 1, joined at time 1 by a second player. *)
Definition example_prev : Snapshot.t :=
  Snapshot.mk 0 [PlayerView.mk "player_0" 0 0 0%Z white] [].
Definition example_next : Snapshot.t :=
  Snapshot.mk 1 [PlayerView.mk "player_0" 10 0 1%Z white;
                 PlayerView.mk "player_1" 40 40 0%Z white]
              [CoinView.mk "coin_0" 100 100].
Definition example_client : GameClient :=
  mkClient None 500 375 25 20 true [example_prev; example_next]
           (RenderState.mk [] []).

End ClientVocabulary.

(** ** Vocabulary of the further properties *)

Section FurtherVocabulary.
Import Server Client.

(** The names [spawn_coin] has given so far. *)
Definition coin_name (counter : nat) (k : string) : Prop :=
  exists n, (n < counter)%nat /\ k = ("coin_" ++ str n)%string.

(** The key of an entry is the id of its record. *)
Definition player_keyed (kp : string * Player.t) : Prop :=
  Player.id (snd kp) = fst kp.
Definition coin_keyed (kc : string * Coin.t) : Prop :=
  Coin.id (snd kc) = fst kc.

(** What a simulation step leaves alone in a player. *)
Definition identity_entry (kp : string * Player.t)
  : string * string * RGB * R * R :=
  (fst kp, Player.id (snd kp), Player.color (snd kp),
   Player.input_x (snd kp), Player.input_y (snd kp)).

(** The draws of a connect are in the range of its [random.uniform]. *)
Definition connect_in_range (e : Event) : Prop :=
  match e with
  | Connect _ x y _ _ _ =>
      PLAYER_RADIUS <= x <= GAME_WIDTH - PLAYER_RADIUS /\
      PLAYER_RADIUS <= y <= GAME_HEIGHT - PLAYER_RADIUS
  | _ => True
  end.

(** The snapshot that [broadcast_state] builds. *)
Definition state_update (now : R) (s : GameServer) : Message :=
  MStateUpdate now (map Player_to_dict (values (players s)))
                   (map Coin_to_dict (values (coins s))).

(** The messages addressed to one socket. *)
Definition inbox (websocket : WebSocket) (sent : list (WebSocket * Message))
  : list Message :=
  map snd (filter (fun cm => Nat.eqb (fst cm) websocket) sent).

(** The snapshots of a message stream, in arrival order. *)
Definition snapshots_of (ms : list Message) : list Snapshot.t :=
  flat_map (fun m => match m with
                     | MStateUpdate t ps cs => [Snapshot.mk t ps cs]
                     | _ => []
                     end) ms.

(** The last [n] elements of a list. *)
Definition lastn {A} (n : nat) (l : list A) : list A :=
  skipn (List.length l - n) l.

(** A rendered player stands inside the playfield. *)
Definition view_in_bounds (p : PlayerView.t) : Prop :=
  PLAYER_RADIUS <= PlayerView.x p <= GAME_WIDTH - PLAYER_RADIUS /\
  PLAYER_RADIUS <= PlayerView.y p <= GAME_HEIGHT - PLAYER_RADIUS.

(** Whether a key is held after a run of events, given whether it was
    held before: its last press or release decides. *)
Definition held_after (key : Z) (events : list Input.PygameEvent) (held : bool)
  : bool :=
  fold_left (fun b event =>
               match event with
               | Input.KEYDOWN k => if Z.eqb key k then true else b
               | Input.KEYUP k => if Z.eqb key k then false else b
               | _ => b
               end) events held.

(** The three stores of the server are well formed. *)
Definition players_wf (s : GameServer) : Prop :=
  NoDup (keys (players s)) /\ Forall player_keyed (players s).

Definition coins_wf (s : GameServer) : Prop :=
  NoDup (keys (coins s)) /\ Forall coin_keyed (coins s) /\
  Forall (coin_name (coin_counter s)) (keys (coins s)).

Definition clients_wf (s : GameServer) : Prop :=
  keys (player_id_map s) = connected_clients s /\
  NoDup (connected_clients s).

(** What the application of an input leaves alone in a player. *)
Definition body_entry (kp : string * Player.t)
  : string * string * R * R * RGB * Z :=
  (fst kp, Player.id (snd kp), Player.x (snd kp), Player.y (snd kp),
   Player.color (snd kp), Player.score (snd kp)).

End FurtherVocabulary.

(** * Properties *)

(** ** Dictionaries *)

Section DictFacts.
Context {K V : Type} `{Hashable K}.
Implicit Types (d : dict K V) (k : K) (v : V).

Lemma key_eqb_refl k : key_eqb k k = true.
Proof. destruct (key_eqb_spec k k); congruence. Qed.

Lemma key_eqb_neq k k' : k <> k' -> key_eqb k k' = false.
Proof. intro; destruct (key_eqb_spec k k'); congruence. Qed.

Lemma dict_get_None d k : dict_get k d = None <-> ~ In k (keys d).
Proof.
  induction d as [|[k' v'] r IH]; simpl.
  - tauto.
  - destruct (key_eqb_spec k k') as [->|Hne].
    + split; [discriminate | intros Hn; exfalso; auto].
    + rewrite IH. split; [intros Hn [E|Hin]; congruence | tauto].
Qed.

Lemma dict_get_set_eq d k v : dict_get k (dict_set k v d) = Some v.
Proof.
  induction d as [|[k' v'] r IH]; simpl.
  - now rewrite key_eqb_refl.
  - destruct (key_eqb k k') eqn:E; simpl.
    + now rewrite key_eqb_refl.
    + now rewrite E.
Qed.

Lemma dict_get_set_neq d k k' v :
  k' <> k -> dict_get k' (dict_set k v d) = dict_get k' d.
Proof.
  intros Hne. induction d as [|[k0 v0] r IH]; simpl.
  - now rewrite key_eqb_neq.
  - destruct (key_eqb_spec k k0) as [->|Hk]; simpl.
    + now rewrite key_eqb_neq.
    + now rewrite IH.
Qed.

Lemma dict_set_fresh d k v : ~ In k (keys d) -> dict_set k v d = d ++ [(k, v)].
Proof.
  induction d as [|[k0 v0] r IH]; simpl; [reflexivity|].
  intros Hn. rewrite key_eqb_neq by (intros ->; tauto).
  rewrite IH by tauto. reflexivity.
Qed.

Lemma keys_dict_set_incl d k v k' :
  In k' (keys (dict_set k v d)) <-> k' = k \/ In k' (keys d).
Proof.
  induction d as [|[k0 v0] r IH]; simpl.
  - intuition.
  - destruct (key_eqb_spec k k0) as [->|Hk]; simpl.
    + intuition.
    + rewrite IH. intuition.
Qed.

Lemma NoDup_dict_set d k v : NoDup (keys d) -> NoDup (keys (dict_set k v d)).
Proof.
  induction d as [|[k0 v0] r IH]; simpl; intros Hnd.
  - constructor; [tauto | constructor].
  - inversion Hnd as [|? ? Hn Hr]; subst.
    destruct (key_eqb_spec k k0) as [->|Hk]; simpl.
    + now constructor.
    + constructor; [|now apply IH].
      fold (keys (dict_set k v r)). rewrite keys_dict_set_incl.
      intros [E|Hin]; [congruence | exact (Hn Hin)].
Qed.

Lemma keys_dict_del_incl d k k' : In k' (keys (dict_del k d)) -> In k' (keys d).
Proof.
  induction d as [|[k0 v0] r IH]; simpl; [tauto|].
  destruct (key_eqb k k0); simpl; intuition.
Qed.

Lemma NoDup_dict_del d k : NoDup (keys d) -> NoDup (keys (dict_del k d)).
Proof.
  induction d as [|[k0 v0] r IH]; simpl; intros Hnd; [constructor|].
  inversion Hnd as [|? ? Hn Hr]; subst.
  destruct (key_eqb k k0); simpl; [assumption|].
  constructor; [|now apply IH].
  intros Hin. apply Hn. eapply keys_dict_del_incl; eassumption.
Qed.

Lemma dict_get_In d k v : dict_get k d = Some v -> In (k, v) d.
Proof.
  induction d as [|[k0 v0] r IH]; simpl; [discriminate|].
  destruct (key_eqb_spec k k0) as [->|Hk].
  - intros [= ->]. now left.
  - intros Hg. right. now apply IH.
Qed.

Lemma In_dict_get d k v : NoDup (keys d) -> In (k, v) d -> dict_get k d = Some v.
Proof.
  induction d as [|[k0 v0] r IH]; simpl; [tauto|].
  intros Hnd [E|Hin].
  - inversion E; subst. now rewrite key_eqb_refl.
  - inversion Hnd as [|? ? Hn Hr]; subst.
    rewrite key_eqb_neq; [now apply IH|].
    intros ->. apply Hn. change (In k0 (map fst r)).
    apply in_map_iff. now exists (k0, v).
Qed.

(** A comprehension over values with distinct keys lists them in order. *)
Lemma dict_of_NoDup (key : V -> K) (l : list V) :
  NoDup (map key l) -> dict_of key l = map (fun v => (key v, v)) l.
Proof.
  unfold dict_of. intros Hnd.
  enough (G : forall acc,
             (forall v, In v l -> ~ In (key v) (keys acc)) ->
             fold_left (fun d v => dict_set (key v) v d) l acc
             = acc ++ map (fun v => (key v, v)) l).
  { apply (G []). simpl. tauto. }
  induction l as [|a l IH]; simpl; intros acc Hfresh.
  - now rewrite app_nil_r.
  - inversion Hnd as [|? ? Hn Hr]; subst.
    rewrite IH; [| assumption |].
    + rewrite dict_set_fresh by (apply Hfresh; now left).
      now rewrite <- app_assoc.
    + intros v Hv. rewrite keys_dict_set_incl.
      intros [E|Hin].
      * apply Hn. rewrite <- E. now apply in_map.
      * apply (Hfresh v); [now right | assumption].
Qed.

End DictFacts.

(** ** Movement in binary64 *)

Section BinaryMovement.
Import Stdlib.Floats.Floats.

Lemma float_ltb_leb (a b : float) :
  (a <? b)%float = true -> (a <=? b)%float = true.
Proof.
  rewrite ltb_spec, leb_spec. unfold SFltb, SFleb.
  destruct (SFcompare (Prim2SF a) (Prim2SF b)) as [[]|]; congruence.
Qed.

(** Whatever the float clamped, NaN and the infinities included, the result
    compares inside the interval. *)
Lemma float_clamp_bounds (lo hi v : float) :
  (lo <=? hi)%float = true -> (lo <=? lo)%float = true ->
  (hi <=? hi)%float = true ->
  (lo <=? Binary64.py_max lo (Binary64.py_min hi v))%float = true /\
  (Binary64.py_max lo (Binary64.py_min hi v) <=? hi)%float = true.
Proof.
  intros Hlh Hl Hh. unfold Binary64.py_max, Binary64.py_min.
  destruct (v <? hi)%float eqn:Ev.
  - destruct (lo <? v)%float eqn:El; auto using float_ltb_leb.
  - destruct (lo <? hi)%float; auto.
Qed.

Lemma move_player_float_in_bounds p p' :
  Binary64.move_player p = Some p' -> float_in_bounds p' = true.
Proof.
  unfold Binary64.move_player.
  destruct (Binary64.velocity _ _) as [[vx vy]|]; [|discriminate].
  intros [= <-]. unfold float_in_bounds.
  cbn [Binary64.Player.set_pos Binary64.Player.x Binary64.Player.y].
  set (nx := (Binary64.Player.x p + vx * Binary64.TICK_DELTA)%float).
  set (ny := (Binary64.Player.y p + vy * Binary64.TICK_DELTA)%float).
  change (Binary64.GAME_WIDTH - Binary64.PLAYER_RADIUS)%float with 475%float.
  change (Binary64.GAME_HEIGHT - Binary64.PLAYER_RADIUS)%float with 350%float.
  change Binary64.PLAYER_RADIUS with 25%float.
  destruct (@float_clamp_bounds 25%float 475%float nx) as [-> ->];
    try reflexivity.
  destruct (@float_clamp_bounds 25%float 350%float ny) as [-> ->];
    reflexivity.
Qed.

Lemma move_players_float_in_bounds ps : forall ps',
  Binary64.move_players ps = Some ps' ->
  forall p', In p' (values ps') -> float_in_bounds p' = true.
Proof.
  induction ps as [|[k p] r IH]; simpl; intros ps' Hm p' Hin.
  - injection Hm as <-. destruct Hin.
  - destruct (Binary64.move_player p) as [p1|] eqn:Hp; [|discriminate].
    destruct (Binary64.move_players r) as [r'|]; [|discriminate].
    injection Hm as <-. destruct Hin as [<-|Hin].
    + exact (@move_player_float_in_bounds _ _ Hp).
    + exact (IH r' eq_refl p' Hin).
Qed.

Lemma sqrt_between lo hi a :
  0 <= lo -> 0 <= hi -> lo ^ 2 <= a <= hi ^ 2 -> lo <= R_sqrt.sqrt a <= hi.
Proof.
  intros Hlo Hhi [Hl Hh].
  split.
  - rewrite <- (sqrt_pow2 lo Hlo). now apply sqrt_le_1_alt.
  - rewrite <- (sqrt_pow2 hi Hhi). now apply sqrt_le_1_alt.
Qed.

(** The velocity of each of the nine vectors of the client. *)
Lemma client_velocity ix iy :
  In (ix, iy) client_inputs ->
  exists vx vy rx ry,
    Binary64.velocity (Binary64.of_int ix) (Binary64.of_int iy)
    = Some (vx, vy) /\
    Binary64.to_R vx = Some rx /\ Binary64.to_R vy = Some ry /\
    (ix = 0%Z -> iy = 0%Z -> vx = 0%float /\ vy = 0%float) /\
    (ix <> 0%Z \/ iy <> 0%Z ->
     300 - 1 / 10 ^ 12 <= magnitude rx ry <= 300 /\
     exists k, 0 < k /\ rx = k * IZR ix /\ ry = k * IZR iy) /\
    (ix = 0%Z \/ iy = 0%Z ->
     vx = Binary64.of_int (300 * ix) /\ vy = Binary64.of_int (300 * iy)).
Proof.
  intros Hin. unfold client_inputs in Hin. simpl in Hin.
  repeat (destruct Hin as [E|Hin]; [injection E as <- <-|]);
    [..|destruct Hin].
  all: do 4 eexists; split; [lazy; reflexivity|].
  all: split; [lazy -[IZR Rmult Rinv Ropp]; reflexivity|].
  all: split; [lazy -[IZR Rmult Rinv Ropp]; reflexivity|].
  all: split; [intros Hx0 Hy0; try discriminate; split; reflexivity|].
  all: split;
    [intros Hnz;
     first
       [exfalso; destruct Hnz as [H|H]; apply H; reflexivity
       |split;
        [unfold magnitude; apply sqrt_between; lra
        |match goal with
         | |- exists k, _ /\ ?rx = _ * IZR ?ix /\ ?ry = _ * IZR ?iy =>
             first [exists (rx * IZR ix); lra | exists (ry * IZR iy); lra]
         end]]|].
  all: intros [H0|H0]; try discriminate; split; vm_compute; reflexivity.
Qed.




End BinaryMovement.

(** ** Movement: normalisation and clamping *)

Section Movement.
Import Server.

Lemma py_div_nonzero a b : b <> 0 -> py_div a b = Some (a / b).
Proof. intros Hb. unfold py_div. destruct (Req_dec_T b 0); congruence. Qed.

Lemma velocity_zero_mag ix iy :
  ~ 0 < sqrt (ix ^ 2 + iy ^ 2) -> velocity ix iy = Some (0, 0).
Proof.
  intros Hn. unfold velocity.
  destruct (Rlt_dec 0 (sqrt (ix ^ 2 + iy ^ 2))); [contradiction | reflexivity].
Qed.

(** On real numbers [velocity] raises on no input at all. *)
Lemma velocity_total ix iy : exists v, velocity ix iy = Some v.
Proof.
  unfold velocity.
  destruct (Rlt_dec 0 (sqrt (ix ^ 2 + iy ^ 2))) as [Hmag|_]; [|eauto].
  rewrite !py_div_nonzero by lra. eauto.
Qed.

Lemma clamp_bounds lo hi v :
  lo <= hi -> lo <= py_max lo (py_min hi v) <= hi.
Proof.
  intros Hle. unfold py_max, py_min.
  destruct (Rlt_dec v hi); destruct (Rlt_dec lo _); lra.
Qed.

Lemma move_player_in_bounds p :
  exists p', move_player p = Some p' /\ in_bounds p'.
Proof.
  unfold move_player.
  destruct (velocity_total (Player.input_x p) (Player.input_y p)) as [[vx vy] ->].
  eexists; split; [reflexivity|].
  unfold in_bounds; simpl; split; apply clamp_bounds;
    unfold PLAYER_RADIUS, GAME_WIDTH, GAME_HEIGHT; lra.
Qed.

Lemma move_players_in_bounds ps :
  exists ps', move_players ps = Some ps' /\ keys ps' = keys ps /\
              Forall in_bounds (values ps').
Proof.
  induction ps as [|[k p] r (r' & Hr & Hk & Hb)]; simpl.
  - exists []. repeat split; constructor.
  - destruct (move_player_in_bounds p) as (p' & -> & Hp). rewrite Hr.
    exists ((k, p') :: r'). simpl. repeat split; [now f_equal | now constructor].
Qed.

(** Scoring leaves positions alone. *)
Lemma award_in_bounds c ps ps' :
  award c ps = Some ps' -> Forall in_bounds (values ps) ->
  Forall in_bounds (values ps').
Proof.
  revert ps'. induction ps as [|[k p] r IH]; simpl; intros ps'; [discriminate|].
  intros Haw Hall. inversion Hall as [|? ? Hp Hr]; subst.
  destruct (touches c p).
  - injection Haw as <-. simpl. constructor; assumption.
  - destruct (award c r) as [r'|]; [|discriminate].
    injection Haw as <-. simpl. constructor; [assumption | now apply IH].
Qed.

Lemma scan_in_bounds cs : forall ps acc,
  Forall in_bounds (values ps) ->
  Forall in_bounds (values (fst (scan cs ps acc))).
Proof.
  induction cs as [|[cid c] r IH]; simpl; intros ps acc Hall; [assumption|].
  destruct (award c ps) as [ps'|] eqn:Haw.
  - apply IH. eapply award_in_bounds; eassumption.
  - now apply IH.
Qed.

(** C4.  A simulation step that completes leaves every player of the
    store, whatever its input and wherever it stood, with [x] in
    [[PLAYER_RADIUS, GAME_WIDTH - PLAYER_RADIUS]] and [y] in
    [[PLAYER_RADIUS, GAME_HEIGHT - PLAYER_RADIUS]]; and so does the movement
    loop in binary64, by the comparisons of floats, for every float that a
    position or an input can be, the infinities and NaN included. *)
Theorem update_game_state_clamps :
  (forall now xy s s',
     update_game_state now xy s = Some s' ->
     forall p, In p (values (players s')) ->
       25 <= Player.x p <= 500 - 25 /\ 25 <= Player.y p <= 375 - 25) /\
  (forall ps ps',
     Binary64.move_players ps = Some ps' ->
     forall p, In p (values ps') -> float_in_bounds p = true).
Proof.
  split.
  - intros now xy s s'. unfold update_game_state.
    set (s1 := spawn_due now xy s).
    destruct (move_players_in_bounds (players s1)) as (moved & -> & _ & Hb).
    unfold collect.
    pose proof (scan_in_bounds (coins s1) moved [] Hb) as Hscan.
    destruct (scan (coins s1) moved []) as [ps' rm]. simpl in Hscan.
    intros [= <-]. simpl.
    intros p Hp. rewrite Forall_forall in Hscan.
    apply (Hscan p Hp).
  - intros ps ps' Hm. exact (@move_players_float_in_bounds ps ps' Hm).
Qed.

(** A tick of the session that two clients have started; and, in binary64,
    a step of a player whose input is infinite. *)
Lemma update_game_state_clamps_witness :
  (exists s', update_game_state 12 (0, 0) two_connected = Some s' /\
     forall p, In p (values (players s')) ->
       25 <= Player.x p <= 500 - 25 /\ 25 <= Player.y p <= 375 - 25) /\
  (exists ps',
     Binary64.move_players
       [("player_0"%string, float_player PrimFloat.infinity PrimFloat.nan)]
     = Some ps' /\
     forall p, In p (values ps') -> float_in_bounds p = true).
Proof.
  split.
  - destruct (move_players_in_bounds (players (spawn_due 12 (0, 0) two_connected)))
      as (moved & Hm & _).
    assert (Hu : exists s', update_game_state 12 (0, 0) two_connected = Some s').
    { unfold update_game_state. rewrite Hm.
      destruct (collect moved _) as [ps' cs']. eauto. }
    destruct Hu as [s' Hu]. exists s'. split; [exact Hu|].
    exact (proj1 update_game_state_clamps 12 (0, 0) two_connected s' Hu).
  - set (ps := [("player_0"%string,
                 float_player PrimFloat.infinity PrimFloat.nan)]).
    destruct (Binary64.move_players ps) as [ps'|] eqn:Hm;
      [|vm_compute in Hm; discriminate Hm].
    exists ps'. split; [reflexivity|].
    exact (proj2 update_game_state_clamps ps ps' Hm).
Defined.

End Movement.

(** ** Collision and scoring *)

Section Scoring.
Import Server.

Lemma add_score_0 p : add_score p 0 = p.
Proof. destruct p; unfold add_score; simpl. f_equal. lia. Qed.

Lemma add_score_add p a b : add_score (add_score p a) b = add_score p (a + b).
Proof. unfold add_score; simpl. f_equal. lia. Qed.

(** [winner] names the first player of the iteration that is close enough. *)
Lemma winner_first c ps i :
  winner c ps = Some i <->
  exists k p, nth_error ps i = Some (k, p) /\
    dist c p < PLAYER_RADIUS + COIN_RADIUS /\
    forall j k' p', (j < i)%nat -> nth_error ps j = Some (k', p') ->
      ~ dist c p' < PLAYER_RADIUS + COIN_RADIUS.
Proof.
  revert i. induction ps as [|[k p] r IH]; intros i; simpl.
  - split; [discriminate|]. intros (k & p & Hn & _). now destruct i.
  - unfold touches, Rltb.
    destruct (Rlt_dec (dist c p) (PLAYER_RADIUS + COIN_RADIUS)) as [Hlt|Hge].
    + split.
      * intros [= <-]. exists k, p. repeat split; [assumption|]. intros; lia.
      * intros (k0 & p0 & Hn & _ & Hfirst). destruct i as [|i]; [reflexivity|].
        exfalso. apply (Hfirst O k p); [lia | reflexivity | assumption].
    + destruct (winner c r) as [j|] eqn:Hw; simpl.
      * split.
        -- intros [= <-]. destruct (proj1 (IH j) eq_refl) as (k0 & p0 & Hn & Hd & Hf).
           exists k0, p0. repeat split; [assumption..|].
           intros [|j'] k' p' Hlt Hj; simpl in Hj.
           ++ now injection Hj as <- <-.
           ++ apply (Hf j' k' p'); [lia | assumption].
        -- intros (k0 & p0 & Hn & Hd & Hf). destruct i as [|i]; simpl in Hn.
           ++ injection Hn as <- <-. contradiction.
           ++ f_equal. assert (E : Some j = Some i); [|congruence].
              apply IH. exists k0, p0. repeat split; [assumption..|].
              intros j' k' p' Hlt Hj. apply (Hf (S j') k' p'); [lia | assumption].
      * split; [discriminate|].
        intros (k0 & p0 & Hn & Hd & Hf). destruct i as [|i]; simpl in Hn.
        -- injection Hn as <- <-. contradiction.
        -- assert (E : None = Some i); [|discriminate].
           apply IH. exists k0, p0. repeat split; [assumption..|].
           intros j' k' p' Hlt Hj. apply (Hf (S j') k' p'); [lia | assumption].
Qed.

(** Scoring changes no position, hence no later verdict. *)
Lemma award_winner c ps ps1 :
  award c ps = Some ps1 -> forall c', winner c' ps1 = winner c' ps.
Proof.
  revert ps1. induction ps as [|[k p] r IH]; simpl; intros ps1; [discriminate|].
  destruct (touches c p).
  - intros [= <-] c'. reflexivity.
  - destruct (award c r) as [r'|]; [|discriminate].
    intros [= <-] c'. simpl. now rewrite (IH r' eq_refl).
Qed.

Lemma award_None c ps : award c ps = None -> winner c ps = None.
Proof.
  induction ps as [|[k p] r IH]; simpl; [reflexivity|].
  destruct (touches c p); [discriminate|].
  destruct (award c r); [discriminate|]. intros _. now rewrite IH.
Qed.

Lemma award_Some c ps ps1 :
  award c ps = Some ps1 ->
  exists i, winner c ps = Some i /\ keys ps1 = keys ps /\
    forall j k p, nth_error ps j = Some (k, p) ->
      nth_error ps1 j = Some (k, add_score p (if (j =? i)%nat then 1 else 0)).
Proof.
  revert ps1. induction ps as [|[k p] r IH]; simpl; intros ps1; [discriminate|].
  destruct (touches c p).
  - intros [= <-]. exists O. repeat split.
    intros [|j] k0 p0; simpl.
    + now intros [= <- <-].
    + intros ->. now rewrite add_score_0.
  - destruct (award c r) as [r'|]; [|discriminate].
    intros [= <-]. destruct (IH r' eq_refl) as (i & -> & Hk & Hn).
    exists (S i). simpl. repeat split; [now f_equal|].
    intros [|j] k0 p0; simpl.
    + intros [= <- <-]. now rewrite add_score_0.
    + apply Hn.
Qed.

Lemma award_total c ps ps1 :
  award c ps = Some ps1 -> total_score ps1 = (total_score ps + 1)%Z.
Proof.
  revert ps1. induction ps as [|[k p] r IH]; simpl; intros ps1; [discriminate|].
  destruct (touches c p).
  - intros [= <-]. unfold total_score; simpl. lia.
  - destruct (award c r) as [r'|]; [|discriminate].
    intros [= <-]. specialize (IH r' eq_refl).
    unfold total_score in *; simpl. lia.
Qed.

Lemma claimed_ext ps ps1 (cs : dict string Coin.t) :
  (forall c', winner c' ps1 = winner c' ps) ->
  filter (claimed ps1) cs = filter (claimed ps) cs.
Proof. intros Hw. apply filter_ext. intros kc. unfold claimed. now rewrite Hw. Qed.

Lemma coins_won_ext j ps ps1 (cs : dict string Coin.t) :
  (forall c', winner c' ps1 = winner c' ps) ->
  coins_won j ps1 cs = coins_won j ps cs.
Proof.
  intros Hw. unfold coins_won. f_equal. apply filter_ext.
  intros kc. unfold won_by. now rewrite Hw.
Qed.

Lemma claimed_cons ps cid c (r : dict string Coin.t) :
  filter (claimed ps) ((cid, c) :: r)
  = match winner c ps with
    | Some _ => (cid, c) :: filter (claimed ps) r
    | None => filter (claimed ps) r
    end.
Proof. simpl. unfold claimed at 1. simpl. now destruct (winner c ps). Qed.

Lemma coins_won_cons j ps cid c (r : dict string Coin.t) :
  coins_won j ps ((cid, c) :: r)
  = (match winner c ps with
     | Some i => if (j =? i)%nat then 1 else 0
     | None => 0
     end + coins_won j ps r)%nat.
Proof.
  unfold coins_won. simpl. unfold won_by at 1. simpl.
  destruct (winner c ps) as [i|]; [destruct (j =? i)%nat|]; reflexivity.
Qed.

(** The scan: what is marked, and what each player gains. *)
Lemma scan_spec cs : forall ps acc ps' rm,
  scan cs ps acc = (ps', rm) ->
  rm = acc ++ keys (filter (claimed ps) cs) /\
  keys ps' = keys ps /\
  total_score ps' = (total_score ps
                     + Z.of_nat (List.length (filter (claimed ps) cs)))%Z /\
  forall j k p, nth_error ps j = Some (k, p) ->
    nth_error ps' j = Some (k, add_score p (coins_won j ps cs)).
Proof.
  induction cs as [|[cid c] r IH]; intros ps acc ps' rm Hscan.
  - simpl in Hscan. injection Hscan as <- <-. simpl. rewrite app_nil_r.
    repeat split; [lia|].
    intros j k p Hj. unfold coins_won; simpl. now rewrite add_score_0.
  - simpl in Hscan. rewrite claimed_cons.
    destruct (award c ps) as [ps1|] eqn:Haw.
    + destruct (award_Some _ _ Haw) as (i & Hw & Hk & Hn).
      pose proof (award_winner _ _ Haw) as Hsame.
      destruct (IH _ _ _ _ Hscan) as (-> & Hk' & Htot & Hn').
      rewrite (@claimed_ext ps ps1 r Hsame) in *. rewrite Hw.
      repeat split.
      * simpl. now rewrite <- app_assoc.
      * congruence.
      * rewrite Htot, (award_total _ _ Haw). simpl List.length. lia.
      * intros j k p Hj. rewrite (Hn' _ _ _ (Hn _ _ _ Hj)).
        rewrite add_score_add, coins_won_cons, Hw.
        now rewrite (@coins_won_ext j ps ps1 r Hsame).
    + rewrite (award_None _ _ Haw).
      destruct (IH _ _ _ _ Hscan) as (-> & Hk' & Htot & Hn').
      repeat split; [assumption..|].
      intros j k p Hj. rewrite coins_won_cons, (award_None _ _ Haw).
      now apply Hn'.
Qed.

Lemma dict_del_app_fresh (pre r : dict string Coin.t) k v :
  ~ In k (keys pre) -> dict_del k (pre ++ (k, v) :: r) = pre ++ r.
Proof.
  induction pre as [|[k0 v0] pre IH]; simpl; intros Hn.
  - now rewrite String.eqb_refl.
  - destruct (String.eqb_spec k k0) as [->|Hne]; [tauto|].
    rewrite IH by tauto. reflexivity.
Qed.

(** Deleting the marked keys of a dictionary leaves the unmarked entries. *)
Lemma remove_coins_filter (f : string * Coin.t -> bool) cs :
  NoDup (keys cs) ->
  remove_coins (keys (filter f cs)) cs = filter (fun kc => negb (f kc)) cs.
Proof.
  intros Hnd.
  enough (G : forall pre,
             (forall k, In k (keys cs) -> ~ In k (keys pre)) ->
             remove_coins (keys (filter f cs)) (pre ++ cs)
             = pre ++ filter (fun kc => negb (f kc)) cs).
  { apply (G []). simpl. tauto. }
  induction cs as [|[k c] r IH]; simpl; intros pre Hfresh; [reflexivity|].
  inversion Hnd as [|? ? Hk Hr]; subst.
  destruct (f (k, c)); simpl.
  - unfold remove_coins in *; simpl.
    rewrite dict_del_app_fresh by (apply Hfresh; now left).
    apply (IH Hr). intros k' Hin. apply Hfresh. now right.
  - replace (pre ++ (k, c) :: r) with ((pre ++ [(k, c)]) ++ r)
      by (now rewrite <- app_assoc).
    rewrite (IH Hr); [now rewrite <- app_assoc|].
    intros k' Hin. unfold keys. rewrite map_app, in_app_iff. simpl.
    intros [Hpre|[->|[]]].
    + apply (Hfresh k'); [now right | assumption].
    + exact (Hk Hin).
Qed.

Lemma filter_length_split {A} (f : A -> bool) (l : list A) :
  (List.length (filter f l) + List.length (filter (fun a => negb (f a)) l)
   = List.length l)%nat.
Proof. induction l as [|a l IH]; simpl; [reflexivity|]. destruct (f a); simpl; lia. Qed.

(** Lines 103-113 as a whole. *)
Lemma collect_spec ps cs ps' cs' :
  NoDup (keys cs) -> collect ps cs = (ps', cs') ->
  keys ps' = keys ps /\
  (forall i k p, nth_error ps i = Some (k, p) ->
     nth_error ps' i = Some (k, add_score p (coins_won i ps cs))) /\
  cs' = filter (fun kc => negb (claimed ps kc)) cs /\
  (total_score ps' - total_score ps
   = Z.of_nat (List.length cs - List.length cs'))%Z.
Proof.
  intros Hnd. unfold collect.
  destruct (scan cs ps []) as [ps1 rm] eqn:Hscan. intros [= <- <-].
  destruct (scan_spec _ _ _ Hscan) as (-> & Hk & Htot & Hn). simpl.
  rewrite (@remove_coins_filter (claimed ps) cs Hnd).
  repeat split; [assumption..|].
  pose proof (filter_length_split (claimed ps) cs). lia.
Qed.

End Scoring.

(** ** Session controller *)

Section Session.
Import Server.

(** While the session waits, the store holds nobody or [player_0] alone, and
    no coin was ever spawned. *)
Lemma waiting_shape s :
  reachable s -> game_started s = false ->
  (players s = [] \/ exists p, players s = [("player_0"%string, p)]) /\
  coins s = [] /\ coin_counter s = O.
Proof.
  induction 1 as [now | s e s' sent Hr IH Hstep]; [simpl; auto|].
  destruct e as [ws x y col now draws | ws | ws ix iy | now xy]; simpl in Hstep.
  - destruct (handle_client_connect ws x y col now draws s) as [[s1 pid] out] eqn:Hc.
    injection Hstep as <- <-. unfold handle_client_connect in Hc.
    destruct (game_started s) eqn:Hgs.
    + cbn [game_started negb andb] in Hc. rewrite andb_false_r in Hc.
      injection Hc as <- _ _. simpl. congruence.
    + destruct (IH eq_refl) as ([Hp | [p Hp]] & Hcs & Hn); rewrite Hp in Hc;
        simpl in Hc; injection Hc as <- _ _; simpl; intros Hs;
        [|discriminate].
      repeat split; [right; eexists; reflexivity | assumption..].
  - destruct (dict_get ws (player_id_map s)) as [pid|];
      injection Hstep as <- <-; [|assumption].
    simpl. intros Hgs. destruct (IH Hgs) as ([Hp | [p Hp]] & Hcs & Hn);
      rewrite Hp; simpl; repeat split; auto.
    destruct (dict_mem pid _); destruct (pid =? "player_0")%string; eauto.
  - injection Hstep as <- <-. unfold process_delayed_message.
    destruct (dict_get ws (player_id_map s)) as [pid|]; [|assumption].
    destruct (dict_get pid (players s)) as [p|] eqn:Hg; [|assumption].
    simpl. intros Hgs. destruct (IH Hgs) as ([Hp | [p0 Hp]] & Hcs & Hn);
      rewrite Hp in *; simpl in *; [discriminate|].
    destruct (pid =? "player_0")%string eqn:E; [|discriminate].
    apply String.eqb_eq in E. subst pid. repeat split; eauto.
  - destruct (stop_event s); [injection Hstep as <- <-; assumption|].
    destruct (game_started s) eqn:Hgs; [|injection Hstep as <- <-; intros _; now apply IH].
    unfold update_game_state in Hstep.
    destruct (move_players (players (spawn_due now xy s))); [|discriminate].
    destruct (collect _ _) as [ps' cs'].
    injection Hstep as <- _. simpl.
    unfold spawn_due. destruct (Rlt_dec _ _); simpl; congruence.
Qed.

(** No operation leaves the Active state. *)
Lemma game_started_stays e s s' sent :
  step e s = Some (s', sent) -> game_started s = true -> game_started s' = true.
Proof.
  intros Hstep Hgs.
  destruct e as [ws x y col now draws | ws | ws ix iy | now xy]; simpl in Hstep.
  - destruct (handle_client_connect ws x y col now draws s) as [[s1 pid] out] eqn:Hc.
    injection Hstep as <- <-. unfold handle_client_connect in Hc.
    rewrite Hgs in Hc. cbn [game_started negb] in Hc. rewrite andb_false_r in Hc.
    now injection Hc as <- _ _.
  - destruct (dict_get ws (player_id_map s)); now injection Hstep as <- <-.
  - injection Hstep as <- <-. unfold process_delayed_message.
    destruct (dict_get ws (player_id_map s)) as [pid|]; [|assumption].
    destruct (dict_get pid (players s)); assumption.
  - destruct (stop_event s); [now injection Hstep as <- <-|].
    rewrite Hgs in Hstep. unfold update_game_state in Hstep.
    destruct (move_players (players (spawn_due now xy s))); [|discriminate].
    destruct (collect _ _) as [ps' cs'].
    injection Hstep as <- _. simpl.
    unfold spawn_due. destruct (Rlt_dec _ _); simpl; congruence.
Qed.

(** The tick loop sends state updates and nothing else. *)
Lemma broadcast_state_sends now s c m :
  In (c, m) (sends (broadcast_state now s)) ->
  exists t ps cs, m = MStateUpdate t ps cs.
Proof.
  unfold broadcast_state. destruct (negb (game_started s)); [intros []|].
  destruct (connected_clients s) as [|c0 l] eqn:Hcl; [intros []|].
  generalize (c0 :: l). intros clients. cbn [sends].
  rewrite flat_map_concat_map, map_map, <- flat_map_concat_map.
  rewrite in_flat_map. intros (c' & _ & [E|[]]).
  injection E as _ <-. eauto.
Qed.

(** As long as every [init] message is sent without an exception, which is
    what [step] takes a connect to be: from a reachable state, every
    operation of the server keeps the session Active once it is; a connect
    made while Active spawns no coin and sends [game_start] to the new client
    alone, at once, however many players there are; while Waiting fewer than
    two players are present and no coin exists, and an operation makes the
    session Active exactly when it is the connect that brings the number of
    players from one to two, which then spawns the five coins of the initial
    batch and sends [game_start] to every connected client; any other
    operation made while Waiting leaves fewer than two players, spawns
    nothing and sends no [game_start]. *)
Lemma gating_when_sends_succeed s e s' sent :
  reachable s -> step e s = Some (s', sent) ->
  (game_started s = true ->
     game_started s' = true /\
     (forall c, In (c, MGameStart) sent ->
        exists x y col now draws, e = Connect c x y col now draws) /\
     forall ws x y col now draws, e = Connect ws x y col now draws ->
       coins s' = coins s /\ coin_counter s' = coin_counter s /\
       exists pid, sent = [(ws, init_msg pid); (ws, MGameStart)]) /\
  (game_started s = false ->
     (List.length (players s) < 2)%nat /\ coins s = [] /\
     if game_started s' then
       exists ws x y col now draws,
         e = Connect ws x y col now draws /\
         List.length (players s) = 1%nat /\ List.length (players s') = 2%nat /\
         start_time s' = Some now /\
         coins s' = initial_batch draws /\
         sent = (ws, init_msg "player_1")
                  :: map (fun c => (c, MGameStart)) (connected_clients s')
     else
       (List.length (players s') < 2)%nat /\ coins s' = [] /\
       forall c, ~ In (c, MGameStart) sent).
Proof.
  intros Hr Hstep. split; intros Hgs.
  - split; [exact (game_started_stays _ _ Hstep Hgs)|].
    destruct e as [ws x y col now draws | ws | ws ix iy | now xy]; simpl in Hstep.
    + destruct (handle_client_connect ws x y col now draws s) as [[s1 pid] out] eqn:Hc.
      injection Hstep as <- <-. unfold handle_client_connect in Hc.
      rewrite Hgs in Hc. cbn [game_started negb] in Hc. rewrite andb_false_r in Hc.
      injection Hc as <- <- <-. split.
      * intros c [E|[E|[]]]; [discriminate|]. injection E as <-. eauto 6.
      * intros ws' x' y' col' now' draws' [= <- _ _ _ _ _]. eauto.
    + split; [|discriminate].
      destruct (dict_get ws (player_id_map s)); injection Hstep as _ <-; intros c [].
    + split; [|discriminate]. injection Hstep as _ <-. intros c [].
    + split; [|discriminate].
      destruct (stop_event s); [injection Hstep as _ <-; intros c []|].
      rewrite Hgs in Hstep.
      destruct (update_game_state now xy s) as [s1|]; [|discriminate].
      injection Hstep as _ <-. intros c Hin. exfalso.
      unfold game_loop_iteration in Hin. cbn [sends] in Hin.
      rewrite app_nil_r in Hin.
      destruct (game_started s1); [|destruct Hin]. cbn [sends] in Hin.
      destruct (broadcast_state_sends _ _ _ _ Hin) as (t & ps & cs & E).
      discriminate.
  - destruct (waiting_shape Hr Hgs) as (Hps & Hcs & Hn).
    split; [destruct Hps as [->|[p ->]]; simpl; lia|]. split; [assumption|].
    pose proof (reachable_step _ Hr Hstep) as Hr'.
    destruct e as [ws x y col now draws | ws | ws ix iy | now xy]; simpl in Hstep.
    + destruct (handle_client_connect ws x y col now draws s) as [[s1 pid] out] eqn:Hc.
      injection Hstep as <- <-. unfold handle_client_connect in Hc.
      destruct s as [ps cs cl pm lcs n gs st stop]; simpl in *. subst cs n gs.
      destruct Hps as [->|[p ->]]; simpl in Hc; injection Hc as <- <- <-; simpl.
      * repeat split; [lia|]. intros c [E|[]]. discriminate.
      * exists ws, x, y, col, now, draws. repeat split.
    + assert (Hs' : game_started s' = false).
      { destruct (dict_get ws (player_id_map s)); injection Hstep as <- _; assumption. }
      rewrite Hs'. destruct (waiting_shape Hr' Hs') as (Hps' & Hcs' & _).
      repeat split; [destruct Hps' as [->|[p ->]]; simpl; lia | assumption |].
      destruct (dict_get ws (player_id_map s)); injection Hstep as _ <-; intros c [].
    + assert (Hs' : game_started s' = false).
      { injection Hstep as <- _. unfold process_delayed_message.
        destruct (dict_get ws (player_id_map s)) as [pid|]; [|assumption].
        destruct (dict_get pid (players s)); assumption. }
      rewrite Hs'. destruct (waiting_shape Hr' Hs') as (Hps' & Hcs' & _).
      repeat split; [destruct Hps' as [->|[p ->]]; simpl; lia | assumption |].
      injection Hstep as _ <-; intros c [].
    + rewrite Hgs in Hstep.
      assert (E : s' = s /\ sent = []).
      { destruct (stop_event s); injection Hstep as <- <-; auto. }
      destruct E as [-> ->]. rewrite Hgs.
      repeat split; [destruct Hps as [->|[p ->]]; simpl; lia | assumption |].
      intros c [].
Qed.

(** *** Player identities *)

(** C2, on the trace where two clients connect, the first one leaves and a
    third one arrives: the arriving client is given [player_1], the id of the
    player of the client still connected; the store then holds one player for
    two clients, the record that the second client had is replaced, and when
    the second client leaves, the third is left without a player and the
    server is told to stop. *)
Theorem handle_client_reuses_live_player_id :
  exists s,
    run first_leaves (GameServer_init 0) = Some s /\
    connected_clients s = [1%nat] /\
    players s = [("player_1"%string, Player.new "player_1" 200 200 green)] /\
    exists s' sent,
      handle_client_connect 2%nat 300 300 blue 12 draws0 s
      = (s', "player_1"%string, sent) /\
      connected_clients s' = [1%nat; 2%nat] /\
      dict_get 1%nat (player_id_map s') = Some "player_1"%string /\
      dict_get 2%nat (player_id_map s') = Some "player_1"%string /\
      players s' = [("player_1"%string, Player.new "player_1" 300 300 blue)] /\
      let s'' := handle_client_finally 1%nat "player_1" s' in
      connected_clients s'' = [2%nat] /\ players s'' = [] /\
      stop_event s'' = true.
Proof.
  eexists. split; [lazy; reflexivity|].
  split; [reflexivity|]. split; [reflexivity|].
  do 2 eexists. split; [lazy; reflexivity|].
  lazy. repeat split.
Qed.

(** *** Scores *)

Lemma move_player_score p p' :
  move_player p = Some p' -> Player.score p' = Player.score p.
Proof.
  unfold move_player.
  destruct (velocity (Player.input_x p) (Player.input_y p)) as [[vx vy]|];
    [|discriminate].
  now intros [= <-].
Qed.

Lemma move_players_scores ps moved :
  move_players ps = Some moved ->
  forall i k p, nth_error ps i = Some (k, p) ->
    exists p', nth_error moved i = Some (k, p') /\
               Player.score p' = Player.score p.
Proof.
  revert moved. induction ps as [|[k0 p0] r IH]; simpl; intros moved Hm i k p Hi.
  - now destruct i.
  - destruct (move_player p0) as [p0'|] eqn:Hp; [|discriminate].
    destruct (move_players r) as [r'|]; [|discriminate].
    injection Hm as <-. destruct i as [|i]; simpl in *.
    + injection Hi as <- <-. eauto using move_player_score.
    + eapply IH; [reflexivity | eassumption].
Qed.

Lemma dict_del_incl (d : dict string Player.t) k : incl (dict_del k d) d.
Proof.
  induction d as [|[k0 v0] r IH]; simpl; [apply incl_refl|].
  destruct (String.eqb k k0).
  - apply incl_tl, incl_refl.
  - intros a [<-|Hin]; [now left | right; now apply IH].
Qed.

Lemma score_entries_set_input (d : dict string Player.t) pid p ix iy :
  dict_get pid d = Some p ->
  map score_entry (dict_set pid (Player.set_input p ix iy) d)
  = map score_entry d.
Proof.
  induction d as [|[k0 v0] r IH]; simpl; [discriminate|].
  destruct (String.eqb_spec pid k0) as [->|Hne]; simpl.
  - now intros [= ->].
  - intros Hg. now rewrite IH.
Qed.

Lemma connect_players ws x y col now draws s :
  players (fst (fst (handle_client_connect ws x y col now draws s)))
  = dict_set (snd (fst (handle_client_connect ws x y col now draws s)))
             (Player.new (snd (fst (handle_client_connect ws x y col now draws s)))
                         x y col)
             (players s).
Proof.
  unfold handle_client_connect. cbn [players game_started].
  destruct ((_ =? 2)%nat && negb (game_started s)); [reflexivity|].
  destruct (game_started s); reflexivity.
Qed.

Lemma scores_nonneg_set (d : dict string Player.t) k p :
  scores_nonneg d -> (0 <= Player.score p)%Z -> scores_nonneg (dict_set k p d).
Proof.
  unfold scores_nonneg.
  induction d as [|[k0 v0] r IH]; simpl; intros Hd Hp.
  - now repeat constructor.
  - inversion Hd as [|? ? H0 Hr]; subst.
    destruct (String.eqb k k0); constructor; auto.
Qed.

Lemma scores_nonneg_move ps moved :
  move_players ps = Some moved -> scores_nonneg ps -> scores_nonneg moved.
Proof.
  unfold scores_nonneg.
  revert moved. induction ps as [|[k0 p0] r IH]; simpl; intros moved Hm Hd.
  - injection Hm as <-. constructor.
  - destruct (move_player p0) as [p0'|] eqn:Hp; [|discriminate].
    destruct (move_players r) as [r'|]; [|discriminate].
    injection Hm as <-. inversion Hd as [|? ? H0 Hr]; subst.
    constructor; [simpl in *; now rewrite (move_player_score _ Hp) | now apply IH].
Qed.

Lemma scores_nonneg_award c ps ps1 :
  award c ps = Some ps1 -> scores_nonneg ps -> scores_nonneg ps1.
Proof.
  unfold scores_nonneg.
  revert ps1. induction ps as [|[k p] r IH]; simpl; intros ps1; [discriminate|].
  intros Haw Hd. inversion Hd as [|? ? H0 Hr]; subst. simpl in H0.
  destruct (touches c p).
  - injection Haw as <-. constructor; [simpl; lia | assumption].
  - destruct (award c r) as [r'|]; [|discriminate].
    injection Haw as <-. constructor; [assumption | now apply IH].
Qed.

Lemma scores_nonneg_scan cs : forall ps acc,
  scores_nonneg ps -> scores_nonneg (fst (scan cs ps acc)).
Proof.
  induction cs as [|[cid c] r IH]; simpl; intros ps acc Hd; [assumption|].
  destruct (award c ps) as [ps1|] eqn:Haw.
  - apply IH. eapply scores_nonneg_award; eassumption.
  - now apply IH.
Qed.

Lemma players_spawn_due now xy s : players (spawn_due now xy s) = players s.
Proof. unfold spawn_due. now destruct (Rlt_dec _ _). Qed.

Lemma update_players now xy s s' :
  update_game_state now xy s = Some s' ->
  exists moved, move_players (players s) = Some moved /\
    players s' = fst (scan (coins (spawn_due now xy s)) moved []).
Proof.
  unfold update_game_state, collect. rewrite players_spawn_due.
  destruct (move_players (players s)) as [moved|]; [|discriminate].
  destruct (scan (coins (spawn_due now xy s)) moved []) as [ps1 rm] eqn:Hscan.
  intros [= <-]. exists moved. rewrite Hscan. split; reflexivity.
Qed.

Lemma reachable_scores_nonneg s : reachable s -> scores_nonneg (players s).
Proof.
  induction 1 as [now | s e s' sent Hr IH Hstep]; [constructor|].
  destruct e as [ws x y col now draws | ws | ws ix iy | now xy]; simpl in Hstep.
  - pose proof (connect_players ws x y col now draws s) as Hp.
    destruct (handle_client_connect ws x y col now draws s) as [[s1 pid] out].
    injection Hstep as <- _. simpl in Hp. rewrite Hp.
    apply scores_nonneg_set; [assumption | simpl; lia].
  - destruct (dict_get ws (player_id_map s)) as [pid|];
      injection Hstep as <- _; [|assumption].
    simpl. destruct (dict_mem pid (players s)); [|assumption].
    unfold scores_nonneg in *. rewrite Forall_forall in *.
    intros kp Hin. apply IH. eapply dict_del_incl; eassumption.
  - injection Hstep as <- _. unfold process_delayed_message.
    destruct (dict_get ws (player_id_map s)) as [pid|]; [|assumption].
    destruct (dict_get pid (players s)) as [p|] eqn:Hg; [|assumption].
    simpl. apply scores_nonneg_set; [assumption|]. simpl.
    apply dict_get_In in Hg. unfold scores_nonneg in IH.
    rewrite Forall_forall in IH. apply (IH _ Hg).
  - destruct (stop_event s); [now injection Hstep as <- _|].
    destruct (game_started s); [|now injection Hstep as <- _].
    destruct (update_game_state now xy s) as [s1|] eqn:Hu; [|discriminate].
    injection Hstep as <- _.
    destruct (update_players _ _ _ Hu) as (moved & Hm & ->).
    apply scores_nonneg_scan. eapply scores_nonneg_move; eassumption.
Qed.

(** Scores, operation by operation.  A connect stores a player with score
    0 under the id it computes, and touches the record of no other id; a
    disconnect only removes records; the delayed application of an input
    changes no score; a simulation step gives the player at each position of
    the store its former score plus the number of coins it wins in that
    step; and in every reachable state all scores are at least 0. *)
Lemma score_accounting :
  (forall ws x y col now draws s s' pid sent,
     handle_client_connect ws x y col now draws s = (s', pid, sent) ->
     dict_get pid (players s') = Some (Player.new pid x y col) /\
     Player.score (Player.new pid x y col) = 0%Z /\
     forall k, k <> pid -> dict_get k (players s') = dict_get k (players s)) /\
  (forall ws pid s,
     incl (players (handle_client_finally ws pid s)) (players s)) /\
  (forall ws ix iy s,
     map score_entry (players (process_delayed_message ws ix iy s))
     = map score_entry (players s)) /\
  (forall now xy s s',
     update_game_state now xy s = Some s' ->
     exists moved,
       move_players (players s) = Some moved /\
       keys (players s') = keys (players s) /\
       forall i k p, nth_error (players s) i = Some (k, p) ->
         exists p', nth_error (players s') i = Some (k, p') /\
           Player.score p'
           = (Player.score p
              + Z.of_nat (coins_won i moved (coins (spawn_due now xy s))))%Z) /\
  (forall s, reachable s ->
     forall k p, In (k, p) (players s) -> (0 <= Player.score p)%Z).
Proof.
  repeat apply conj.
  - intros ws x y col now draws s s' pid sent Hc.
    pose proof (connect_players ws x y col now draws s) as Hp.
    rewrite Hc in Hp. simpl in Hp. rewrite Hp. repeat split.
    + apply dict_get_set_eq.
    + intros k Hk. now apply dict_get_set_neq.
  - intros ws pid s. simpl.
    destruct (dict_mem pid (players s)); [apply dict_del_incl | apply incl_refl].
  - intros ws ix iy s. unfold process_delayed_message.
    destruct (dict_get ws (player_id_map s)) as [pid|]; [|reflexivity].
    destruct (dict_get pid (players s)) as [p|] eqn:Hg; [|reflexivity].
    simpl. now apply score_entries_set_input.
  - intros now xy s s' Hu.
    destruct (update_players _ _ _ Hu) as (moved & Hm & Hps).
    exists moved. split; [assumption|].
    destruct (scan (coins (spawn_due now xy s)) moved []) as [ps1 rm] eqn:Hscan.
    simpl in Hps. subst ps1.
    destruct (scan_spec _ _ _ Hscan) as (_ & Hk & _ & Hn).
    destruct (move_players_in_bounds (players s)) as (moved' & Hm' & Hkm & _).
    rewrite Hm in Hm'. injection Hm' as <-.
    split; [congruence|].
    intros i k p Hi.
    destruct (move_players_scores _ Hm _ Hi) as (p1 & Hi1 & Hs1).
    eexists. split; [apply (Hn _ _ _ Hi1)|]. simpl. now rewrite Hs1.
  - intros s Hr k p Hin. pose proof (reachable_scores_nonneg Hr) as Hnn.
    unfold scores_nonneg in Hnn. rewrite Forall_forall in Hnn.
    apply (Hnn _ Hin).
Qed.

End Session.

(** ** A simulation tick *)

Section Tick.
Import Server.

Lemma run_reachable es : forall s s',
  reachable s -> run es s = Some s' -> reachable s'.
Proof.
  induction es as [|e es IH]; simpl; intros s s' Hr Hrun.
  - now injection Hrun as <-.
  - destruct (step e s) as [[s1 sent]|] eqn:Hstep; [|discriminate].
    apply (IH s1); [|assumption]. eapply reachable_step; eassumption.
Qed.

Lemma NoDup_remove_coins rm : forall cs : dict string Coin.t,
  NoDup (keys cs) -> NoDup (keys (remove_coins rm cs)).
Proof.
  unfold remove_coins. induction rm as [|k rm IH]; simpl; intros cs Hnd.
  - assumption.
  - apply IH. now apply NoDup_dict_del.
Qed.

Lemma NoDup_spawn_due now xy s :
  NoDup (keys (coins s)) -> NoDup (keys (coins (spawn_due now xy s))).
Proof.
  intros Hnd. unfold spawn_due. destruct (Rlt_dec _ _); [|assumption].
  simpl. now apply NoDup_dict_set.
Qed.

(** The coin store is a dictionary in every reachable state. *)
Lemma reachable_coins_NoDup s : reachable s -> NoDup (keys (coins s)).
Proof.
  induction 1 as [now | s e s' sent Hr IH Hstep]; [constructor|].
  destruct e as [ws x y col now draws | ws | ws ix iy | now xy]; simpl in Hstep.
  - destruct (handle_client_connect ws x y col now draws s) as [[s1 pid] out] eqn:Hc.
    injection Hstep as <- _. unfold handle_client_connect in Hc.
    destruct (_ && _).
    + injection Hc as <- _ _. cbn [fold_left seq].
      repeat apply NoDup_dict_set. assumption.
    + destruct (game_started _); injection Hc as <- _ _; assumption.
  - destruct (dict_get ws (player_id_map s)); injection Hstep as <- _; assumption.
  - injection Hstep as <- _. unfold process_delayed_message.
    destruct (dict_get ws (player_id_map s)) as [pid|]; [|assumption].
    destruct (dict_get pid (players s)); assumption.
  - destruct (stop_event s); [now injection Hstep as <- _|].
    destruct (game_started s); [|now injection Hstep as <- _].
    unfold update_game_state, collect in Hstep.
    destruct (move_players _) as [moved|]; [|discriminate].
    destruct (scan _ moved []) as [ps1 rm].
    injection Hstep as <- _. simpl.
    apply NoDup_remove_coins. now apply NoDup_spawn_due.
Qed.

(** On real numbers a step always completes. *)
Lemma update_game_state_total now xy s :
  exists s', update_game_state now xy s = Some s'.
Proof.
  unfold update_game_state.
  destruct (move_players_in_bounds (players (spawn_due now xy s)))
    as (moved & -> & _).
  destruct (collect moved _) as [ps' cs']. eauto.
Qed.

Lemma move_players_total_score ps moved :
  move_players ps = Some moved -> total_score moved = total_score ps.
Proof.
  revert moved. induction ps as [|[k p] r IH]; simpl; intros moved Hm.
  - now injection Hm as <-.
  - destruct (move_player p) as [p'|] eqn:Hp; [|discriminate].
    destruct (move_players r) as [r'|]; [|discriminate].
    injection Hm as <-. unfold total_score in *. simpl.
    now rewrite (move_player_score _ Hp), (IH r' eq_refl).
Qed.

(** C3.  In a tick taken in a reachable state, with [moved] the players
    after the movement phase and [cs] the coins present when the collision
    scan starts: a coin is won by the first player, in iteration order, whose
    distance to it is below [PLAYER_RADIUS + COIN_RADIUS], and by no other;
    the player at each position gains one point per coin it wins, each coin
    of [cs] being examined once, against the positions the scan started
    with; the coins left are exactly those of [cs] that nobody won, removed
    after the scan; and the scores gained in the tick add up to the number of
    coins removed. *)
Theorem coin_exclusivity now xy s s' :
  reachable s -> update_game_state now xy s = Some s' ->
  exists moved,
    move_players (players s) = Some moved /\
    let cs := coins (spawn_due now xy s) in
    (forall c i, winner c moved = Some i <->
       exists k p, nth_error moved i = Some (k, p) /\
         dist c p < 25 + 15 /\
         forall j k' p', (j < i)%nat -> nth_error moved j = Some (k', p') ->
           ~ dist c p' < 25 + 15) /\
    keys (players s') = keys moved /\
    (forall i k p, nth_error moved i = Some (k, p) ->
       nth_error (players s') i
       = Some (k, add_score p (coins_won i moved cs))) /\
    coins s' = filter (fun kc => negb (claimed moved kc)) cs /\
    (total_score (players s') - total_score (players s)
     = Z.of_nat (List.length cs - List.length (coins s')))%Z.
Proof.
  intros Hr Hu.
  pose proof (@NoDup_spawn_due now xy s (reachable_coins_NoDup Hr)) as Hnd.
  unfold update_game_state in Hu. rewrite players_spawn_due in Hu.
  destruct (move_players (players s)) as [moved|] eqn:Hm; [|discriminate].
  destruct (collect moved (coins (spawn_due now xy s))) as [ps' cs'] eqn:Hc.
  injection Hu as <-. exists moved. split; [reflexivity|].
  destruct (@collect_spec _ _ _ _ Hnd Hc) as (Hk & Hn & Hcs & Htot).
  cbn [players coins with_players with_coins].
  split; [intros c i; apply winner_first|].
  rewrite <- (@move_players_total_score _ _ Hm).
  repeat split; assumption.
Qed.

(** A tick of the session that two clients have just started. *)
Lemma coin_exclusivity_witness :
  reachable two_connected /\
  exists s',
    update_game_state 12 (0, 0) two_connected = Some s' /\
    keys (players s') = ["player_0"%string; "player_1"%string] /\
    (total_score (players s') - total_score (players two_connected)
     = Z.of_nat (List.length (coins (spawn_due 12%R (0%R, 0%R) two_connected))
                 - List.length (coins s')))%Z.
Proof.
  assert (Hr : reachable two_connected).
  { apply (@run_reachable two_connects (GameServer_init 0));
      [apply reachable_init | lazy; reflexivity]. }
  split; [exact Hr|].
  destruct (update_game_state_total 12 (0, 0) two_connected) as [s' Hu].
  exists s'. split; [exact Hu|].
  destruct (@coin_exclusivity _ _ _ _ Hr Hu) as (moved & Hm & _ & Hk & _ & _ & Htot).
  destruct (move_players_in_bounds (players two_connected)) as (m' & Hm' & Hk' & _).
  rewrite Hm in Hm'. injection Hm' as <-.
  split; [|exact Htot].
  rewrite Hk, Hk'. reflexivity.
Defined.

End Tick.

(** ** The tick loop and the broadcast *)

Section TickLoop.
Import Server.

(** The gather over the delayed sends is over when the latency is. *)
Lemma gather_delayed_send message c clients :
  elapsed (Gather (map (delayed_send message) (c :: clients)))
  = SIMULATION_LATENCY.
Proof.
  cbn [elapsed].
  assert (G : forall l,
             let m := fold_right (fun c m => Rmax (elapsed c) m) 0
                                 (map (delayed_send message) l) in
             m = 0 \/ m = SIMULATION_LATENCY).
  { induction l as [|a l IH]; simpl; [now left|]. right.
    simpl in IH. unfold SIMULATION_LATENCY in *.
    destruct IH as [-> | ->]; unfold Rmax; destruct (Rle_dec _ _); lra. }
  specialize (G clients). simpl in *. unfold SIMULATION_LATENCY in *.
  destruct G as [-> | ->]; unfold Rmax; destruct (Rle_dec _ _); lra.
Qed.

Lemma elapsed_Then c1 c2 : elapsed (Then c1 c2) = elapsed c1 + elapsed c2.
Proof. reflexivity. Qed.

(** While Active with a client connected, an iteration of the loop lasts
    the broadcast latency and then the tick period. *)
Lemma game_loop_iteration_elapsed now s :
  game_started s = true -> connected_clients s <> [] ->
  elapsed (game_loop_iteration now s) = SIMULATION_LATENCY + TICK_DELTA.
Proof.
  intros Hgs Hcl. unfold game_loop_iteration, broadcast_state. rewrite Hgs.
  destruct (connected_clients s) as [|c l]; [congruence|].
  cbn [negb]. rewrite !elapsed_Then.
  rewrite gather_delayed_send. simpl. lra.
Qed.

(** C1, on the state reached when two clients have connected: an iteration
    of [game_loop] is suspended for [SIMULATION_LATENCY + TICK_DELTA], that is
    25 tick periods, since it awaits the gather of the delayed sends; the
    task made for an inbound message suspends its creator for no time. *)
Theorem game_loop_awaits_delivery :
  exists s,
    run two_connects (GameServer_init 0) = Some s /\
    game_started s = true /\ connected_clients s = [0%nat; 1%nat] /\
    forall now,
      elapsed (game_loop_iteration now s) = 2 / 10 + 1 / 120 /\
      elapsed (game_loop_iteration now s) = 25 * TICK_DELTA /\
      TICK_DELTA < elapsed (game_loop_iteration now s) /\
      forall process, elapsed (handle_client_message process) = 0.
Proof.
  eexists. split; [lazy; reflexivity|].
  split; [reflexivity|]. split; [reflexivity|].
  intros now. rewrite game_loop_iteration_elapsed; [|reflexivity|discriminate].
  unfold SIMULATION_LATENCY, TICK_DELTA, TICK_RATE.
  repeat split; lra.
Qed.

End TickLoop.

(** ** The snapshot buffer *)

Section Buffer.
Import Client.

Lemma receive_message_bound m c :
  (List.length (state_buffer c) <= 40)%nat ->
  (List.length (state_buffer (receive_message m c)) <= 40)%nat.
Proof.
  intros Hlen. destruct m as [pid w h pr cr | | t ps cs]; simpl; try assumption.
  destruct (40 <? _)%nat eqn:E.
  - destruct (state_buffer c) as [|a l]; simpl in *; [lia|].
    rewrite length_app in *. simpl in *. lia.
  - apply Nat.ltb_ge in E. assumption.
Qed.

Lemma receive_messages_bound ms : forall c,
  (List.length (state_buffer c) <= 40)%nat ->
  (List.length (state_buffer (receive_messages ms c)) <= 40)%nat.
Proof.
  induction ms as [|m ms IH]; simpl; intros c Hlen; [assumption|].
  apply IH. now apply receive_message_bound.
Qed.

(** C8.  Whatever messages a client receives, its buffer never holds more
    than 40 snapshots; a [state_update] arriving at a buffer of 40 drops the
    oldest entry and puts the new one last, the others keeping their order, so
    that 40 remain; arriving at a shorter buffer it is put last and nothing is
    dropped; the other messages leave the buffer as it is. *)
Theorem snapshot_buffer_bounded :
  (forall ms,
     (List.length (state_buffer (receive_messages ms GameClient_init)) <= 40)%nat) /\
  (forall c t ps cs,
     List.length (state_buffer c) = 40%nat ->
     state_buffer (receive_message (MStateUpdate t ps cs) c)
     = tl (state_buffer c) ++ [Snapshot.mk t ps cs] /\
     List.length (state_buffer (receive_message (MStateUpdate t ps cs) c))
     = 40%nat) /\
  (forall c t ps cs,
     (List.length (state_buffer c) < 40)%nat ->
     state_buffer (receive_message (MStateUpdate t ps cs) c)
     = state_buffer c ++ [Snapshot.mk t ps cs]) /\
  (forall c m,
     (forall t ps cs, m <> MStateUpdate t ps cs) ->
     state_buffer (receive_message m c) = state_buffer c).
Proof.
  repeat apply conj.
  - intros ms. apply receive_messages_bound. simpl. lia.
  - intros c t ps cs Hlen. simpl. rewrite length_app, Hlen. simpl.
    destruct (state_buffer c) as [|a l]; [discriminate|].
    simpl in *. rewrite length_app. simpl. split; [reflexivity | lia].
  - intros c t ps cs Hlen. simpl. rewrite length_app. simpl.
    destruct (40 <? _)%nat eqn:E; [|reflexivity].
    apply Nat.ltb_lt in E. lia.
  - intros c [pid w h pr cr | | t ps cs] Hm; [reflexivity..|].
    now destruct (Hm t ps cs).
Qed.

(** A state update arriving at a full buffer. *)
Lemma snapshot_buffer_bounded_witness :
  List.length (state_buffer full_client) = 40%nat /\
  state_buffer (receive_message (MStateUpdate 1 [] []) full_client)
  = repeat (empty_snapshot 0) 39 ++ [empty_snapshot 1].
Proof.
  assert (Hlen : List.length (state_buffer full_client) = 40%nat) by reflexivity.
  split; [exact Hlen|].
  destruct snapshot_buffer_bounded as (_ & Hfull & _).
  destruct (Hfull full_client 1 [] [] Hlen) as [-> _]. reflexivity.
Defined.

End Buffer.

(** ** The interpolator *)

Section Interpolator.
Import Client.

Lemma Rleb_true a b : a <= b -> Rleb a b = true.
Proof. intros Hle. unfold Rleb. destruct (Rle_dec a b); [reflexivity | contradiction]. Qed.

Lemma Rleb_false a b : b < a -> Rleb a b = false.
Proof. intros Hlt. unfold Rleb. destruct (Rle_dec a b); [lra | reflexivity]. Qed.

(** The backward search walks over the snapshots newer than the render
    time. *)
Lemma find_bracket_skips_late rt front lates : forall k,
  Forall (late rt) lates -> (k <= List.length lates)%nat ->
  find_bracket rt (front ++ lates) (List.length front + k)
  = find_bracket rt (front ++ lates) (List.length front).
Proof.
  intros k Hlate. induction k as [|k IH]; intros Hk.
  - now rewrite Nat.add_0_r.
  - rewrite Nat.add_succ_r. cbn [find_bracket].
    rewrite nth_error_app2 by lia.
    replace (List.length front + k - List.length front)%nat with k by lia.
    destruct (nth_error lates k) as [st|] eqn:Hn.
    + rewrite Forall_forall in Hlate.
      rewrite Rleb_false by (apply Hlate; eapply nth_error_In; eassumption).
      apply IH. lia.
    + apply nth_error_None in Hn. lia.
Qed.

(** It stops at the first snapshot that is not newer. *)
Lemma find_bracket_stops rt older st rest :
  Snapshot.timestamp st <= rt ->
  find_bracket rt (older ++ st :: rest) (S (List.length older))
  = Some (st, nth_error rest 0).
Proof.
  intros Hle. cbn [find_bracket].
  rewrite nth_error_app2 by lia. rewrite Nat.sub_diag. cbn [nth_error].
  rewrite (Rleb_true Hle). f_equal. f_equal.
  rewrite length_app. cbn [List.length].
  destruct rest as [|nxt rest'].
  - cbn [List.length nth_error].
    replace (List.length older + 1 <? List.length older + 1)%nat with false;
      [reflexivity|]. symmetry. apply Nat.ltb_ge. lia.
  - replace (List.length older + 1 <?
             List.length older + S (List.length (nxt :: rest')))%nat with true
      by (symmetry; apply Nat.ltb_lt; simpl; lia).
    rewrite nth_error_app2 by lia.
    replace (List.length older + 1 - List.length older)%nat with 1%nat by lia.
    reflexivity.
Qed.

Lemma find_bracket_found rt older st lates :
  Snapshot.timestamp st <= rt -> Forall (late rt) lates ->
  find_bracket rt (older ++ st :: lates) (List.length (older ++ st :: lates))
  = Some (st, nth_error lates 0).
Proof.
  intros Hle Hlate.
  replace (older ++ st :: lates) with ((older ++ [st]) ++ lates)
    by (now rewrite <- app_assoc).
  replace (List.length ((older ++ [st]) ++ lates))
    with (List.length (older ++ [st]) + List.length lates)%nat
    by (now rewrite (length_app (older ++ [st]))).
  rewrite find_bracket_skips_late by (assumption || lia).
  rewrite <- app_assoc. rewrite length_app. cbn [List.length app].
  rewrite Nat.add_1_r. now apply find_bracket_stops.
Qed.

Lemma find_bracket_all_late rt buffer :
  Forall (late rt) buffer ->
  find_bracket rt buffer (List.length buffer) = None.
Proof.
  intros Hlate.
  apply (@find_bracket_skips_late rt [] buffer (List.length buffer) Hlate).
  lia.
Qed.

(** Every player of a rendered snapshot is a player of the snapshot. *)
Lemma dict_of_get_In (l : list PlayerView.t) pid p :
  dict_get pid (dict_of PlayerView.id l) = Some p -> In p l.
Proof.
  unfold dict_of. intros Hg. apply dict_get_In in Hg.
  enough (G : forall acc,
             In (pid, p) (fold_left (fun d v => dict_set (PlayerView.id v) v d) l acc) ->
             In (pid, p) acc \/ In p l).
  { destruct (G [] Hg) as [[]|]; assumption. }
  clear Hg. induction l as [|a l IH]; simpl; intros acc Hin; [now left|].
  destruct (IH _ Hin) as [Hacc|Hl]; [|now right; right].
  assert (S : forall d, In (pid, p) (dict_set (PlayerView.id a) a d) ->
                        In (pid, p) d \/ a = p).
  { induction d as [|[k0 v0] r IHd]; simpl.
    - intros [[= _ ->]|[]]. now right.
    - destruct (String.eqb _ k0); simpl.
      + intros [[= _ ->]|Hr]; [now right | left; now right].
      + intros [E|Hr]; [left; now left|].
        destruct (IHd Hr); [left; now right | now right]. }
  destruct (S _ Hacc); [now left | right; now left].
Qed.

Lemma values_dict_of_NoDup (l : list PlayerView.t) :
  NoDup (map PlayerView.id l) ->
  values (dict_of PlayerView.id l) = l /\
  keys (dict_of PlayerView.id l) = map PlayerView.id l.
Proof.
  intros Hnd. rewrite (dict_of_NoDup _ _ Hnd). unfold values, keys.
  rewrite !map_map. simpl. split; [apply map_id|reflexivity].
Qed.

Lemma current_display_state_default ms : forall c,
  current_display_state (receive_messages ms c) = current_display_state c.
Proof.
  induction ms as [|m ms IH]; simpl; intros c; [reflexivity|].
  rewrite IH. now destruct m.
Qed.

(** C7.  When the buffer is empty the render state is the default state,
    which stays the empty one; with one snapshot it is that snapshot; with
    several, all of them newer than the render time, it is the oldest; and
    when the newest snapshot is not newer than the render time, it is the
    newest.  In each case the coins are the snapshot's coin list and every
    rendered player is a player of the snapshot as received, all of them in
    order when their ids are distinct. *)
Theorem interpolation_fallbacks rt c :
  (state_buffer c = [] ->
   get_interpolated_state_at rt c = Some (current_display_state c)) /\
  (forall ms, current_display_state (receive_messages ms GameClient_init)
              = RenderState.mk [] []) /\
  (forall st, state_buffer c = [st] ->
   get_interpolated_state_at rt c = Some (as_render_state st)) /\
  (forall oldest rest, state_buffer c = oldest :: rest -> rest <> [] ->
   Forall (late rt) (oldest :: rest) ->
   get_interpolated_state_at rt c = Some (as_render_state oldest)) /\
  (forall older newest, state_buffer c = older ++ [newest] -> older <> [] ->
   Snapshot.timestamp newest <= rt ->
   get_interpolated_state_at rt c = Some (as_render_state newest)) /\
  (forall st,
     RenderState.coins (as_render_state st) = Snapshot.coins st /\
     (forall pid p,
        dict_get pid (RenderState.players (as_render_state st)) = Some p ->
        In p (Snapshot.players st)) /\
     (NoDup (map PlayerView.id (Snapshot.players st)) ->
      values (RenderState.players (as_render_state st)) = Snapshot.players st)).
Proof.
  unfold get_interpolated_state_at. repeat apply conj.
  - intros ->. reflexivity.
  - intros ms. now rewrite current_display_state_default.
  - intros st ->. reflexivity.
  - intros oldest rest -> Hrest Hlate.
    destruct rest as [|b rest]; [congruence|].
    cbn [List.length Nat.ltb Nat.leb].
    change (S (S (List.length rest))) with (List.length (oldest :: b :: rest)).
    now rewrite (find_bracket_all_late Hlate).
  - intros older newest -> Holder Hle.
    destruct older as [|a older]; [congruence|].
    replace (List.length ((a :: older) ++ [newest]) <? 2)%nat with false
      by (symmetry; apply Nat.ltb_ge; rewrite length_app; simpl; lia).
    rewrite (@find_bracket_found rt (a :: older) newest [] Hle) by constructor.
    reflexivity.
  - intros st. split; [reflexivity|]. split.
    + intros pid p. apply dict_of_get_In.
    + intros Hnd. apply (values_dict_of_NoDup _ Hnd).
Qed.

(** The linearity example queried after its newest and before its oldest
    snapshot. *)
Lemma interpolation_fallbacks_witness :
  get_interpolated_state_at 2 example_client = Some (as_render_state example_next)
  /\ get_interpolated_state_at (-1) example_client
     = Some (as_render_state example_prev).
Proof.
  split.
  - destruct (interpolation_fallbacks 2 example_client) as (_ & _ & _ & _ & Hnew & _).
    apply (Hnew [example_prev] example_next); [reflexivity | discriminate |].
    simpl. lra.
  - destruct (interpolation_fallbacks (-1) example_client) as (_ & _ & _ & Hold & _).
    apply (Hold example_prev [example_next]); [reflexivity | discriminate |].
    repeat constructor; unfold late; simpl; lra.
Defined.

(** Over a dictionary the loop of lines 116-129 rewrites each entry in
    place. *)
Lemma interpolate_players_map alpha prev_players (next_players : dict string PlayerView.t) :
  NoDup (keys next_players) ->
  interpolate_players alpha prev_players next_players
  = map (fun kv => (fst kv,
                    match dict_get (fst kv) prev_players with
                    | Some prev_p_data =>
                        lerp_player alpha (fst kv) prev_p_data (snd kv)
                    | None => snd kv
                    end))
        next_players.
Proof.
  unfold interpolate_players. intros Hnd.
  set (g := fun kv : string * PlayerView.t =>
              (fst kv, match dict_get (fst kv) prev_players with
                       | Some prev_p_data =>
                           lerp_player alpha (fst kv) prev_p_data (snd kv)
                       | None => snd kv
                       end)).
  enough (G : forall acc,
             (forall k, In k (keys next_players) -> ~ In k (keys acc)) ->
             fold_left
               (fun interpolated_players '(pid, next_p_data) =>
                  match dict_get pid prev_players with
                  | Some prev_p_data =>
                      dict_set pid (lerp_player alpha pid prev_p_data next_p_data)
                               interpolated_players
                  | None => dict_set pid next_p_data interpolated_players
                  end)
               next_players acc
             = acc ++ map g next_players).
  { apply (G []). simpl. tauto. }
  induction next_players as [|[pid np] r IH]; simpl; intros acc Hfresh.
  - now rewrite app_nil_r.
  - inversion Hnd as [|? ? Hn Hr]; subst.
    assert (Hacc : ~ In pid (keys acc)) by (apply Hfresh; now left).
    rewrite (IH Hr).
    + unfold g at 2. simpl.
      destruct (dict_get pid prev_players);
        rewrite dict_set_fresh by exact Hacc; rewrite <- app_assoc; reflexivity.
    + intros k Hk.
      destruct (dict_get pid prev_players);
        rewrite keys_dict_set_incl; intros [->|Hin];
        solve [ exact (Hn Hk) | apply (Hfresh k); [now right | assumption] ].
Qed.

Lemma interpolation_alpha_total rt prev_state next_state :
  interpolation_alpha rt prev_state next_state
  = Some (alpha_of rt prev_state next_state).
Proof.
  unfold interpolation_alpha, alpha_of, Reqb, py_div.
  destruct (Req_dec_T _ 0); reflexivity.
Qed.

(** C6.  The interpolation factor is defined for all snapshots, and is 0
    when their timestamps are equal.  When the buffer holds a snapshot [prev]
    not newer than the render time, followed by [next] and only by snapshots
    newer than the render time, the render state is computed with the factor
    [(rt - prev.timestamp) / (next.timestamp - prev.timestamp)], which lies in
    [[0, 1)]; its coins are those of [next]; its players are those of [next],
    in order; a player of [next] that [prev] has too stands at
    [prev + (next - prev) * alpha] with the score and color it has in
    [next]; a player that [prev] does not have is the record of [next]. *)
Theorem interpolation_between_snapshots rt c older prev_state next_state newer :
  (forall t p n, interpolation_alpha t p n = Some (alpha_of t p n)) /\
  (forall t p n, Snapshot.timestamp n = Snapshot.timestamp p -> alpha_of t p n = 0) /\
  (state_buffer c = older ++ prev_state :: next_state :: newer ->
   Snapshot.timestamp prev_state <= rt ->
   Forall (late rt) (next_state :: newer) ->
   NoDup (map PlayerView.id (Snapshot.players prev_state)) ->
   NoDup (map PlayerView.id (Snapshot.players next_state)) ->
   let alpha := (rt - Snapshot.timestamp prev_state)
                / (Snapshot.timestamp next_state - Snapshot.timestamp prev_state) in
   0 <= alpha < 1 /\
   exists r,
     get_interpolated_state_at rt c = Some r /\
     RenderState.coins r = Snapshot.coins next_state /\
     keys (RenderState.players r)
     = map PlayerView.id (Snapshot.players next_state) /\
     forall np, In np (Snapshot.players next_state) ->
       (forall pp, In pp (Snapshot.players prev_state) ->
          PlayerView.id pp = PlayerView.id np ->
          dict_get (PlayerView.id np) (RenderState.players r)
          = Some (PlayerView.mk
                    (PlayerView.id np)
                    (PlayerView.x pp + (PlayerView.x np - PlayerView.x pp) * alpha)
                    (PlayerView.y pp + (PlayerView.y np - PlayerView.y pp) * alpha)
                    (PlayerView.score np) (PlayerView.color np))) /\
       ((forall pp, In pp (Snapshot.players prev_state) ->
           PlayerView.id pp <> PlayerView.id np) ->
        dict_get (PlayerView.id np) (RenderState.players r) = Some np)).
Proof.
  split; [intros; apply interpolation_alpha_total|].
  split.
  { intros t p n E. unfold alpha_of. rewrite E.
    destruct (Req_dec_T _ 0) as [_|Hne]; [reflexivity|]. exfalso. apply Hne. ring. }
  intros Hbuf Hprev Hlate Hndp Hndn alpha.
  assert (Hnext : rt < Snapshot.timestamp next_state)
    by (inversion Hlate; assumption).
  assert (Hdiff : 0 < Snapshot.timestamp next_state - Snapshot.timestamp prev_state)
    by lra.
  split.
  { unfold alpha. split.
    - apply Rmult_le_pos; [lra|]. left. now apply Rinv_0_lt_compat.
    - apply (Rmult_lt_reg_r _ _ _ Hdiff). unfold Rdiv.
      rewrite Rmult_assoc, Rinv_l by lra. lra. }
  assert (Halpha : alpha_of rt prev_state next_state = alpha).
  { unfold alpha_of. destruct (Req_dec_T _ 0); [lra | reflexivity]. }
  unfold get_interpolated_state_at. rewrite Hbuf.
  replace (List.length (older ++ prev_state :: next_state :: newer) <? 2)%nat
    with false
    by (symmetry; apply Nat.ltb_ge; rewrite length_app; simpl; lia).
  rewrite (@find_bracket_found rt older prev_state (next_state :: newer) Hprev Hlate).
  cbn [nth_error].
  rewrite interpolation_alpha_total, Halpha.
  eexists. split; [reflexivity|]. cbn [RenderState.coins RenderState.players].
  rewrite (dict_of_NoDup _ _ Hndp), (dict_of_NoDup _ _ Hndn).
  set (prevd := map (fun v => (PlayerView.id v, v)) (Snapshot.players prev_state)).
  set (nextd := map (fun v => (PlayerView.id v, v)) (Snapshot.players next_state)).
  assert (Hkn : keys nextd = map PlayerView.id (Snapshot.players next_state))
    by (unfold keys, nextd; now rewrite map_map).
  assert (Hkp : keys prevd = map PlayerView.id (Snapshot.players prev_state))
    by (unfold keys, prevd; now rewrite map_map).
  rewrite interpolate_players_map by (now rewrite Hkn).
  split; [reflexivity|]. split.
  { unfold keys. rewrite map_map. exact Hkn. }
  intros np Hnp.
  assert (Hget : forall v,
             v = match dict_get (PlayerView.id np) prevd with
                 | Some pp => lerp_player alpha (PlayerView.id np) pp np
                 | None => np
                 end ->
             dict_get (PlayerView.id np)
               (map (fun kv => (fst kv,
                                match dict_get (fst kv) prevd with
                                | Some pp => lerp_player alpha (fst kv) pp (snd kv)
                                | None => snd kv
                                end)) nextd)
             = Some v).
  { intros v ->. apply In_dict_get.
    - unfold keys. rewrite map_map. cbn [fst]. change (NoDup (keys nextd)).
      now rewrite Hkn.
    - apply in_map_iff. exists (PlayerView.id np, np). split; [reflexivity|].
      unfold nextd. apply in_map_iff. now exists np. }
  split.
  - intros pp Hpp Hid. apply Hget.
    rewrite (@In_dict_get _ _ _ prevd (PlayerView.id np) pp).
    + reflexivity.
    + now rewrite Hkp.
    + unfold prevd. apply in_map_iff. exists pp. now rewrite Hid.
  - intros Hnone. apply Hget.
    replace (dict_get (PlayerView.id np) prevd) with (@None PlayerView.t);
      [reflexivity|].
    symmetry. apply dict_get_None. rewrite Hkp. rewrite in_map_iff.
    intros (pp & Hid & Hpp). exact (Hnone pp Hpp Hid).
Qed.

(** The linearity example: half way between the two snapshots the player
    that both have is rendered at [0 + (10 - 0) * 0.5], with the score of the
    newer one, and the player that just joined is passed through. *)
Lemma interpolation_between_snapshots_witness :
  exists r,
    get_interpolated_state_at (1 / 2) example_client = Some r /\
    RenderState.coins r = [CoinView.mk "coin_0" 100 100] /\
    keys (RenderState.players r) = ["player_0"%string; "player_1"%string] /\
    dict_get "player_0"%string (RenderState.players r)
    = Some (PlayerView.mk "player_0" (0 + (10 - 0) * ((1 / 2 - 0) / (1 - 0)))
                          (0 + (0 - 0) * ((1 / 2 - 0) / (1 - 0))) 1%Z white) /\
    dict_get "player_1"%string (RenderState.players r)
    = Some (PlayerView.mk "player_1" 40 40 0%Z white).
Proof.
  destruct (interpolation_between_snapshots
              (1 / 2) example_client [] example_prev example_next [])
    as (_ & _ & Hmid).
  destruct Hmid as (_ & r & Hr & Hcoins & Hkeys & Hplayers).
  - reflexivity.
  - simpl. lra.
  - repeat constructor. unfold late. simpl. lra.
  - repeat constructor. simpl. tauto.
  - repeat constructor; simpl; intuition discriminate.
  - exists r. split; [exact Hr|]. split; [exact Hcoins|]. split; [exact Hkeys|].
    split.
    + apply (proj1 (Hplayers (PlayerView.mk "player_0" 10 0 1%Z white)
                             (or_introl eq_refl))
                   (PlayerView.mk "player_0" 0 0 0%Z white));
        [now left | reflexivity].
    + apply (proj2 (Hplayers (PlayerView.mk "player_1" 40 40 0%Z white)
                             (or_intror (or_introl eq_refl)))).
      intros pp [<-|[]]. discriminate.
Defined.

End Interpolator.

(** * Further properties *)

Unset Implicit Arguments.

(** ** More on dictionaries and sets *)

Section MoreDictFacts.
Context {K V : Type} `{Hashable K}.
Implicit Types (d : dict K V) (k : K) (v : V).

Lemma set_mem_In k (l : list K) : set_mem k l = true <-> In k l.
Proof.
  unfold set_mem. rewrite existsb_exists. split.
  - intros (k' & Hin & E). destruct (key_eqb_spec k k'); congruence.
  - intros Hin. exists k. split; [assumption | apply key_eqb_refl].
Qed.

Lemma set_mem_notin k (l : list K) : set_mem k l = false <-> ~ In k l.
Proof.
  rewrite <- set_mem_In. destruct (set_mem k l); split; congruence.
Qed.

Lemma keys_dict_set d k v : keys (dict_set k v d) = set_add k (keys d).
Proof.
  unfold set_add. induction d as [|[k0 v0] r IH]; simpl; [reflexivity|].
  destruct (key_eqb k k0) eqn:E; simpl.
  - destruct (key_eqb_spec k k0); [subst; reflexivity | discriminate].
  - fold (keys r). fold (keys (dict_set k v r)). rewrite IH.
    fold (set_mem k (keys r)). destruct (set_mem k (keys r)); reflexivity.
Qed.

Lemma set_discard_notin k (l : list K) : ~ In k l -> set_discard k l = l.
Proof.
  unfold set_discard. induction l as [|a l IH]; simpl; intros Hn; [reflexivity|].
  rewrite key_eqb_neq by (intros ->; tauto). simpl. rewrite IH by tauto.
  reflexivity.
Qed.

Lemma keys_dict_del d k :
  NoDup (keys d) -> keys (dict_del k d) = set_discard k (keys d).
Proof.
  induction d as [|[k0 v0] r IH]; simpl; intros Hnd; [reflexivity|].
  inversion Hnd as [|? ? Hn Hr]; subst.
  destruct (key_eqb_spec k k0) as [->|Hne]; simpl.
  - fold (keys r). now rewrite (set_discard_notin k0 (keys r) Hn).
  - f_equal. now apply IH.
Qed.

Lemma set_discard_In k k' (l : list K) :
  In k' (set_discard k l) <-> In k' l /\ k' <> k.
Proof.
  unfold set_discard. rewrite filter_In.
  destruct (key_eqb_spec k k') as [->|Hne]; simpl; intuition congruence.
Qed.

Lemma NoDup_set_add k (l : list K) : NoDup l -> NoDup (set_add k l).
Proof.
  intros Hnd. unfold set_add. destruct (set_mem k l) eqn:E; [assumption|].
  apply set_mem_notin in E. apply NoDup_app; [assumption | repeat constructor; tauto |].
  intros a Ha [<-|[]]. contradiction.
Qed.

Lemma NoDup_set_discard k (l : list K) : NoDup l -> NoDup (set_discard k l).
Proof. intros Hnd. now apply NoDup_filter. Qed.

Lemma dict_get_del_eq d k : NoDup (keys d) -> dict_get k (dict_del k d) = None.
Proof.
  intros Hnd. apply dict_get_None. rewrite (keys_dict_del d k Hnd).
  rewrite set_discard_In. tauto.
Qed.

Lemma dict_get_del_other d k k' :
  k' <> k -> dict_get k' (dict_del k d) = dict_get k' d.
Proof.
  intros Hne. induction d as [|[k0 v0] r IH]; simpl; [reflexivity|].
  destruct (key_eqb_spec k k0) as [->|Hk]; simpl.
  - now rewrite key_eqb_neq.
  - now rewrite IH.
Qed.

Lemma dict_set_twice d k v v' : dict_set k v' (dict_set k v d) = dict_set k v' d.
Proof.
  induction d as [|[k0 v0] r IH]; simpl.
  - now rewrite key_eqb_refl.
  - destruct (key_eqb k k0) eqn:E; simpl.
    + now rewrite key_eqb_refl.
    + now rewrite E, IH.
Qed.

Lemma Forall_dict_set (P : K * V -> Prop) d k v :
  Forall P d -> P (k, v) -> Forall P (dict_set k v d).
Proof.
  induction d as [|[k0 v0] r IH]; simpl; intros Hd Hp.
  - now repeat constructor.
  - inversion Hd; subst. destruct (key_eqb k k0); constructor; auto.
Qed.

Lemma dict_del_sublist d k : incl (dict_del k d) d.
Proof.
  induction d as [|[k0 v0] r IH]; simpl; [apply incl_refl|].
  destruct (key_eqb k k0).
  - apply incl_tl, incl_refl.
  - intros a [<-|Hin]; [now left | right; now apply IH].
Qed.

Lemma length_dict_set_le d k v :
  (List.length d <= List.length (dict_set k v d) <= S (List.length d))%nat.
Proof.
  induction d as [|[k0 v0] r IH]; simpl; [lia|].
  destruct (key_eqb k k0); simpl; lia.
Qed.

End MoreDictFacts.

(** ** The stores of the server *)

Section Stores.
Import Server.

Lemma str_inj n m : str n = str m -> n = m.
Proof.
  unfold str. intros E. apply Unsigned.to_uint_inj.
  assert (E' : Some (Nat.to_uint n) = Some (Nat.to_uint m))
    by (rewrite <- !NilEmpty.usu; now rewrite E).
  now injection E'.
Qed.

Lemma coin_name_S n k : coin_name n k -> coin_name (S n) k.
Proof. intros (i & Hi & ->). exists i. split; [lia | reflexivity]. Qed.

(** The next coin name is not in use. *)
Lemma next_coin_fresh s :
  Forall (coin_name (coin_counter s)) (keys (coins s)) ->
  ~ In ("coin_" ++ str (coin_counter s))%string (keys (coins s)).
Proof.
  intros Hnames Hin. rewrite Forall_forall in Hnames.
  destruct (Hnames _ Hin) as (i & Hi & E). simpl in E. injection E as E.
  apply str_inj in E. lia.
Qed.

Lemma spawn_coin_appends xy s :
  Forall (coin_name (coin_counter s)) (keys (coins s)) ->
  coins (fst (spawn_coin xy s))
  = coins s ++ [(snd (spawn_coin xy s),
                 Coin.mk (snd (spawn_coin xy s)) (fst xy) (snd xy))].
Proof.
  intros Hnames. cbn [spawn_coin fst snd coins].
  apply dict_set_fresh. now apply next_coin_fresh.
Qed.

Lemma spawn_coin_wf xy s : coins_wf s -> coins_wf (fst (spawn_coin xy s)).
Proof.
  intros (Hnd & Hkeyed & Hnames).
  unfold coins_wf. rewrite (spawn_coin_appends xy s Hnames).
  cbn [spawn_coin fst snd coin_counter].
  repeat split.
  - unfold keys. rewrite map_app. simpl. apply NoDup_app.
    + exact Hnd.
    + repeat constructor. tauto.
    + intros k Hk [<-|[]]. exact (next_coin_fresh s Hnames Hk).
  - apply Forall_app. split; [assumption | repeat constructor].
  - unfold keys. rewrite map_app. apply Forall_app. split.
    + eapply Forall_impl; [|exact Hnames]. intros k. apply coin_name_S.
    + repeat constructor. exists (coin_counter s). split; [lia | reflexivity].
Qed.

(** [spawn_coin] touches the coins and their counter only. *)
Lemma spawn_coin_frame xy s :
  players (fst (spawn_coin xy s)) = players s /\
  connected_clients (fst (spawn_coin xy s)) = connected_clients s /\
  player_id_map (fst (spawn_coin xy s)) = player_id_map s /\
  game_started (fst (spawn_coin xy s)) = game_started s /\
  stop_event (fst (spawn_coin xy s)) = stop_event s.
Proof. repeat split. Qed.

Lemma spawn_batch_wf (draws : nat -> R * R) l : forall s,
  coins_wf s ->
  let s' := fold_left (fun st i => fst (spawn_coin (draws i) st)) l s in
  coins_wf s' /\ players s' = players s /\
  connected_clients s' = connected_clients s /\
  player_id_map s' = player_id_map s /\ stop_event s' = stop_event s.
Proof.
  induction l as [|i l IH]; intros s Hwf; cbv zeta.
  - split; [assumption | repeat split].
  - cbn [fold_left].
    destruct (IH (fst (spawn_coin (draws i) s)) (spawn_coin_wf _ _ Hwf))
      as (Hc & Hp & Hcl & Hm & Hst).
    split; [exact Hc | repeat split; assumption].
Qed.

(** What a connect does to each store. *)
Lemma connect_stores ws x y col now draws s :
  coins_wf s ->
  let s' := fst (fst (handle_client_connect ws x y col now draws s)) in
  let pid := snd (fst (handle_client_connect ws x y col now draws s)) in
  coins_wf s' /\
  connected_clients s' = set_add ws (connected_clients s) /\
  player_id_map s' = dict_set ws pid (player_id_map s) /\
  stop_event s' = stop_event s /\
  pid = ("player_" ++ str (List.length (players s)))%string.
Proof.
  intros Hwf. unfold handle_client_connect.
  destruct (_ && _).
  - cbn [fst snd].
    match goal with
    | |- context [fold_left ?f ?l ?s0] =>
        destruct (spawn_batch_wf draws l s0 Hwf) as (Hc & Hp & Hcl & Hm & Hst)
    end.
    cbv zeta in *. split; [exact Hc | repeat split; assumption].
  - destruct (game_started _); cbn [fst snd]; (split; [exact Hwf | repeat split]).
Qed.

Lemma remove_coins_incl rm : forall cs : dict string Coin.t,
  incl (remove_coins rm cs) cs.
Proof.
  unfold remove_coins. induction rm as [|k rm IH]; simpl; intros cs.
  - apply incl_refl.
  - eapply incl_tran; [apply IH | apply dict_del_sublist].
Qed.

Lemma spawn_due_wf now xy s : coins_wf s -> coins_wf (spawn_due now xy s).
Proof.
  intros Hwf. unfold spawn_due. destruct (Rlt_dec _ _); [|assumption].
  exact (spawn_coin_wf xy s Hwf).
Qed.

Lemma move_player_identity k p p' :
  move_player p = Some p' -> identity_entry (k, p') = identity_entry (k, p).
Proof.
  unfold move_player.
  destruct (velocity (Player.input_x p) (Player.input_y p)) as [[vx vy]|];
    [|discriminate].
  now intros [= <-].
Qed.

Lemma move_players_identity ps : forall moved,
  move_players ps = Some moved ->
  map identity_entry moved = map identity_entry ps.
Proof.
  induction ps as [|[k p] r IH]; simpl; intros moved Hm.
  - now injection Hm as <-.
  - destruct (move_player p) as [p'|] eqn:Hp; [|discriminate].
    destruct (move_players r) as [r'|]; [|discriminate].
    injection Hm as <-. simpl.
    now rewrite (move_player_identity k p p' Hp), (IH r' eq_refl).
Qed.

Lemma award_identity c ps : forall ps1,
  award c ps = Some ps1 -> map identity_entry ps1 = map identity_entry ps.
Proof.
  induction ps as [|[k p] r IH]; simpl; intros ps1; [discriminate|].
  destruct (touches c p).
  - now intros [= <-].
  - destruct (award c r) as [r'|]; [|discriminate].
    intros [= <-]. simpl. now rewrite (IH r' eq_refl).
Qed.

Lemma scan_identity cs : forall ps acc,
  map identity_entry (fst (scan cs ps acc)) = map identity_entry ps.
Proof.
  induction cs as [|[cid c] r IH]; simpl; intros ps acc; [reflexivity|].
  destruct (award c ps) as [ps1|] eqn:Haw.
  - rewrite IH. exact (award_identity c ps ps1 Haw).
  - apply IH.
Qed.

(** A simulation step creates and removes no player and changes no id,
    color or input. *)
Lemma update_identity now xy s s' :
  update_game_state now xy s = Some s' ->
  map identity_entry (players s') = map identity_entry (players s).
Proof.
  intros Hu. destruct (@update_players now xy s s' Hu) as (moved & Hm & ->).
  rewrite scan_identity. exact (move_players_identity _ _ Hm).
Qed.

Lemma identity_players_wf (a b : dict string Player.t) :
  map identity_entry a = map identity_entry b ->
  (NoDup (keys b) /\ Forall player_keyed b) ->
  NoDup (keys a) /\ Forall player_keyed a.
Proof.
  intros E [Hnd Hk].
  assert (Hkeys : keys a = keys b).
  { assert (G : forall l : dict string Player.t,
               keys l = map (fun e => fst (fst (fst (fst e))))
                            (map identity_entry l))
      by (intros l; rewrite map_map; reflexivity).
    now rewrite (G a), (G b), E. }
  split; [now rewrite Hkeys|].
  clear Hnd Hkeys. revert b E Hk.
  induction a as [|x a IH]; intros [|z b] E Hk; simpl in E;
    try discriminate; constructor.
  - inversion Hk as [|? ? Hz _]; subst. injection E as E1 E2 _ _ _ _.
    unfold player_keyed in *. congruence.
  - inversion Hk; subst. injection E as _ _ _ _ _ E. now apply (IH b).
Qed.

Lemma update_coins now xy s s' :
  update_game_state now xy s = Some s' ->
  (exists rm, coins s' = remove_coins rm (coins (spawn_due now xy s))) /\
  incl (coins s') (coins (spawn_due now xy s)) /\
  coin_counter s' = coin_counter (spawn_due now xy s) /\
  connected_clients s' = connected_clients s /\
  player_id_map s' = player_id_map s /\
  game_started s' = game_started s /\
  stop_event s' = stop_event s.
Proof.
  unfold update_game_state, collect.
  destruct (move_players _) as [moved|]; [|discriminate].
  destruct (scan _ moved []) as [ps1 rm].
  intros [= <-]. cbn [coins coin_counter connected_clients player_id_map
                       game_started stop_event with_coins with_players].
  split; [now exists rm|]. split; [apply remove_coins_incl|].
  unfold spawn_due. destruct (Rlt_dec _ _); repeat split.
Qed.

Lemma Forall_keys_incl (P : string -> Prop) (a b : dict string Coin.t) :
  incl a b -> Forall P (keys b) -> Forall P (keys a).
Proof.
  intros Hincl Hb. rewrite Forall_forall in *. intros k Hk.
  unfold keys in Hk. apply in_map_iff in Hk. destruct Hk as (kc & <- & Hin).
  apply Hb. unfold keys. apply in_map. now apply Hincl.
Qed.

Lemma players_wf_init now : players_wf (GameServer_init now).
Proof. split; constructor. Qed.

(** X1.  In every reachable state the players have distinct ids and each
    record is stored under its own id; the same holds of the coins, whose
    names are ["coin_n"] for [n] below the coin counter; and the sockets
    that have an entry in [player_id_map] are exactly the connected clients,
    each once. *)
Theorem reachable_stores_wf s :
  reachable s -> players_wf s /\ coins_wf s /\ clients_wf s.
Proof.
  induction 1 as [now | s e s' sent Hr (Hp & Hc & Hcl) Hstep].
  { repeat split; constructor. }
  destruct e as [ws x y col now draws | ws | ws ix iy | now xy]; simpl in Hstep.
  - pose proof (connect_players ws x y col now draws s) as Hps.
    pose proof (connect_stores ws x y col now draws s Hc) as Hst.
    destruct (handle_client_connect ws x y col now draws s) as [[s1 pid] out].
    injection Hstep as <- _. cbn [fst snd] in *.
    destruct Hst as (Hc1 & Hcl1 & Hm1 & _ & _).
    destruct Hp as [Hnd Hk]. destruct Hcl as [Hkm Hndc].
    split; [|split; [exact Hc1|]].
    + unfold players_wf. rewrite Hps. split.
      * now apply NoDup_dict_set.
      * apply Forall_dict_set; [assumption | reflexivity].
    + unfold clients_wf. rewrite Hcl1, Hm1, keys_dict_set, Hkm.
      split; [reflexivity | now apply NoDup_set_add].
  - destruct (dict_get ws (player_id_map s)) as [pid|];
      injection Hstep as <- _; [|repeat split; (apply Hp || apply Hc || apply Hcl)].
    destruct Hp as [Hnd Hk]. destruct Hcl as [Hkm Hndc].
    split; [|split; [exact Hc|]].
    + unfold players_wf. cbn [handle_client_finally players].
      destruct (dict_mem pid (players s)); [|split; assumption].
      split; [now apply NoDup_dict_del|].
      rewrite Forall_forall in *. intros kp Hin. apply Hk.
      exact (dict_del_sublist _ _ _ Hin).
    + unfold clients_wf. cbn [handle_client_finally player_id_map connected_clients].
      rewrite keys_dict_del by (now rewrite Hkm). rewrite Hkm.
      split; [reflexivity | now apply NoDup_set_discard].
  - injection Hstep as <- _. unfold process_delayed_message.
    destruct (dict_get ws (player_id_map s)) as [pid|];
      [|repeat split; (apply Hp || apply Hc || apply Hcl)].
    destruct (dict_get pid (players s)) as [p|] eqn:Hg;
      [|repeat split; (apply Hp || apply Hc || apply Hcl)].
    split; [|split; [exact Hc | exact Hcl]].
    destruct Hp as [Hnd Hk]. unfold players_wf. cbn [with_players players].
    split; [now apply NoDup_dict_set|].
    apply Forall_dict_set; [assumption|].
    apply dict_get_In in Hg. rewrite Forall_forall in Hk.
    exact (Hk _ Hg).
  - destruct (stop_event s);
      [injection Hstep as <- _; repeat split; (apply Hp || apply Hc || apply Hcl)|].
    destruct (game_started s);
      [|injection Hstep as <- _; repeat split; (apply Hp || apply Hc || apply Hcl)].
    destruct (update_game_state now xy s) as [s1|] eqn:Hu; [|discriminate].
    injection Hstep as <- _.
    destruct (update_coins now xy s s1 Hu)
      as ([rm Hrm] & Hincl & Hn & Hcl1 & Hm1 & _ & _).
    destruct (spawn_due_wf now xy s Hc) as (Hnd1 & Hk1 & Hnm1).
    split; [|split].
    + exact (identity_players_wf _ _ (update_identity now xy s s1 Hu) Hp).
    + unfold coins_wf. rewrite Hn. repeat split.
      * rewrite Hrm. now apply NoDup_remove_coins.
      * rewrite Forall_forall in *. intros kc Hin. apply Hk1. now apply Hincl.
      * exact (Forall_keys_incl _ _ _ Hincl Hnm1).
    + unfold clients_wf. rewrite Hcl1, Hm1. exact Hcl.
Qed.

Lemma two_connected_reachable : reachable two_connected.
Proof.
  apply (@run_reachable two_connects (GameServer_init 0));
    [apply reachable_init | lazy; reflexivity].
Qed.

(** The stores of the session that two clients have started. *)
Lemma reachable_stores_wf_witness :
  reachable two_connected /\
  players_wf two_connected /\ coins_wf two_connected /\
  clients_wf two_connected.
Proof.
  split; [exact two_connected_reachable|].
  exact (reachable_stores_wf two_connected two_connected_reachable).
Defined.

End Stores.

(** ** A handshake that fails *)

Section Handshake.
Import Server.

(** What a handler has stored when its [init] message is sent is what a
    completed connect stores. *)
Lemma connect_registers ws x y col now draws s :
  let s' := fst (fst (handle_client_connect ws x y col now draws s)) in
  players s' = players (handle_client_init_raises ws x y col s) /\
  connected_clients s'
  = connected_clients (handle_client_init_raises ws x y col s) /\
  player_id_map s' = player_id_map (handle_client_init_raises ws x y col s).
Proof.
  cbv zeta. unfold handle_client_connect, handle_client_init_raises.
  cbn [players game_started].
  destruct ((_ =? 2)%nat && negb (game_started s)); [repeat split|].
  destruct (game_started s); repeat split.
Qed.

Lemma keys_app {V} (a b : dict string V) : keys (a ++ b) = keys a ++ keys b.
Proof. apply map_app. Qed.

(** In a session that is stuck the next player id is not in use. *)
Lemma stuck_waiting_fresh s :
  stuck_waiting s ->
  exists n, (2 <= n)%nat /\ List.length (players s) = n /\
    keys (players s) = map (fun i => ("player_" ++ str i)%string) (seq 0 n) /\
    forall p, dict_set ("player_" ++ str n)%string p (players s)
              = players s ++ [(("player_" ++ str n)%string, p)].
Proof.
  intros (Hgs & Hcs & n & Hn & Hk). exists n.
  assert (Hlen : List.length (players s) = n).
  { rewrite <- (length_map fst (players s)).
    change (map fst (players s)) with (keys (players s)).
    now rewrite Hk, length_map, length_seq. }
  repeat split; [assumption..|].
  intros p. apply dict_set_fresh.
  rewrite Hk, in_map_iff. intros (i & E & Hi). apply in_seq in Hi.
  simpl in E. injection E as E. apply str_inj in E. lia.
Qed.

Lemma stuck_waiting_length s ws x y col :
  stuck_waiting s ->
  List.length (players (handle_client_init_raises ws x y col s))
  = S (List.length (players s)).
Proof.
  intros Hs. destruct (stuck_waiting_fresh s Hs) as (n & _ & Hlen & _ & Hset).
  unfold handle_client_init_raises. cbn [players].
  rewrite Hlen, Hset, length_app. cbn [List.length]. unfold dict in *. lia.
Qed.

(** In a session that is stuck, a connect brings one more player, sends
    its [init] message and nothing else, and leaves the session stuck. *)
Lemma stuck_waiting_connect s ws x y col now draws :
  stuck_waiting s ->
  step (Connect ws x y col now draws) s
  = Some (handle_client_init_raises ws x y col s,
          [(ws, init_msg ("player_" ++ str (List.length (players s))))]) /\
  stuck_waiting (handle_client_init_raises ws x y col s).
Proof.
  intros Hs.
  destruct (stuck_waiting_fresh s Hs) as (n & Hn & Hlen & Hk & Hset).
  destruct Hs as (Hgs & Hcs & _).
  split.
  - cbn [step]. unfold handle_client_connect, handle_client_init_raises.
    cbn [players game_started]. rewrite Hlen, Hset, Hgs, length_app.
    cbn [List.length negb]. unfold dict in *. rewrite Hlen.
    replace (n + 1 =? 2)%nat with false
      by (symmetry; apply Nat.eqb_neq; lia).
    reflexivity.
  - unfold stuck_waiting, handle_client_init_raises.
    cbn [players game_started coins]. rewrite Hlen, Hset.
    repeat split; [assumption..|].
    exists (S n). split; [lia|].
    rewrite keys_app, Hk, seq_S, map_app. reflexivity.
Qed.

(** C9.  When the second client is gone by the time its [init] message is
    sent, the send of line 162 raises outside every [try]: the player that
    lines 150-152 have stored stays, so that two players are present, but
    the session still waits and no coin exists; and from then on every
    connect, however many follow, is sent its [init] message alone and
    leaves the session waiting without a coin.  The connect that brings the
    number of players to two has not started the session, and no later one
    does. *)
Theorem init_send_failure_blocks_start :
  (keys (players second_handshake_fails)
   = ["player_0"%string; "player_1"%string] /\
   connected_clients second_handshake_fails = [0%nat; 1%nat] /\
   game_started second_handshake_fails = false /\
   coins second_handshake_fails = []) /\
  (forall es s',
     Forall is_connect es -> run es second_handshake_fails = Some s' ->
     game_started s' = false /\ coins s' = [] /\
     List.length (players s') = (2 + List.length es)%nat) /\
  (forall es s' ws x y col now draws,
     Forall is_connect es -> run es second_handshake_fails = Some s' ->
     exists s'',
       step (Connect ws x y col now draws) s'
       = Some (s'', [(ws, init_msg ("player_"
                                     ++ str (2 + List.length es)))])).
Proof.
  assert (H0 : stuck_waiting second_handshake_fails).
  { repeat split. exists 2%nat. split; [lia | reflexivity]. }
  assert (Hrun : forall es s s',
             Forall is_connect es -> stuck_waiting s -> run es s = Some s' ->
             stuck_waiting s' /\
             List.length (players s')
             = (List.length (players s) + List.length es)%nat).
  { induction es as [|e es IH]; intros s s' Hall Hs Hr.
    - injection Hr as <-. split; [assumption | cbn; lia].
    - inversion Hall as [|? ? He Hes]; subst.
      destruct e as [ws x y col now draws| | |]; try destruct He.
      cbn [run] in Hr.
      destruct (stuck_waiting_connect s ws x y col now draws Hs)
        as [Hstep Hs1].
      rewrite Hstep in Hr.
      destruct (IH _ _ Hes Hs1 Hr) as [Hs' Hlen]. split; [assumption|].
      rewrite Hlen, (stuck_waiting_length s ws x y col Hs).
      cbn [List.length]. lia. }
  split; [repeat split|]. split.
  - intros es s' Hall Hr.
    destruct (Hrun es _ s' Hall H0 Hr) as ((Hgs & Hcs & _) & Hlen).
    repeat split; [assumption..|]. rewrite Hlen. reflexivity.
  - intros es s' ws x y col now draws Hall Hr.
    destruct (Hrun es _ s' Hall H0 Hr) as (Hs' & Hlen).
    destruct (stuck_waiting_connect s' ws x y col now draws Hs') as [Hstep _].
    eexists. rewrite Hstep, Hlen. reflexivity.
Qed.

(** A third client connects after the failed handshake. *)
Lemma init_send_failure_blocks_start_witness :
  Forall is_connect [Connect 2%nat 300 300 blue 12 draws0] /\
  exists s',
    run [Connect 2%nat 300 300 blue 12 draws0] second_handshake_fails
    = Some s' /\
    game_started s' = false /\ coins s' = [] /\
    List.length (players s') = 3%nat.
Proof.
  assert (Hall : Forall is_connect [Connect 2%nat 300 300 blue 12 draws0])
    by (repeat constructor).
  split; [exact Hall|].
  eexists. split; [lazy; reflexivity|].
  refine (proj1 (proj2 init_send_failure_blocks_start) _ _ Hall _).
  lazy; reflexivity.
Defined.

End Handshake.

(** ** Connections, disconnections and inputs *)

Section Lifecycle.
Import Server.

(** The stop signal is only ever set in an Active session. *)
Lemma reachable_stop_started s :
  reachable s -> stop_event s = true -> game_started s = true.
Proof.
  induction 1 as [now | s e s' sent Hr IH Hstep]; [discriminate|].
  destruct (game_started s) eqn:Hgs.
  { intros _. exact (@game_started_stays e s s' sent Hstep Hgs). }
  destruct (stop_event s) eqn:Hst; [now specialize (IH eq_refl)|].
  destruct e as [ws x y col now draws | ws | ws ix iy | now xy]; simpl in Hstep.
  - pose proof (connect_stores ws x y col now draws s) as G.
    destruct (handle_client_connect ws x y col now draws s) as [[s1 pid] out] eqn:Hc.
    injection Hstep as <- _. unfold handle_client_connect in Hc.
    rewrite Hgs in Hc. cbn [game_started negb] in Hc.
    destruct (_ && true); injection Hc as <- _ _; cbn; congruence.
  - destruct (dict_get ws (player_id_map s)) as [pid|];
      injection Hstep as <- _; cbn; rewrite ?Hgs, ?Hst; cbn; congruence.
  - injection Hstep as <- _. unfold process_delayed_message.
    destruct (dict_get ws (player_id_map s)) as [pid|]; [|congruence].
    destruct (dict_get pid (players s)); cbn; congruence.
  - rewrite Hst, Hgs in Hstep. injection Hstep as <- _. congruence.
Qed.

(** X2.  The stop signal, once set, stays set; it is set by nothing but the
    disconnection of a client of an Active session that leaves the player
    store empty, and by every such disconnection; in particular it is never
    set while the session waits, nor by a disconnection that leaves a
    player. *)
Theorem stop_event_lifecycle s e s' sent :
  reachable s -> step e s = Some (s', sent) ->
  (stop_event s = true -> stop_event s' = true) /\
  (stop_event s = false ->
   (stop_event s' = true <->
    exists ws pid, e = Disconnect ws /\
      dict_get ws (player_id_map s) = Some pid /\
      game_started s = true /\ players s' = [])) /\
  (game_started s' = false -> stop_event s' = false).
Proof.
  intros Hr Hstep. split; [|split].
  - intros Hst.
    destruct e as [ws x y col now draws | ws | ws ix iy | now xy]; simpl in Hstep.
    + pose proof (connect_stores ws x y col now draws s) as G.
      destruct (handle_client_connect ws x y col now draws s) as [[s1 pid] out].
      injection Hstep as <- _. cbn [fst snd] in G.
      destruct (reachable_stores_wf s Hr) as (_ & Hc & _).
      destruct (G Hc) as (_ & _ & _ & -> & _). exact Hst.
    + destruct (dict_get ws (player_id_map s)) as [pid|];
        injection Hstep as <- _; [|exact Hst].
      cbn. rewrite Hst. now destruct (_ && _).
    + injection Hstep as <- _. unfold process_delayed_message.
      destruct (dict_get ws (player_id_map s)) as [pid|]; [|exact Hst].
      destruct (dict_get pid (players s)); exact Hst.
    + rewrite Hst in Hstep. now injection Hstep as <- _.
  - intros Hst.
    destruct e as [ws x y col now draws | ws | ws ix iy | now xy]; simpl in Hstep.
    + pose proof (connect_stores ws x y col now draws s) as G.
      destruct (handle_client_connect ws x y col now draws s) as [[s1 pid] out].
      injection Hstep as <- _. cbn [fst snd] in G.
      destruct (reachable_stores_wf s Hr) as (_ & Hc & _).
      destruct (G Hc) as (_ & _ & _ & -> & _). rewrite Hst.
      split; [discriminate | intros (ws' & pid' & E & _); discriminate].
    + destruct (dict_get ws (player_id_map s)) as [pid|] eqn:Hm;
        injection Hstep as <- _.
      * cbn [handle_client_finally stop_event players]. rewrite Hst.
        set (ps := if dict_mem pid (players s) then _ else _).
        destruct (game_started s); cbn [andb].
        -- destruct ps as [|a l]; cbn.
           ++ split; [intros _; exists ws, pid; repeat split; exact Hm | reflexivity].
           ++ split; [discriminate | intros (_ & _ & _ & _ & _ & E); discriminate].
        -- split; [discriminate | intros (_ & _ & _ & _ & E & _); discriminate].
      * rewrite Hst. split; [discriminate|].
        intros (ws' & pid' & E & Hm' & _). injection E as <-. congruence.
    + assert (E : stop_event s' = stop_event s).
      { injection Hstep as <- _. unfold process_delayed_message.
        destruct (dict_get ws (player_id_map s)) as [pid|]; [|reflexivity].
        destruct (dict_get pid (players s)); reflexivity. }
      rewrite E, Hst.
      split; [discriminate | intros (ws' & pid' & E' & _); discriminate].
    + rewrite Hst in Hstep.
      assert (E : stop_event s' = false).
      { destruct (game_started s); [|now injection Hstep as <- _].
        destruct (update_game_state now xy s) as [s1|] eqn:Hu; [|discriminate].
        injection Hstep as <- _.
        destruct (update_coins now xy s s1 Hu) as (_ & _ & _ & _ & _ & _ & ->).
        exact Hst. }
      rewrite E.
      split; [discriminate | intros (ws' & pid' & E' & _); discriminate].
  - intros Hgs. pose proof (@reachable_step s e s' sent Hr Hstep) as Hr'.
    destruct (stop_event s') eqn:E; [|reflexivity].
    rewrite (reachable_stop_started s' Hr' E) in Hgs. discriminate.
Qed.

(** The first of two clients leaves an Active session: a player is left and
    the server goes on. *)
Lemma stop_event_lifecycle_witness :
  exists s',
    step (Disconnect 0%nat) two_connected = Some (s', []) /\
    keys (players s') = ["player_1"%string] /\
    stop_event s' = false.
Proof.
  destruct (step (Disconnect 0%nat) two_connected) as [[s' sent]|] eqn:Hstep;
    [|discriminate Hstep].
  assert (Hsent : sent = []) by (now injection Hstep as _ <-).
  assert (Hkeys : keys (players s') = ["player_1"%string])
    by (now injection Hstep as <- _).
  subst sent. exists s'. split; [reflexivity|]. split; [exact Hkeys|].
  destruct (stop_event_lifecycle two_connected (Disconnect 0%nat) s' []
              two_connected_reachable Hstep) as (_ & Hset & _).
  destruct (stop_event s') eqn:E; [|reflexivity].
  destruct (proj1 (Hset eq_refl) eq_refl) as (_ & _ & _ & _ & _ & Hempty).
  rewrite Hempty in Hkeys. discriminate Hkeys.
Defined.

End Lifecycle.

Section Disconnection.
Import Server.

(** X3.  When a connected client of a reachable state disconnects, the
    player its handler holds is removed from the store and no other player
    is touched, the socket leaves the set of clients and the map, the coins
    stay, nothing is sent, and an input of that client applied afterwards
    changes nothing. *)
Theorem disconnect_removes_player s ws pid s' sent :
  reachable s -> dict_get ws (player_id_map s) = Some pid ->
  step (Disconnect ws) s = Some (s', sent) ->
  sent = [] /\
  dict_get pid (players s') = None /\
  (forall k, k <> pid -> dict_get k (players s') = dict_get k (players s)) /\
  ~ In ws (connected_clients s') /\
  dict_get ws (player_id_map s') = None /\
  coins s' = coins s /\
  forall ix iy, process_delayed_message ws ix iy s' = s'.
Proof.
  intros Hr Hm Hstep. simpl in Hstep. rewrite Hm in Hstep.
  injection Hstep as <- <-.
  destruct (reachable_stores_wf s Hr) as ((Hnd & _) & _ & (Hkm & Hndc)).
  assert (Hgone : dict_get ws (player_id_map (handle_client_finally ws pid s)) = None).
  { cbn. apply dict_get_del_eq. now rewrite Hkm. }
  repeat split.
  - cbn. unfold dict_mem. destruct (dict_get pid (players s)) eqn:Hg.
    + now apply dict_get_del_eq.
    + exact Hg.
  - intros k Hk. cbn. destruct (dict_mem pid (players s)); [|reflexivity].
    now apply dict_get_del_other.
  - cbn. rewrite set_discard_In. tauto.
  - exact Hgone.
  - intros ix iy. unfold process_delayed_message. now rewrite Hgone.
Qed.

(** The first of two clients leaves. *)
Lemma disconnect_removes_player_witness :
  exists s',
    step (Disconnect 0%nat) two_connected = Some (s', []) /\
    dict_get "player_0"%string (players s') = None /\
    process_delayed_message 0%nat 1 0 s' = s'.
Proof.
  destruct (step (Disconnect 0%nat) two_connected) as [[s' sent]|] eqn:Hstep;
    [|discriminate Hstep].
  destruct (disconnect_removes_player two_connected 0%nat "player_0" s' sent
              two_connected_reachable eq_refl Hstep)
    as (-> & Hgone & _ & _ & _ & _ & Hnoop).
  exists s'. repeat split; [exact Hgone | apply Hnoop].
Defined.

Lemma body_entries_set_input (d : dict string Player.t) pid p ix iy :
  dict_get pid d = Some p ->
  map body_entry (dict_set pid (Player.set_input p ix iy) d) = map body_entry d.
Proof.
  induction d as [|[k0 v0] r IH]; simpl; [discriminate|].
  destruct (String.eqb_spec pid k0) as [->|Hne]; simpl.
  - now intros [= ->].
  - intros Hg. now rewrite IH.
Qed.

(** X4.  Applying a delayed input changes nothing but the input of the
    player that the socket is mapped to: coins, clients, map and flags stay,
    and so do the id, position, color and score of every player; the mapped
    player, if the store has it, gets exactly the new input; and of two
    inputs applied one after the other for the same socket the later one
    wins. *)
Theorem input_application ws ix iy s :
  let s' := process_delayed_message ws ix iy s in
  (coins s' = coins s /\ connected_clients s' = connected_clients s /\
   player_id_map s' = player_id_map s /\ game_started s' = game_started s /\
   stop_event s' = stop_event s /\ coin_counter s' = coin_counter s) /\
  map body_entry (players s') = map body_entry (players s) /\
  (forall pid p, dict_get ws (player_id_map s) = Some pid ->
     dict_get pid (players s) = Some p ->
     dict_get pid (players s') = Some (Player.set_input p ix iy) /\
     forall k, k <> pid -> dict_get k (players s') = dict_get k (players s)) /\
  (forall ix2 iy2, process_delayed_message ws ix2 iy2 s'
                   = process_delayed_message ws ix2 iy2 s).
Proof.
  cbv zeta. unfold process_delayed_message.
  destruct (dict_get ws (player_id_map s)) as [pid|] eqn:Hm.
  2:{ split; [repeat split|]. split; [reflexivity|].
      split; [discriminate|]. intros ix2 iy2. now rewrite Hm. }
  destruct (dict_get pid (players s)) as [p|] eqn:Hg.
  2:{ split; [repeat split|]. split; [reflexivity|]. split.
      - intros pid' p' [= <-] Hg'. congruence.
      - intros ix2 iy2. now rewrite Hm, Hg. }
  cbn [with_players players coins connected_clients player_id_map game_started
                    stop_event coin_counter].
  split; [repeat split|]. split; [now apply body_entries_set_input|]. split.
  - intros pid' p' [= <-] Hg'. rewrite Hg in Hg'. injection Hg' as <-. split.
    + apply dict_get_set_eq.
    + intros k Hk. now apply dict_get_set_neq.
  - intros ix2 iy2. rewrite Hm, dict_get_set_eq.
    unfold with_players. cbn [players coins connected_clients player_id_map
      last_coin_spawn coin_counter game_started start_time stop_event].
    now rewrite dict_set_twice.
Qed.

End Disconnection.

(** ** More on the simulation step *)

Section Simulation.
Import Server.

(** X5.  A simulation step never touches the session: clients, map and
    flags stay; it creates and removes no player and changes no id, color or
    input; and it spawns a coin exactly when more than
    [COIN_SPAWN_INTERVAL] has passed since the last spawn, in which case the
    spawn timer restarts at the current time and the counter grows by one.
    In a reachable state the coins after the step are, in order, the coins
    present before it, followed when a spawn is due by a coin stored under
    the name [coin_n], [n] the counter, at the position drawn, less the
    coins that a player touches once the players have moved. *)
Theorem update_game_state_frame now xy s s' :
  update_game_state now xy s = Some s' ->
  (connected_clients s' = connected_clients s /\
   player_id_map s' = player_id_map s /\
   game_started s' = game_started s /\ stop_event s' = stop_event s) /\
  map identity_entry (players s') = map identity_entry (players s) /\
  (5 < now - last_coin_spawn s ->
   last_coin_spawn s' = now /\ coin_counter s' = S (coin_counter s)) /\
  (~ 5 < now - last_coin_spawn s ->
   last_coin_spawn s' = last_coin_spawn s /\ coin_counter s' = coin_counter s) /\
  (reachable s ->
   exists moved,
     move_players (players s) = Some moved /\
     let coin_id := ("coin_" ++ str (coin_counter s))%string in
     (5 < now - last_coin_spawn s ->
      coins s'
      = filter (fun kc => negb (claimed moved kc))
               (dict_set coin_id (Coin.mk coin_id (fst xy) (snd xy))
                         (coins s))) /\
     (~ 5 < now - last_coin_spawn s ->
      coins s' = filter (fun kc => negb (claimed moved kc)) (coins s))).
Proof.
  intros Hu.
  destruct (update_coins now xy s s' Hu) as (_ & _ & Hn & Hcl & Hm & Hgs & Hst).
  split; [repeat split; assumption|].
  split; [exact (update_identity now xy s s' Hu)|].
  assert (Hl : last_coin_spawn s' = last_coin_spawn (spawn_due now xy s)).
  { unfold update_game_state, collect in Hu.
    destruct (move_players _) as [moved|]; [|discriminate].
    destruct (scan _ moved []) as [ps1 rm]. now injection Hu as <-. }
  rewrite Hl, Hn.
  split; [|split].
  - unfold spawn_due, COIN_SPAWN_INTERVAL. intros Hdue.
    destruct (Rlt_dec 5 (now - last_coin_spawn s));
      try contradiction; split; reflexivity.
  - unfold spawn_due, COIN_SPAWN_INTERVAL. intros Hdue.
    destruct (Rlt_dec 5 (now - last_coin_spawn s));
      try contradiction; split; reflexivity.
  - intros Hr.
    pose proof (@NoDup_spawn_due now xy s (@reachable_coins_NoDup s Hr)) as Hnd.
    unfold update_game_state in Hu. rewrite players_spawn_due in Hu.
    destruct (move_players (players s)) as [moved|]; [|discriminate].
    destruct (collect moved (coins (spawn_due now xy s))) as [ps1 cs1] eqn:Hc.
    injection Hu as <-. exists moved. split; [reflexivity|].
    destruct (@collect_spec _ _ _ _ Hnd Hc) as (_ & _ & Hcs & _).
    cbn [coins with_coins with_players]. rewrite Hcs. cbv zeta.
    unfold spawn_due, COIN_SPAWN_INTERVAL.
    split; intros Hdue; destruct (Rlt_dec 5 (now - last_coin_spawn s));
      try contradiction; reflexivity.
Qed.

(** A tick six seconds after the start of a session spawns a coin. *)
Lemma update_game_state_frame_witness :
  exists s',
    update_game_state 17 (30, 30) two_connected = Some s' /\
    coin_counter s' = 6%nat /\ last_coin_spawn s' = 17 /\
    connected_clients s' = [0%nat; 1%nat] /\
    exists moved,
      move_players (players two_connected) = Some moved /\
      coins s'
      = filter (fun kc => negb (claimed moved kc))
               (dict_set "coin_5"%string (Coin.mk "coin_5" 30 30)
                         (coins two_connected)).
Proof.
  destruct (update_game_state_total 17 (30, 30) two_connected) as [s' Hu].
  destruct (update_game_state_frame 17 (30, 30) two_connected s' Hu)
    as ((Hcl & _) & _ & Hdue & _ & Hcoins).
  assert (Hlate : 5 < 17 - last_coin_spawn two_connected)
    by (change (last_coin_spawn two_connected) with 0; lra).
  destruct (Hdue Hlate) as [Hl Hn].
  destruct (Hcoins two_connected_reachable) as (moved & Hm & Hspawn & _).
  exists s'. repeat split; [exact Hu | exact Hn | exact Hl | exact Hcl |].
  exists moved. split; [exact Hm | exact (Hspawn Hlate)].
Defined.

(** X6.  In a reachable state the coin that a step spawns gets a name that
    no coin of the store has, so that no coin is replaced; and every coin in
    the store after the step is, unchanged, a coin that was there before or
    the coin just spawned. *)
Theorem update_game_state_coins now xy s s' :
  reachable s -> update_game_state now xy s = Some s' ->
  let coin_id := ("coin_" ++ str (coin_counter s))%string in
  dict_get coin_id (coins s) = None /\
  forall k c, In (k, c) (coins s') ->
    In (k, c) (coins s) \/
    (5 < now - last_coin_spawn s /\ k = coin_id /\
     c = Coin.mk coin_id (fst xy) (snd xy)).
Proof.
  intros Hr Hu. cbv zeta.
  destruct (reachable_stores_wf s Hr) as (_ & (_ & _ & Hnames) & _).
  pose proof (next_coin_fresh s Hnames) as Hfresh.
  split; [now apply dict_get_None|].
  destruct (update_coins now xy s s' Hu) as (_ & Hincl & _).
  intros k c Hin. apply Hincl in Hin. unfold spawn_due in Hin.
  unfold COIN_SPAWN_INTERVAL in Hin.
  destruct (Rlt_dec 5 (now - last_coin_spawn s)) as [Hdue|_]; [|now left].
  cbn [coins] in Hin. rewrite (spawn_coin_appends xy s Hnames) in Hin.
  apply in_app_iff in Hin. destruct Hin as [Hin|[E|[]]]; [now left|].
  right. cbn [spawn_coin snd] in E. injection E as <- <-. repeat split.
  exact Hdue.
Qed.

Lemma update_game_state_coins_witness :
  reachable two_connected /\
  dict_get "coin_5"%string (coins two_connected) = None.
Proof.
  split; [exact two_connected_reachable|].
  destruct (update_game_state_total 17 (30, 30) two_connected) as [s' Hu].
  exact (proj1 (update_game_state_coins 17 (30, 30) two_connected s'
                  two_connected_reachable Hu)).
Defined.

Lemma clamp_inside lo hi x : lo <= x <= hi -> py_max lo (py_min hi x) = x.
Proof.
  intros Hx. unfold py_max, py_min.
  destruct (Rlt_dec x hi); destruct (Rlt_dec lo _); lra.
Qed.

(** A player inside the field whose input is zero stays where it is. *)
Lemma move_player_idle p :
  in_bounds p -> Player.input_x p = 0 -> Player.input_y p = 0 ->
  move_player p = Some p.
Proof.
  intros [Hx Hy] Hix Hiy. unfold move_player. rewrite Hix, Hiy.
  rewrite velocity_zero_mag
    by (replace (0 ^ 2 + 0 ^ 2) with 0 by ring; rewrite sqrt_0; lra).
  rewrite !Rmult_0_l, !Rplus_0_r, !clamp_inside by assumption.
  now destruct p.
Qed.

End Simulation.

(** ** Inputs that the client never sends *)

Section EdgeInputs.
Import Stdlib.Floats.Floats.

(** No sum with NaN compares below anything. *)
Lemma float_add_nan_ltb (x c : float) : (x + nan <? c)%float = false.
Proof.
  rewrite ltb_spec, add_spec. change (Prim2SF nan) with S754_nan.
  destruct (Prim2SF x); reflexivity.
Qed.

(** X7.  The server stores whatever number an [input] message carries, and
    the movement step in binary64 then does the following.  An infinite
    [input_x] beside a zero [input_y] gives a velocity that is not a number,
    and the clamp puts the player on the wall [x] = 475 wherever it stood.
    An [input_x] of 1e200, whose square overflows, makes the step raise,
    whatever [input_y] is.  An [input_x] of 1e-200 beside a zero [input_y],
    whose squares underflow, is taken for no input at all: the position has
    zero added to it and is clamped. *)
Theorem move_player_edge_inputs p :
  (Binary64.Player.input_x p = infinity \/
   Binary64.Player.input_x p = neg_infinity ->
   Binary64.Player.input_y p = 0%float ->
   Binary64.move_player p
   = Some (Binary64.Player.set_pos p 475
             (Binary64.py_max 25
                (Binary64.py_min 350 (Binary64.Player.y p + 0))))%float) /\
  (Binary64.Player.input_x p = huge_input -> Binary64.move_player p = None) /\
  (Binary64.Player.input_x p = tiny_input ->
   Binary64.Player.input_y p = 0%float ->
   Binary64.move_player p
   = Some (Binary64.Player.set_pos p
             (Binary64.py_max 25
                (Binary64.py_min 475 (Binary64.Player.x p + 0)))
             (Binary64.py_max 25
                (Binary64.py_min 350 (Binary64.Player.y p + 0))))%float).
Proof.
  repeat apply conj.
  - intros Hx Hy. unfold Binary64.move_player. rewrite Hy.
    assert (Hv : Binary64.velocity (Binary64.Player.input_x p) 0
                 = Some (nan, 0%float))
      by (destruct Hx as [-> | ->]; vm_compute; reflexivity).
    rewrite Hv. cbv zeta.
    change (nan * Binary64.TICK_DELTA)%float with nan.
    change (0 * Binary64.TICK_DELTA)%float with 0%float.
    unfold Binary64.py_min at 1. rewrite float_add_nan_ltb. reflexivity.
  - intros Hx. unfold Binary64.move_player, Binary64.velocity. rewrite Hx.
    replace (Binary64.py_pow2 huge_input) with (@None float)
      by (vm_compute; reflexivity).
    reflexivity.
  - intros Hx Hy. unfold Binary64.move_player. rewrite Hx, Hy.
    replace (Binary64.velocity tiny_input 0)
      with (Some (0%float, 0%float)) by (vm_compute; reflexivity).
    reflexivity.
Qed.

(** [Infinity], which [json.loads] accepts, sent by the player in the
    middle of the field. *)
Lemma move_player_edge_inputs_witness :
  Binary64.move_player (float_player infinity 0)
  = Some (Binary64.Player.mk "player_0" 475 100 red 0%Z infinity 0).
Proof.
  exact (proj1 (move_player_edge_inputs (float_player infinity 0))
               (or_introl eq_refl) eq_refl).
Defined.

End EdgeInputs.

(** ** A score across the reuse of an id *)

Section ScoreReset.
Import Server.

Lemma sqrt_lt_iff a r : 0 <= a -> 0 < r -> (sqrt a < r <-> a < r ^ 2).
Proof.
  intros Ha Hr. split.
  - intros Hlt. pose proof (sqrt_pos a) as Hp.
    rewrite <- (sqrt_sqrt a Ha). nra.
  - intros Hlt. rewrite <- (sqrt_pow2 r) by lra.
    apply sqrt_lt_1_alt. lra.
Qed.

(** The collision test, on squared distances. *)
Lemma touches_squared c p :
  touches c p = true <->
  (Coin.x c - Player.x p) ^ 2 + (Coin.y c - Player.y p) ^ 2 < 1600.
Proof.
  unfold touches, Rltb, dist.
  set (d2 := (Coin.x c - Player.x p) ^ 2 + (Coin.y c - Player.y p) ^ 2).
  assert (Hd : 0 <= d2)
    by (unfold d2; apply Rplus_le_le_0_compat; apply pow2_ge_0).
  pose proof (sqrt_lt_iff d2 (PLAYER_RADIUS + COIN_RADIUS) Hd) as Hiff.
  unfold PLAYER_RADIUS, COIN_RADIUS in *.
  replace ((25 + 15) ^ 2) with 1600 in Hiff by ring.
  destruct (Rlt_dec (sqrt d2) (25 + 15)) as [Hlt|Hge].
  - split; [intros _; apply Hiff; [lra | exact Hlt] | reflexivity].
  - split; [discriminate|]. intros Hlt. exfalso. apply Hge.
    apply Hiff; [lra | exact Hlt].
Qed.

Lemma touches_near c p :
  (Coin.x c - Player.x p) ^ 2 + (Coin.y c - Player.y p) ^ 2 < 1600 ->
  touches c p = true.
Proof. apply touches_squared. Qed.

Lemma touches_far c p :
  ~ (Coin.x c - Player.x p) ^ 2 + (Coin.y c - Player.y p) ^ 2 < 1600 ->
  touches c p = false.
Proof.
  intros Hfar. destruct (touches c p) eqn:E; [|reflexivity].
  apply touches_squared in E. contradiction.
Qed.

Lemma run_app a : forall b s,
  run (a ++ b) s
  = match run a s with Some s1 => run b s1 | None => None end.
Proof.
  induction a as [|e a IH]; intros b s; [reflexivity|].
  cbn [app run]. destruct (step e s) as [[s1 sent]|]; [apply IH | reflexivity].
Qed.

(** C10.  Two clients connect, the five coins of the initial batch are
    drawn where the second player stands, and the first tick gives that
    player, [player_1], a score of 5.  The first client then leaves and a
    third one arrives: it is named after the size of the store,
    [player_1] again, and the record stored for it replaces that of the
    second client.  The second client is connected throughout and
    [player_1] is its player throughout, by the server's own map; its score
    was 5 and is 0. *)
Theorem connect_resets_live_score :
  exists s s',
    run scoring_trace (GameServer_init 0) = Some s /\
    connected_clients s = [0%nat; 1%nat] /\
    dict_get 1%nat (player_id_map s) = Some "player_1"%string /\
    option_map Player.score (dict_get "player_1"%string (players s))
    = Some 5%Z /\
    coins s = [] /\
    run third_arrives s = Some s' /\
    connected_clients s' = [1%nat; 2%nat] /\
    dict_get 1%nat (player_id_map s') = Some "player_1"%string /\
    keys (players s') = ["player_1"%string] /\
    option_map Player.score (dict_get "player_1"%string (players s'))
    = Some 0%Z.
Proof.
  set (p0 := Player.new "player_0" 100 100 red).
  set (p1 := Player.new "player_1" 200 200 green).
  assert (Hp0 : move_player p0 = Some p0).
  { apply move_player_idle; [|reflexivity..].
    unfold in_bounds, PLAYER_RADIUS, GAME_WIDTH, GAME_HEIGHT. cbn. lra. }
  assert (Hp1 : move_player p1 = Some p1).
  { apply move_player_idle; [|reflexivity..].
    unfold in_bounds, PLAYER_RADIUS, GAME_WIDTH, GAME_HEIGHT. cbn. lra. }
  assert (Hfar : forall k p, Player.x p = 100 -> Player.y p = 100 ->
                         touches (Coin.mk k 200 200) p = false).
  { intros k p Hx Hy. apply touches_far. cbn. rewrite Hx, Hy. lra. }
  assert (Hnear : forall k p, Player.x p = 200 -> Player.y p = 200 ->
                          touches (Coin.mk k 200 200) p = true).
  { intros k p Hx Hy. apply touches_near. cbn. rewrite Hx, Hy. lra. }
  set (s2 := mkServer [("player_0"%string, p0); ("player_1"%string, p1)]
                      (initial_batch draws_near) [0%nat; 1%nat]
                      [(0%nat, "player_0"%string); (1%nat, "player_1"%string)]
                      0 5 true (Some 2) false).
  set (s3 := mkServer [("player_0"%string, p0);
                       ("player_1"%string,
                        Player.mk "player_1" 200 200 green 5 0 0)]
                      [] [0%nat; 1%nat]
                      [(0%nat, "player_0"%string); (1%nat, "player_1"%string)]
                      0 5 true (Some 2) false).
  assert (H2 : run [Connect 0%nat 100 100 red 1 draws_near;
                    Connect 1%nat 200 200 green 2 draws_near]
                   (GameServer_init 0) = Some s2) by (lazy; reflexivity).
  assert (H3 : update_game_state 3 (400, 300) s2 = Some s3).
  { unfold update_game_state, spawn_due, COIN_SPAWN_INTERVAL.
    cbn [last_coin_spawn s2].
    destruct (Rlt_dec 5 (3 - 0)) as [Hlt|_]; [lra|].
    cbn [players s2 move_players]. rewrite Hp0, Hp1.
    unfold collect.
    cbn [coins s2 initial_batch map seq draws_near fst snd scan award].
    repeat (first [rewrite Hfar by reflexivity | rewrite Hnear by reflexivity];
            cbn [scan award]).
    lazy; reflexivity. }
  exists s3. eexists.
  split.
  { change scoring_trace
      with ([Connect 0%nat 100 100 red 1 draws_near;
             Connect 1%nat 200 200 green 2 draws_near]
              ++ [Tick 3 (400, 300)]).
    rewrite run_app, H2. cbn [run step stop_event game_started s2].
    rewrite H3. reflexivity. }
  do 4 (split; [reflexivity|]).
  split; [lazy; reflexivity|].
  lazy. repeat split.
Qed.

End ScoreReset.

(** ** Invariants of a run *)

Section Runs.
Import Server.

Lemma Forall_values {V} (P : V -> Prop) (d : dict string V) :
  Forall P (values d) <-> Forall (fun kv => P (snd kv)) d.
Proof. unfold values. apply Forall_map. Qed.

Lemma step_in_bounds e s s' sent :
  connect_in_range e -> Forall in_bounds (values (players s)) ->
  step e s = Some (s', sent) -> Forall in_bounds (values (players s')).
Proof.
  intros Hrange Hb Hstep.
  destruct e as [ws x y col now draws | ws | ws ix iy | now xy]; simpl in Hstep.
  - pose proof (connect_players ws x y col now draws s) as Hps.
    destruct (handle_client_connect ws x y col now draws s) as [[s1 pid] out].
    injection Hstep as <- _. cbn [fst snd] in Hps. rewrite Hps.
    apply Forall_values. apply Forall_dict_set; [now apply Forall_values|].
    exact Hrange.
  - destruct (dict_get ws (player_id_map s)) as [pid|];
      injection Hstep as <- _; [|assumption].
    cbn. destruct (dict_mem pid (players s)); [|assumption].
    apply Forall_values. apply Forall_values in Hb.
    rewrite Forall_forall in *. intros kp Hin. apply Hb.
    exact (dict_del_sublist _ _ _ Hin).
  - injection Hstep as <- _. unfold process_delayed_message.
    destruct (dict_get ws (player_id_map s)) as [pid|]; [|assumption].
    destruct (dict_get pid (players s)) as [p|] eqn:Hg; [|assumption].
    cbn. apply Forall_values. apply Forall_values in Hb.
    apply Forall_dict_set; [assumption|].
    apply dict_get_In in Hg. rewrite Forall_forall in Hb. exact (Hb _ Hg).
  - destruct (stop_event s); [now injection Hstep as <- _|].
    destruct (game_started s); [|now injection Hstep as <- _].
    destruct (update_game_state now xy s) as [s1|] eqn:Hu; [|discriminate].
    injection Hstep as <- _.
    destruct (@update_players now xy s s1 Hu) as (moved & Hm & ->).
    apply scan_in_bounds.
    destruct (move_players_in_bounds (players s)) as (m' & Hm' & _ & Hmb).
    congruence.
Qed.

(** X8.  When every connect of a run draws the position of its player in
    the range of [random.uniform], that is [[25, 475]] by [[25, 350]], every
    player of every state of the run stands inside the playfield. *)
Theorem run_in_bounds es : forall t0 s,
  Forall connect_in_range es -> run es (GameServer_init t0) = Some s ->
  forall k p, In (k, p) (players s) ->
    25 <= Player.x p <= 475 /\ 25 <= Player.y p <= 350.
Proof.
  intros t0 s Hes Hrun.
  assert (G : forall s0, Forall in_bounds (values (players s0)) ->
                         run es s0 = Some s ->
                         Forall in_bounds (values (players s))).
  { clear Hrun. induction es as [|e es IH]; simpl; intros s0 Hb Hrun.
    - now injection Hrun as <-.
    - inversion Hes as [|? ? He Hes']; subst.
      destruct (step e s0) as [[s1 out]|] eqn:Hstep; [|discriminate].
      apply (IH Hes' s1); [|assumption].
      exact (step_in_bounds e s0 s1 out He Hb Hstep). }
  specialize (G (GameServer_init t0) (Forall_nil _) Hrun).
  apply Forall_values in G. rewrite Forall_forall in G.
  intros k p Hin. specialize (G _ Hin).
  unfold in_bounds, PLAYER_RADIUS, GAME_WIDTH, GAME_HEIGHT in G. simpl in G.
  lra.
Qed.

Lemma run_in_bounds_witness :
  Forall connect_in_range two_connects /\
  forall k p, In (k, p) (players two_connected) ->
    25 <= Player.x p <= 475 /\ 25 <= Player.y p <= 350.
Proof.
  assert (Hr : Forall connect_in_range two_connects).
  { repeat constructor;
      unfold PLAYER_RADIUS, GAME_WIDTH, GAME_HEIGHT; simpl; lra. }
  split; [exact Hr|].
  apply (run_in_bounds two_connects 0 two_connected Hr). lazy. reflexivity.
Defined.

Lemma total_score_app (a b : dict string Player.t) :
  total_score (a ++ b) = (total_score a + total_score b)%Z.
Proof.
  unfold total_score. induction a as [|x a IH]; simpl; [reflexivity|].
  fold (total_score (a ++ b)) in *. unfold total_score in *. lia.
Qed.

Lemma total_score_set (d : dict string Player.t) k p :
  scores_nonneg d ->
  (total_score (dict_set k p d) <= total_score d + Player.score p)%Z.
Proof.
  unfold scores_nonneg, total_score.
  induction d as [|[k0 v0] r IH]; simpl; intros Hd; [lia|].
  inversion Hd as [|? ? H0 Hr]; subst. simpl in H0.
  destruct (String.eqb k k0); simpl; [lia|]. specialize (IH Hr). lia.
Qed.

Lemma total_score_del (d : dict string Player.t) k :
  scores_nonneg d -> (total_score (dict_del k d) <= total_score d)%Z.
Proof.
  unfold scores_nonneg, total_score.
  induction d as [|[k0 v0] r IH]; simpl; intros Hd; [lia|].
  inversion Hd as [|? ? H0 Hr]; subst. simpl in H0.
  destruct (String.eqb k k0); simpl; [lia|]. specialize (IH Hr). lia.
Qed.

Lemma total_score_entries (a b : dict string Player.t) :
  map score_entry a = map score_entry b -> total_score a = total_score b.
Proof.
  intros E. unfold total_score.
  assert (G : forall l : dict string Player.t,
             map (fun kp => Player.score (snd kp)) l
             = map snd (map score_entry l))
    by (intros l; rewrite map_map; reflexivity).
  now rewrite (G a), (G b), E.
Qed.

(** Spawning never adds more coins than it counts. *)
Lemma spawn_budget xy s :
  (List.length (coins (fst (spawn_coin xy s))) + coin_counter s
   <= List.length (coins s) + coin_counter (fst (spawn_coin xy s)))%nat.
Proof.
  cbn [spawn_coin fst coins coin_counter].
  pose proof (length_dict_set_le (coins s)
                ("coin_" ++ str (coin_counter s))%string
                (Coin.mk ("coin_" ++ str (coin_counter s)) (fst xy) (snd xy))).
  lia.
Qed.

Lemma spawn_batch_budget (draws : nat -> R * R) l : forall s,
  let s' := fold_left (fun st i => fst (spawn_coin (draws i) st)) l s in
  (List.length (coins s') + coin_counter s
   <= List.length (coins s) + coin_counter s')%nat /\
  (coin_counter s <= coin_counter s')%nat.
Proof.
  induction l as [|i l IH]; intros s; cbv zeta; [simpl; lia|].
  cbn [fold_left]. specialize (IH (fst (spawn_coin (draws i) s))).
  cbv zeta in IH. pose proof (spawn_budget (draws i) s) as Hb.
  cbn [spawn_coin fst coin_counter] in *. lia.
Qed.

Lemma connect_budget ws x y col now draws s :
  let s' := fst (fst (handle_client_connect ws x y col now draws s)) in
  (List.length (coins s') + coin_counter s
   <= List.length (coins s) + coin_counter s')%nat.
Proof.
  unfold handle_client_connect. destruct (_ && _).
  - cbn [fst].
    match goal with
    | |- context [fold_left ?f ?l ?s0] =>
        pose proof (spawn_batch_budget draws l s0) as Hb;
        change (coins s0) with (coins s) in Hb;
        change (coin_counter s0) with (coin_counter s) in Hb
    end.
    cbv zeta in Hb. lia.
  - destruct (game_started _); cbn; lia.
Qed.

(** X9.  In every reachable state the scores of the players in the store
    and the coins lying on the field together do not exceed the number of
    coins ever spawned: a point is only ever made from a coin. *)
Theorem score_budget s :
  reachable s ->
  (total_score (players s) + Z.of_nat (List.length (coins s))
   <= Z.of_nat (coin_counter s))%Z.
Proof.
  induction 1 as [now | s e s' sent Hr IH Hstep]; [simpl; unfold total_score; simpl; lia|].
  pose proof (reachable_scores_nonneg Hr) as Hnn.
  destruct e as [ws x y col now draws | ws | ws ix iy | now xy]; simpl in Hstep.
  - pose proof (connect_players ws x y col now draws s) as Hps.
    pose proof (connect_budget ws x y col now draws s) as Hb.
    destruct (handle_client_connect ws x y col now draws s) as [[s1 pid] out].
    injection Hstep as <- _. cbn [fst snd] in *. rewrite Hps.
    pose proof (total_score_set (players s) pid (Player.new pid x y col) Hnn) as Ht.
    cbn [Player.new Player.score] in Ht. unfold dict in *. lia.
  - destruct (dict_get ws (player_id_map s)) as [pid|];
      injection Hstep as <- _; [|assumption].
    cbn [handle_client_finally players coins coin_counter].
    destruct (dict_mem pid (players s)); [|assumption].
    pose proof (total_score_del (players s) pid Hnn). lia.
  - injection Hstep as <- _. unfold process_delayed_message.
    destruct (dict_get ws (player_id_map s)) as [pid|]; [|assumption].
    destruct (dict_get pid (players s)) as [p|] eqn:Hg; [|assumption].
    cbn [with_players players coins coin_counter].
    rewrite (total_score_entries _ (players s)); [assumption|].
    now apply score_entries_set_input.
  - destruct (stop_event s); [now injection Hstep as <- _|].
    destruct (game_started s); [|now injection Hstep as <- _].
    destruct (update_game_state now xy s) as [s1|] eqn:Hu; [|discriminate].
    injection Hstep as <- _.
    destruct (update_coins now xy s s1 Hu) as (_ & _ & Hn & _).
    destruct (reachable_stores_wf s Hr) as (_ & Hc & _).
    destruct (spawn_due_wf now xy s Hc) as (Hnd & _).
    unfold update_game_state in Hu. rewrite players_spawn_due in Hu.
    destruct (move_players (players s)) as [moved|] eqn:Hm; [|discriminate].
    destruct (collect moved (coins (spawn_due now xy s))) as [ps' cs'] eqn:Hcol.
    injection Hu as <-. cbn [players coins coin_counter with_players with_coins] in *.
    destruct (@collect_spec moved _ ps' cs' Hnd Hcol) as (_ & _ & Hcs & Htot).
    rewrite (@move_players_total_score _ _ Hm) in Htot.
    assert (Hle : (List.length cs' <= List.length (coins (spawn_due now xy s)))%nat).
    { rewrite Hcs.
      pose proof (filter_length_split (claimed moved) (coins (spawn_due now xy s))).
      lia. }
    assert (Hsp : (List.length (coins (spawn_due now xy s)) + coin_counter s
                   <= List.length (coins s) + coin_counter (spawn_due now xy s))%nat).
    { unfold spawn_due. destruct (Rlt_dec _ _); [|lia].
      exact (spawn_budget xy s). }
    assert (Hmono : (coin_counter s <= coin_counter (spawn_due now xy s))%nat).
    { unfold spawn_due. destruct (Rlt_dec _ _); cbn; lia. }
    lia.
Qed.

Lemma score_budget_witness :
  reachable two_connected /\
  (total_score (players two_connected)
   + Z.of_nat (List.length (coins two_connected)) <= 5)%Z.
Proof.
  split; [exact two_connected_reachable|].
  exact (score_budget two_connected two_connected_reachable).
Defined.

End Runs.

(** ** From the server to a client *)

Section Wire.
Import Server.

Lemma sends_gather_delayed message clients :
  sends (Gather (map (delayed_send message) clients))
  = map (fun c => (c, message)) clients.
Proof.
  cbn [sends]. induction clients as [|c l IH]; simpl; [reflexivity|].
  now rewrite IH.
Qed.

Lemma broadcast_state_sends_all now s :
  sends (broadcast_state now s)
  = if game_started s
    then map (fun c => (c, state_update now s)) (connected_clients s)
    else [].
Proof.
  unfold broadcast_state. destruct (game_started s); [|reflexivity].
  cbn [negb]. destruct (connected_clients s) as [|c l] eqn:E; [reflexivity|].
  apply sends_gather_delayed.
Qed.

Lemma snapshot_player_ids s :
  Forall player_keyed (players s) ->
  map PlayerView.id (map Player_to_dict (values (players s))) = keys (players s).
Proof.
  unfold values, keys. rewrite !map_map. intros Hk.
  apply map_ext_in. intros kp Hin. rewrite Forall_forall in Hk.
  exact (Hk kp Hin).
Qed.

Lemma snapshot_coin_ids s :
  Forall coin_keyed (coins s) ->
  map CoinView.id (map Coin_to_dict (values (coins s))) = keys (coins s).
Proof.
  unfold values, keys. rewrite !map_map. intros Hk.
  apply map_ext_in. intros kc Hin. rewrite Forall_forall in Hk.
  exact (Hk kc Hin).
Qed.

(** X10.  In a reachable Active state a broadcast sends one message to
    each connected client, the same for all: the snapshot with the current
    time, one view per player and one per coin, in store order, in which no
    two players and no two coins have the same id. *)
Theorem broadcast_state_snapshot now s :
  reachable s -> game_started s = true ->
  sends (broadcast_state now s)
  = map (fun c => (c, MStateUpdate now
                        (map Player_to_dict (values (players s)))
                        (map Coin_to_dict (values (coins s)))))
        (connected_clients s) /\
  NoDup (connected_clients s) /\
  map PlayerView.id (map Player_to_dict (values (players s))) = keys (players s) /\
  NoDup (map PlayerView.id (map Player_to_dict (values (players s)))) /\
  NoDup (map CoinView.id (map Coin_to_dict (values (coins s)))).
Proof.
  intros Hr Hgs.
  destruct (reachable_stores_wf s Hr) as ((Hndp & Hkp) & (Hndc & Hkc & _) & (_ & Hcl)).
  rewrite broadcast_state_sends_all, Hgs.
  rewrite (snapshot_player_ids s Hkp), (snapshot_coin_ids s Hkc).
  repeat split; assumption.
Qed.

Lemma broadcast_state_snapshot_witness :
  sends (broadcast_state 12 two_connected)
  = [(0%nat, state_update 12 two_connected);
     (1%nat, state_update 12 two_connected)].
Proof.
  exact (proj1 (broadcast_state_snapshot 12 two_connected
                  two_connected_reachable eq_refl)).
Defined.

Lemma connect_sent ws x y col now draws s :
  forall c m,
    In (c, m) (snd (handle_client_connect ws x y col now draws s)) ->
    (exists pid, m = init_msg pid) \/ m = MGameStart.
Proof.
  unfold handle_client_connect. intros c m.
  destruct (_ && _); [|destruct (game_started _)]; cbn [snd].
  - rewrite in_app_iff, in_map_iff.
    intros [[E|[]]|(c' & E & _)]; injection E as _ <-; eauto.
  - intros [E|[E|[]]]; injection E as _ <-; eauto.
  - intros [E|[]]; injection E as _ <-; eauto.
Qed.

(** X11.  A state update is sent by nothing but a tick of the loop taken
    while the session is Active and the stop signal is not set; it goes to a
    client connected at that time and carries the state that the tick
    produced. *)
Theorem state_update_only_when_active e s s' sent c t ps cs :
  step e s = Some (s', sent) -> In (c, MStateUpdate t ps cs) sent ->
  exists now xy,
    e = Tick now xy /\ game_started s = true /\ stop_event s = false /\
    update_game_state now xy s = Some s' /\
    In c (connected_clients s') /\
    MStateUpdate t ps cs = state_update now s'.
Proof.
  intros Hstep Hin.
  destruct e as [ws x y col now draws | ws | ws ix iy | now xy]; simpl in Hstep.
  - pose proof (connect_sent ws x y col now draws s c (MStateUpdate t ps cs)) as G.
    destruct (handle_client_connect ws x y col now draws s) as [[s1 pid] out].
    injection Hstep as _ <-. destruct (G Hin) as [[pid' E]|E]; discriminate.
  - destruct (dict_get ws (player_id_map s)); injection Hstep as _ <-;
      destruct Hin.
  - injection Hstep as _ <-. destruct Hin.
  - destruct (stop_event s); [injection Hstep as _ <-; destruct Hin|].
    destruct (game_started s) eqn:Hgs; [|injection Hstep as _ <-; destruct Hin].
    destruct (update_game_state now xy s) as [s1|] eqn:Hu; [|discriminate].
    injection Hstep as <- <-.
    destruct (update_coins now xy s s1 Hu) as (_ & _ & _ & _ & _ & Hgs1 & _).
    unfold game_loop_iteration in Hin. rewrite Hgs1, Hgs in Hin.
    cbn [sends] in Hin. rewrite app_nil_r in Hin.
    rewrite broadcast_state_sends_all, Hgs1, Hgs in Hin.
    apply in_map_iff in Hin. destruct Hin as (c' & E & Hc).
    injection E as <- E. exists now, xy.
    repeat (split; [reflexivity || assumption|]).
    unfold state_update. congruence.
Qed.

Lemma state_update_only_when_active_witness :
  exists s',
    step (Tick 12 (30, 30)) two_connected
    = Some (s', [(0%nat, state_update 12 s'); (1%nat, state_update 12 s')]) /\
    update_game_state 12 (30, 30) two_connected = Some s' /\
    In 0%nat (connected_clients s').
Proof.
  destruct (update_game_state_total 12 (30, 30) two_connected) as [s' Hu].
  exists s'.
  assert (Hstep : step (Tick 12 (30, 30)) two_connected
                  = Some (s', [(0%nat, state_update 12 s');
                               (1%nat, state_update 12 s')])).
  { change (step (Tick 12 (30, 30)) two_connected)
      with (match update_game_state 12 (30, 30) two_connected with
            | Some s1 => Some (s1, sends (game_loop_iteration 12 s1))
            | None => None
            end).
    rewrite Hu. do 2 f_equal.
    destruct (update_coins 12 (30, 30) two_connected s' Hu)
      as (_ & _ & _ & Hcl & _ & Hgs & _).
    assert (Hgs' : game_started s' = true) by (rewrite Hgs; reflexivity).
    unfold game_loop_iteration. rewrite Hgs'. cbn [sends].
    rewrite app_nil_r, broadcast_state_sends_all, Hgs', Hcl. reflexivity. }
  split; [exact Hstep|].
  destruct (state_update_only_when_active
              (Tick 12 (30, 30)) two_connected s' _ 0%nat 12
              (map Player_to_dict (values (players s')))
              (map Coin_to_dict (values (coins s')))
              Hstep (or_introl eq_refl))
    as (now & xy & E & _ & _ & Hu' & Hc & _).
  injection E as <- <-. split; assumption.
Defined.

End Wire.

Section EndToEnd.
Import Server.

(** X12.  A client with an empty buffer that receives the snapshot of a
    reachable server state renders that state: the players of the store, in
    order and under the same ids, each as its public view, and the coins of
    the store; looking an id up in the render state is looking it up in the
    store. *)
Theorem snapshot_round_trip now render_time s c :
  reachable s -> Client.state_buffer c = [] ->
  exists r,
    Client.get_interpolated_state_at render_time
      (Client.receive_message (state_update now s) c) = Some r /\
    Client.RenderState.players r
    = map (fun kp => (fst kp, Player_to_dict (snd kp))) (players s) /\
    Client.RenderState.coins r = map Coin_to_dict (values (coins s)) /\
    forall pid, dict_get pid (Client.RenderState.players r)
                = option_map Player_to_dict (dict_get pid (players s)).
Proof.
  intros Hr Hbuf.
  destruct (reachable_stores_wf s Hr) as ((Hndp & Hkp) & _ & _).
  unfold Client.get_interpolated_state_at, state_update.
  cbn [Client.receive_message Client.state_buffer]. rewrite Hbuf.
  cbn [app List.length Nat.ltb Nat.leb rev tl].
  eexists. split; [reflexivity|].
  unfold Client.as_render_state.
  cbn [Client.RenderState.players Client.RenderState.coins
       Client.Snapshot.players Client.Snapshot.coins].
  assert (Hids : NoDup (map PlayerView.id (map Player_to_dict (values (players s)))))
    by (now rewrite (snapshot_player_ids s Hkp)).
  rewrite (@dict_of_NoDup _ _ _ PlayerView.id _ Hids).
  assert (Hmap : map (fun v => (PlayerView.id v, v))
                     (map Player_to_dict (values (players s)))
                 = map (fun kp => (fst kp, Player_to_dict (snd kp))) (players s)).
  { unfold values. rewrite !map_map. apply map_ext_in. intros kp Hin.
    rewrite Forall_forall in Hkp. simpl. now rewrite (Hkp kp Hin). }
  rewrite Hmap. repeat split.
  intros pid. clear Hmap Hids Hndp Hkp.
  induction (players s) as [|[k p] l IH]; simpl; [reflexivity|].
  destruct (String.eqb pid k); [reflexivity | exact IH].
Qed.

Lemma snapshot_round_trip_witness :
  exists r,
    Client.get_interpolated_state_at 0
      (Client.receive_message (state_update 12 two_connected)
                              Client.GameClient_init) = Some r /\
    keys (Client.RenderState.players r)
    = ["player_0"%string; "player_1"%string].
Proof.
  destruct (snapshot_round_trip 12 0 two_connected Client.GameClient_init
              two_connected_reachable eq_refl) as (r & Hr & Hp & _).
  exists r. split; [exact Hr|]. rewrite Hp. reflexivity.
Defined.

Lemma inbox_app ws a b : inbox ws (a ++ b) = inbox ws a ++ inbox ws b.
Proof. unfold inbox. now rewrite filter_app, map_app. Qed.

Lemma receive_messages_app a b c :
  Client.receive_messages (a ++ b) c
  = Client.receive_messages b (Client.receive_messages a c).
Proof. unfold Client.receive_messages. apply fold_left_app. Qed.

(** Receiving the [game_start] notices of a broadcast. *)
Lemma receive_game_starts ws clients : forall c,
  let c' := Client.receive_messages
              (inbox ws (map (fun w => (w, MGameStart)) clients)) c in
  Client.player_id c' = Client.player_id c /\
  Client.game_width c' = Client.game_width c /\
  Client.game_height c' = Client.game_height c /\
  Client.player_radius c' = Client.player_radius c /\
  Client.coin_radius c' = Client.coin_radius c /\
  Client.state_buffer c' = Client.state_buffer c /\
  Client.game_started c' = (Client.game_started c || set_mem ws clients)%bool.
Proof.
  induction clients as [|w l IH]; intros c; cbv zeta.
  - cbn. rewrite orb_false_r. repeat split.
  - unfold inbox. cbn [map filter fst].
    change (set_mem ws (w :: l)) with (Nat.eqb ws w || set_mem ws l)%bool.
    rewrite (Nat.eqb_sym ws w).
    destruct (Nat.eqb w ws).
    + cbn [map snd Client.receive_messages fold_left].
      destruct (IH (Client.receive_message MGameStart c))
        as (H1 & H2 & H3 & H4 & H5 & H6 & H7).
      unfold inbox, Client.receive_messages in *.
      rewrite H1, H2, H3, H4, H5, H6, H7. cbn. rewrite orb_true_r.
      repeat split.
    + cbn [orb]. apply IH.
Qed.

Lemma spawn_batch_frame (draws : nat -> R * R) l : forall s,
  let s' := fold_left (fun st i => fst (spawn_coin (draws i) st)) l s in
  players s' = players s /\ connected_clients s' = connected_clients s /\
  player_id_map s' = player_id_map s /\ game_started s' = game_started s.
Proof.
  induction l as [|i l IH]; intros s; cbv zeta; [repeat split|].
  cbn [fold_left]. destruct (IH (fst (spawn_coin (draws i) s)))
    as (Hp & Hcl & Hm & Hgs).
  repeat split; assumption.
Qed.

(** The three ways a connect can go. *)
Lemma connect_cases ws x y col now draws s s' pid sent :
  handle_client_connect ws x y col now draws s = (s', pid, sent) ->
  player_id_map s' = dict_set ws pid (player_id_map s) /\
  connected_clients s' = set_add ws (connected_clients s) /\
  ((game_started s' = true /\
    sent = [(ws, init_msg pid)]
           ++ map (fun c => (c, MGameStart)) (connected_clients s')) \/
   (game_started s' = true /\
    sent = [(ws, init_msg pid)] ++ [(ws, MGameStart)]) \/
   (game_started s' = false /\ sent = [(ws, init_msg pid)])).
Proof.
  unfold handle_client_connect. destruct (_ && _).
  - match goal with
    | |- context [fold_left ?f ?l ?s0] =>
        pose proof (spawn_batch_frame draws l s0) as Hf;
        set (s3 := fold_left f l s0) in *
    end.
    cbv zeta in Hf. destruct Hf as (_ & Hcl & Hm & Hgs).
    intros E.
    assert (Hs : s' = s3) by congruence.
    assert (Hp : pid = ("player_" ++ str (List.length (players s)))%string)
      by congruence.
    assert (Hsent : sent = [(ws, init_msg pid)]
                           ++ map (fun c => (c, MGameStart)) (connected_clients s3))
      by (rewrite Hp; congruence).
    clear E. subst s'. rewrite Hm, Hcl, Hgs, Hp.
    split; [reflexivity|]. split; [reflexivity|]. left.
    split; [reflexivity|]. rewrite Hsent, Hcl, Hp. reflexivity.
  - destruct (game_started s) eqn:Hgs; intros [= <- <- <-]; cbn;
      repeat split; [right; left | right; right]; now split.
Qed.

(** X13.  A connect sends the new client its [init] message first, and a
    client that processes the messages sent to its socket knows the id under
    which the server stored its player, has the dimensions and radii of the
    server (coin radius 15, not its own default 20), has received no
    snapshot, and considers the game started exactly when the server does. *)
Theorem connect_handshake ws x y col now draws s s' pid sent :
  handle_client_connect ws x y col now draws s = (s', pid, sent) ->
  let c := Client.receive_messages (inbox ws sent) Client.GameClient_init in
  hd_error sent = Some (ws, MInit pid 500 375 25 15) /\
  dict_get ws (player_id_map s') = Some pid /\
  dict_get pid (players s') = Some (Player.new pid x y col) /\
  Client.player_id c = Some pid /\
  Client.game_width c = 500 /\ Client.game_height c = 375 /\
  Client.player_radius c = 25 /\ Client.coin_radius c = 15 /\
  Client.state_buffer c = [] /\
  Client.game_started c = game_started s'.
Proof.
  intros Hc. cbv zeta.
  pose proof (connect_players ws x y col now draws s) as Hps.
  rewrite Hc in Hps. cbn [fst snd] in Hps.
  destruct (connect_cases ws x y col now draws s s' pid sent Hc)
    as (Hm & Hcl & Hcases).
  assert (Hinit : forall rest,
             inbox ws ((ws, init_msg pid) :: rest)
             = init_msg pid :: inbox ws rest).
  { intros rest. unfold inbox. cbn [filter fst]. now rewrite Nat.eqb_refl. }
  split; [destruct Hcases as [[_ ->]|[[_ ->]|[_ ->]]]; reflexivity|].
  split; [rewrite Hm; apply dict_get_set_eq|].
  split; [rewrite Hps; apply dict_get_set_eq|].
  destruct Hcases as [[Hgs ->]|[[Hgs ->]|[Hgs ->]]]; rewrite Hgs.
  - cbn [app]. rewrite Hinit.
    cbn [Client.receive_messages fold_left].
    destruct (receive_game_starts ws (connected_clients s')
                (Client.receive_message (init_msg pid) Client.GameClient_init))
      as (H1 & H2 & H3 & H4 & H5 & H6 & H7).
    unfold Client.receive_messages in *.
    rewrite H1, H2, H3, H4, H5, H6, H7.
    assert (Hin : set_mem ws (connected_clients s') = true).
    { apply set_mem_In. rewrite Hcl. unfold set_add.
      destruct (set_mem ws (connected_clients s)) eqn:E.
      - now apply set_mem_In.
      - apply in_or_app. right. now left. }
    rewrite Hin. repeat split.
  - cbn [app]. rewrite Hinit. unfold inbox. cbn [filter fst].
    rewrite Nat.eqb_refl. repeat split.
  - rewrite Hinit. repeat split.
Qed.

(** The first client of a session: it learns its id and waits. *)
Lemma connect_handshake_witness :
  exists s' sent,
    handle_client_connect 0%nat 100 100 red 10 draws0 (GameServer_init 0)
    = (s', "player_0"%string, sent) /\
    Client.player_id
      (Client.receive_messages (inbox 0%nat sent) Client.GameClient_init)
    = Some "player_0"%string /\
    Client.game_started
      (Client.receive_messages (inbox 0%nat sent) Client.GameClient_init)
    = false.
Proof.
  destruct (handle_client_connect 0%nat 100 100 red 10 draws0 (GameServer_init 0))
    as [[s' pid] sent] eqn:Hc.
  assert (Hpid : pid = "player_0"%string) by (now injection Hc as _ <- _).
  assert (Hgs : game_started s' = false) by (now injection Hc as <- _ _).
  subst pid. exists s', sent. split; [reflexivity|].
  destruct (connect_handshake 0%nat 100 100 red 10 draws0 (GameServer_init 0)
              s' "player_0"%string sent Hc)
    as (_ & _ & _ & Hid & _ & _ & _ & _ & _ & Hst).
  split; [exact Hid | now rewrite Hst].
Defined.

End EndToEnd.

(** ** More on the client *)

Section ClientBuffer.

Lemma lastn_all {A} n (l : list A) : (List.length l <= n)%nat -> lastn n l = l.
Proof.
  intros Hle. unfold lastn.
  replace (List.length l - n)%nat with 0%nat by lia. reflexivity.
Qed.

Lemma lastn_length {A} n (l : list A) :
  List.length (lastn n l) = Nat.min n (List.length l).
Proof. unfold lastn. rewrite length_skipn. lia. Qed.

Lemma lastn_app_lastn {A} n (l r : list A) :
  lastn n (lastn n l ++ r) = lastn n (l ++ r).
Proof.
  destruct (Nat.le_gt_cases (List.length l) n) as [Hle|Hgt].
  - now rewrite (lastn_all n l Hle).
  - unfold lastn. rewrite !length_app, length_skipn.
    replace (List.length l - (List.length l - n) + List.length r - n)%nat
      with (List.length r) by lia.
    rewrite !skipn_app, length_skipn, skipn_skipn.
    replace (List.length r + (List.length l - n))%nat
      with (List.length l + List.length r - n)%nat by lia.
    f_equal. f_equal. lia.
Qed.

(** Appending to a buffer within its capacity keeps the last 40. *)
Lemma append_evict (buffer : list Client.Snapshot.t) st :
  (List.length buffer <= 40)%nat ->
  (if (40 <? List.length (buffer ++ [st]))%nat
   then tl (buffer ++ [st]) else buffer ++ [st])
  = lastn 40 (buffer ++ [st]).
Proof.
  intros Hle. rewrite length_app. cbn [List.length].
  destruct (40 <? List.length buffer + 1)%nat eqn:E.
  - apply Nat.ltb_lt in E. unfold lastn. rewrite length_app. cbn [List.length].
    replace (List.length buffer + 1 - 40)%nat with 1%nat by lia.
    reflexivity.
  - apply Nat.ltb_ge in E. symmetry. apply lastn_all.
    rewrite length_app. cbn [List.length]. lia.
Qed.

Lemma receive_messages_buffer ms : forall c,
  (List.length (Client.state_buffer c) <= 40)%nat ->
  Client.state_buffer (Client.receive_messages ms c)
  = lastn 40 (Client.state_buffer c ++ snapshots_of ms).
Proof.
  induction ms as [|m ms IH]; intros c Hle.
  - cbn. rewrite app_nil_r. symmetry. now apply lastn_all.
  - change (Client.receive_messages (m :: ms) c)
      with (Client.receive_messages ms (Client.receive_message m c)).
    rewrite IH by (now apply receive_message_bound).
    destruct m as [pid w h pr cr | | t ps cs]; try reflexivity.
    cbn [Client.receive_message Client.state_buffer snapshots_of flat_map].
    rewrite (append_evict _ _ Hle), lastn_app_lastn, <- app_assoc.
    reflexivity.
Qed.

(** X14.  Whatever messages a client has received since it started, its
    buffer holds the snapshots of the last 40 state updates among them, or
    of all of them when there were fewer, in the order of arrival. *)
Theorem buffer_is_last_40 ms :
  Client.state_buffer (Client.receive_messages ms Client.GameClient_init)
  = lastn 40 (snapshots_of ms) /\
  List.length (Client.state_buffer
                 (Client.receive_messages ms Client.GameClient_init))
  = Nat.min 40 (List.length (snapshots_of ms)).
Proof.
  assert (E : Client.state_buffer
                (Client.receive_messages ms Client.GameClient_init)
              = lastn 40 (snapshots_of ms)).
  { rewrite receive_messages_buffer by (cbn; lia). reflexivity. }
  split; [exact E|]. rewrite E. apply lastn_length.
Qed.

End ClientBuffer.

Section ClientRender.
Import Client.

Lemma dict_of_keys_NoDup' (l : list PlayerView.t) :
  NoDup (keys (dict_of PlayerView.id l)).
Proof.
  unfold dict_of.
  enough (G : forall acc : dict string PlayerView.t, NoDup (keys acc) ->
             NoDup (keys (fold_left
                            (fun d v => dict_set (PlayerView.id v) v d) l acc))).
  { apply G. constructor. }
  induction l as [|a l IH]; simpl; intros acc Hacc; [assumption|].
  apply IH. now apply NoDup_dict_set.
Qed.

Lemma keys_interpolate_players alpha prev_players (l : list PlayerView.t) :
  keys (interpolate_players alpha prev_players (dict_of PlayerView.id l))
  = keys (dict_of PlayerView.id l).
Proof.
  rewrite (@interpolate_players_map alpha prev_players _ (dict_of_keys_NoDup' l)).
  unfold keys. now rewrite map_map.
Qed.

(** What the backward search returns is in the buffer. *)
Lemma find_bracket_sound rt buffer : forall n p on,
  find_bracket rt buffer n = Some (p, on) ->
  In p buffer /\ (forall nx, on = Some nx -> In nx buffer).
Proof.
  induction n as [|i IH]; intros p on; cbn [find_bracket]; [discriminate|].
  destruct (nth_error buffer i) as [st|] eqn:Hn; [|discriminate].
  destruct (Rleb (Snapshot.timestamp st) rt); [|apply IH].
  intros [= <- <-]. split; [eapply nth_error_In; eassumption|].
  intros nx. destruct (i + 1 <? List.length buffer)%nat; [|discriminate].
  intros Hnx. eapply nth_error_In; eassumption.
Qed.

(** X15.  The interpolator never raises, whatever the buffer holds and in
    whatever order its timestamps are: with an empty buffer it returns the
    default state, and otherwise a render state whose coins are the coin list
    of one of the buffered snapshots and whose players are, id for id, the
    players of that same snapshot. *)
Theorem get_interpolated_state_total render_time c :
  exists r,
    get_interpolated_state_at render_time c = Some r /\
    (state_buffer c = [] -> r = current_display_state c) /\
    (state_buffer c <> [] ->
     exists st, In st (state_buffer c) /\
       RenderState.coins r = Snapshot.coins st /\
       keys (RenderState.players r)
       = keys (dict_of PlayerView.id (Snapshot.players st))).
Proof.
  unfold get_interpolated_state_at.
  destruct (state_buffer c) as [|a [|b rest]] eqn:Hbuf.
  - eexists. split; [reflexivity|]. split; [reflexivity | congruence].
  - eexists. split; [reflexivity|]. split; [discriminate|].
    intros _. exists a. repeat split. now left.
  - replace (List.length (a :: b :: rest) <? 2)%nat with false by reflexivity.
    destruct (find_bracket render_time (a :: b :: rest)
                (List.length (a :: b :: rest))) as [[p [nx|]]|] eqn:Hf.
    + destruct (find_bracket_sound _ _ _ _ _ Hf) as [Hp Hnx].
      rewrite (@interpolation_alpha_total render_time p nx).
      eexists. split; [reflexivity|]. split; [discriminate|].
      intros _. exists nx. split; [now apply Hnx|]. split; [reflexivity|].
      apply keys_interpolate_players.
    + destruct (find_bracket_sound _ _ _ _ _ Hf) as [Hp _].
      eexists. split; [reflexivity|]. split; [discriminate|].
      intros _. exists p. repeat split. exact Hp.
    + eexists. split; [reflexivity|]. split; [discriminate|].
      intros _. exists a. repeat split. now left.
Qed.

Lemma alpha_of_bounds rt prev_state next_state :
  Snapshot.timestamp prev_state <= rt -> rt < Snapshot.timestamp next_state ->
  0 <= alpha_of rt prev_state next_state < 1 /\
  (rt = Snapshot.timestamp prev_state -> alpha_of rt prev_state next_state = 0).
Proof.
  intros Hp Hn. unfold alpha_of.
  destruct (Req_dec_T _ 0) as [E|_]; [lra|].
  set (d := Snapshot.timestamp next_state - Snapshot.timestamp prev_state).
  assert (Hd : 0 < d) by (unfold d; lra).
  repeat split.
  - apply Rmult_le_pos; [lra|]. left. now apply Rinv_0_lt_compat.
  - apply (Rmult_lt_reg_r d _ _ Hd). unfold Rdiv.
    rewrite Rmult_assoc, Rinv_l by lra. unfold d. lra.
  - intros ->. unfold Rdiv. rewrite Rminus_diag. apply Rmult_0_l.
Qed.

(** The render state between two snapshots, player by player. *)
Lemma bracket_lookup rt c older prev_state next_state newer :
  state_buffer c = older ++ prev_state :: next_state :: newer ->
  Snapshot.timestamp prev_state <= rt ->
  Forall (late rt) (next_state :: newer) ->
  NoDup (map PlayerView.id (Snapshot.players prev_state)) ->
  NoDup (map PlayerView.id (Snapshot.players next_state)) ->
  exists r,
    get_interpolated_state_at rt c = Some r /\
    forall np pp,
      In np (Snapshot.players next_state) ->
      In pp (Snapshot.players prev_state) ->
      PlayerView.id pp = PlayerView.id np ->
      dict_get (PlayerView.id np) (RenderState.players r)
      = Some (lerp_player (alpha_of rt prev_state next_state)
                          (PlayerView.id np) pp np).
Proof.
  intros Hbuf Hprev Hlate Hndp Hndn.
  unfold get_interpolated_state_at. rewrite Hbuf.
  replace (List.length (older ++ prev_state :: next_state :: newer) <? 2)%nat
    with false
    by (symmetry; apply Nat.ltb_ge; rewrite length_app; simpl; lia).
  rewrite (@find_bracket_found rt older prev_state (next_state :: newer) Hprev Hlate).
  cbn [nth_error]. rewrite interpolation_alpha_total.
  eexists. split; [reflexivity|]. cbn [RenderState.players].
  intros np pp Hnp Hpp Hid.
  rewrite (@interpolate_players_map _ _ _
             (dict_of_keys_NoDup' (Snapshot.players next_state))).
  rewrite (@dict_of_NoDup _ _ _ PlayerView.id _ Hndp).
  rewrite (@dict_of_NoDup _ _ _ PlayerView.id _ Hndn).
  set (prevd := map (fun v => (PlayerView.id v, v)) (Snapshot.players prev_state)).
  assert (Hgp : dict_get (PlayerView.id np) prevd = Some pp).
  { apply In_dict_get.
    - unfold keys, prevd. now rewrite map_map.
    - unfold prevd. apply in_map_iff. exists pp. now rewrite Hid. }
  apply In_dict_get.
  - unfold keys. rewrite !map_map. exact Hndn.
  - apply in_map_iff. exists (PlayerView.id np, np). cbn [fst snd].
    rewrite Hgp. split; [reflexivity|]. apply in_map_iff. now exists np.
Qed.

Lemma lerp_between a b alpha :
  0 <= alpha <= 1 -> Rmin a b <= a + (b - a) * alpha <= Rmax a b.
Proof.
  intros Ha. unfold Rmin, Rmax. destruct (Rle_dec a b); nra.
Qed.

(** X16.  Between two bracketing snapshots, a player that both have is
    rendered, on each axis, between its position in the older and its
    position in the newer one, with the score of the newer one; when the
    render time is the timestamp of the older snapshot it is rendered
    exactly where the older one has it; and when both snapshots have it
    inside the playfield, so does the render state. *)
Theorem interpolation_stays_between rt c older prev_state next_state newer np pp :
  state_buffer c = older ++ prev_state :: next_state :: newer ->
  Snapshot.timestamp prev_state <= rt ->
  Forall (late rt) (next_state :: newer) ->
  NoDup (map PlayerView.id (Snapshot.players prev_state)) ->
  NoDup (map PlayerView.id (Snapshot.players next_state)) ->
  In np (Snapshot.players next_state) ->
  In pp (Snapshot.players prev_state) ->
  PlayerView.id pp = PlayerView.id np ->
  exists r p,
    get_interpolated_state_at rt c = Some r /\
    dict_get (PlayerView.id np) (RenderState.players r) = Some p /\
    Rmin (PlayerView.x pp) (PlayerView.x np) <= PlayerView.x p
      <= Rmax (PlayerView.x pp) (PlayerView.x np) /\
    Rmin (PlayerView.y pp) (PlayerView.y np) <= PlayerView.y p
      <= Rmax (PlayerView.y pp) (PlayerView.y np) /\
    PlayerView.score p = PlayerView.score np /\
    (rt = Snapshot.timestamp prev_state ->
     PlayerView.x p = PlayerView.x pp /\ PlayerView.y p = PlayerView.y pp) /\
    (view_in_bounds pp -> view_in_bounds np -> view_in_bounds p).
Proof.
  intros Hbuf Hprev Hlate Hndp Hndn Hnp Hpp Hid.
  destruct (bracket_lookup rt c older prev_state next_state newer
              Hbuf Hprev Hlate Hndp Hndn) as (r & Hr & Hlook).
  assert (Hnext : rt < Snapshot.timestamp next_state)
    by (inversion Hlate; assumption).
  destruct (alpha_of_bounds rt prev_state next_state Hprev Hnext) as [Ha Ha0].
  set (alpha := alpha_of rt prev_state next_state) in *.
  assert (Ha' : 0 <= alpha <= 1) by lra.
  exists r, (lerp_player alpha (PlayerView.id np) pp np).
  split; [exact Hr|]. split; [exact (Hlook np pp Hnp Hpp Hid)|].
  cbn [lerp_player PlayerView.x PlayerView.y PlayerView.score].
  pose proof (lerp_between (PlayerView.x pp) (PlayerView.x np) alpha Ha') as Hx.
  pose proof (lerp_between (PlayerView.y pp) (PlayerView.y np) alpha Ha') as Hy.
  split; [exact Hx|]. split; [exact Hy|]. split; [reflexivity|]. split.
  - intros E. rewrite (Ha0 E). split; ring.
  - unfold view_in_bounds. intros [Hpx Hpy] [Hnx Hny].
    cbn [lerp_player PlayerView.x PlayerView.y].
    unfold Rmin, Rmax in Hx, Hy.
    destruct (Rle_dec (PlayerView.x pp) (PlayerView.x np));
      destruct (Rle_dec (PlayerView.y pp) (PlayerView.y np)); lra.
Qed.

(** The linearity example, half way. *)
Lemma interpolation_stays_between_witness :
  exists r p,
    get_interpolated_state_at (1 / 2) example_client = Some r /\
    dict_get "player_0"%string (RenderState.players r) = Some p /\
    0 <= PlayerView.x p <= 10 /\ PlayerView.score p = 1%Z.
Proof.
  destruct (interpolation_stays_between (1 / 2) example_client []
              example_prev example_next []
              (PlayerView.mk "player_0" 10 0 1%Z white)
              (PlayerView.mk "player_0" 0 0 0%Z white))
    as (r & p & Hr & Hp & Hx & _ & Hs & _).
  - reflexivity.
  - simpl. lra.
  - repeat constructor. unfold late. simpl. lra.
  - repeat constructor. simpl. tauto.
  - repeat constructor; simpl; intuition discriminate.
  - now left.
  - now left.
  - reflexivity.
  - exists r, p. split; [exact Hr|]. split; [exact Hp|]. split; [|exact Hs].
    cbn [PlayerView.x] in Hx. unfold Rmin, Rmax in Hx.
    destruct (Rle_dec 0 10); lra.
Defined.

End ClientRender.

(** ** Keys, inputs and speed *)

Section Keyboard.
Import Server.

(** X17.  Whatever keys are held and whatever the key codes are, each
    component of the input vector that the client sends is -1, 0 or 1,
    opposite directions held together cancel, and the server, computing in
    binary64, turns the vector into a velocity that is zero when the vector
    is zero and otherwise has a magnitude of at most [PLAYER_SPEED] = 300
    and at least 300 minus a millionth of a millionth, so that moving
    diagonally is not faster; and nothing is sent unless the client is
    connected and the game has started. *)
Theorem input_vector_speed K_LEFT K_RIGHT K_UP K_DOWN K_a K_d K_w K_s
        keys_pressed :
  let v := Input.input_vector K_LEFT K_RIGHT K_UP K_DOWN K_a K_d K_w K_s
                              keys_pressed in
  let left := (set_mem K_LEFT keys_pressed || set_mem K_a keys_pressed)%bool in
  let right := (set_mem K_RIGHT keys_pressed || set_mem K_d keys_pressed)%bool in
  let up := (set_mem K_UP keys_pressed || set_mem K_w keys_pressed)%bool in
  let down := (set_mem K_DOWN keys_pressed || set_mem K_s keys_pressed)%bool in
  (fst v = (Z.b2z right - Z.b2z left)%Z /\
   snd v = (Z.b2z down - Z.b2z up)%Z) /\
  In v client_inputs /\
  (exists vx vy rx ry,
     Binary64.velocity (Binary64.of_int (fst v)) (Binary64.of_int (snd v))
     = Some (vx, vy) /\
     Binary64.to_R vx = Some rx /\ Binary64.to_R vy = Some ry /\
     if (Z.eqb (fst v) 0 && Z.eqb (snd v) 0)%bool
     then rx = 0 /\ ry = 0
     else 300 - 1 / 10 ^ 12 <= magnitude rx ry <= 300) /\
  (forall websocket game_started,
     Input.send_input K_LEFT K_RIGHT K_UP K_DOWN K_a K_d K_w K_s
                      websocket game_started keys_pressed
     = if (websocket && game_started)%bool then Some v else None).
Proof.
  cbv zeta. unfold Input.send_input, Input.input_vector.
  destruct (set_mem K_LEFT keys_pressed || set_mem K_a keys_pressed)%bool;
    destruct (set_mem K_RIGHT keys_pressed || set_mem K_d keys_pressed)%bool;
    destruct (set_mem K_UP keys_pressed || set_mem K_w keys_pressed)%bool;
    destruct (set_mem K_DOWN keys_pressed || set_mem K_s keys_pressed)%bool;
    cbn [fst snd Z.b2z Z.sub Z.add Z.opp Z.eqb andb Z.pos_sub Pos.eqb];
    (split; [split; reflexivity|]);
    (split; [unfold client_inputs; simpl; tauto|]);
    (split; [|intros websocket game_started;
              destruct (websocket && game_started)%bool; reflexivity]).
  all: match goal with
       | |- context [Binary64.velocity (Binary64.of_int ?ix)
                                       (Binary64.of_int ?iy)] =>
           assert (Hin : In (ix, iy) client_inputs)
             by (unfold client_inputs; simpl; tauto);
           destruct (@client_velocity ix iy Hin)
             as (vx & vy & rx & ry & Hv & Hrx & Hry & Hzero & Hmag & _)
       end.
  all: exists vx, vy, rx, ry; repeat (split; [assumption|]).
  all: try (apply Hmag; (left; discriminate) || (right; discriminate)).
  all: destruct (Hzero eq_refl eq_refl) as [-> ->];
    change (Some 0 = Some rx) in Hrx; change (Some 0 = Some ry) in Hry;
    injection Hrx as <-; injection Hry as <-; split; reflexivity.
Qed.

Lemma set_mem_after_add (k k' : Z) l :
  set_mem k (set_add k' l) = (Z.eqb k k' || set_mem k l)%bool.
Proof.
  unfold set_add. destruct (set_mem k' l) eqn:E.
  - destruct (Z.eqb_spec k k') as [->|_]; [now rewrite E | reflexivity].
  - unfold set_mem. rewrite existsb_app. cbn. rewrite orb_false_r.
    apply orb_comm.
Qed.

Lemma set_mem_after_discard (k k' : Z) l :
  set_mem k (set_discard k' l) = (negb (Z.eqb k k') && set_mem k l)%bool.
Proof.
  apply eq_true_iff_eq.
  rewrite andb_true_iff, negb_true_iff, !set_mem_In, set_discard_In, Z.eqb_neq.
  tauto.
Qed.

(** X18.  After a run of window events a key is held exactly when its last
    press or release in the run was a press, or, if the run has neither, when
    it was held before; the client keeps running exactly when it was running
    and the run has no quit event; and the set of held keys never holds a key
    twice. *)
Theorem handle_events_last_wins events : forall keys_pressed running key,
  let st := Input.handle_events events (keys_pressed, running) in
  set_mem key (fst st) = held_after key events (set_mem key keys_pressed) /\
  snd st = (running && forallb (fun event =>
                                  match event with
                                  | Input.QUIT => false
                                  | _ => true
                                  end) events)%bool /\
  (NoDup keys_pressed -> NoDup (fst st)).
Proof.
  induction events as [|event events IH]; intros keys_pressed running key;
    cbv zeta.
  - cbn. rewrite andb_true_r. repeat split. auto.
  - change (Input.handle_events (event :: events) (keys_pressed, running))
      with (Input.handle_events events
              (Input.handle_event event (keys_pressed, running))).
    destruct event as [|k|k|]; cbn [Input.handle_event fst snd].
    + pose proof (IH keys_pressed false key) as G. cbv zeta in G.
      destruct G as (Hm & Hr & Hnd).
      rewrite Hm, Hr. cbn [held_after fold_left forallb andb].
      rewrite andb_false_r. split; [reflexivity|]. split; [reflexivity|]. exact Hnd.
    + pose proof (IH (set_add k keys_pressed) running key) as G. cbv zeta in G.
      destruct G as (Hm & Hr & Hnd).
      rewrite Hm, Hr, set_mem_after_add. cbn [held_after fold_left forallb andb].
      split; [destruct (Z.eqb key k); reflexivity|]. split; [reflexivity|].
      intros H0. apply Hnd. now apply NoDup_set_add.
    + pose proof (IH (set_discard k keys_pressed) running key) as G. cbv zeta in G.
      destruct G as (Hm & Hr & Hnd).
      rewrite Hm, Hr, set_mem_after_discard. cbn [held_after fold_left forallb andb].
      split; [destruct (Z.eqb key k); reflexivity|]. split; [reflexivity|].
      intros H0. apply Hnd. now apply NoDup_set_discard.
    + pose proof (IH keys_pressed running key) as G. cbv zeta in G.
      destruct G as (Hm & Hr & Hnd).
      rewrite Hm, Hr. cbn [held_after fold_left forallb andb].
      split; [reflexivity|]. split; [reflexivity|]. exact Hnd.
Qed.

End Keyboard.
